(** * queuectl: the job store and the worker loop

    A shallow embedding of [queuectl/db.py], [queuectl/job_store.py],
    [queuectl/handlers.py] and [queuectl/worker.py], with the commands
    [enqueue] and [dlq retry] of [queuectl/cli.py], and the properties of
    the job lifecycle proved (or refuted) over it.

    Modelling conventions.
    - The [jobs] table is a list of rows in insertion order together with
      the AUTOINCREMENT counter.  An SQL statement is interpreted over that
      table; every function of [job_store.py] runs its statements one after
      the other, and a statement is atomic.
    - A Python [int] is a [Z], and a column holds the value it is given
      (the storage classes of SQLite are not modelled).  A naive
      [datetime] is the number of
      microseconds since 0001-01-01T00:00:00, a [Z] between [0] and
      [datetime_max]; the ISO-8601 text the code stores has fixed-width
      fields, so the text order SQLite uses on [available_at] is the order
      of these numbers.
    - Every call of [datetime.utcnow()] (also through [now_utc_iso()]) is an
      input of the function that makes it, in the order of the calls.
    - A Python exception is a value of [exn]; a function that can raise
      returns a [result] next to the table it leaves behind. *)

From Stdlib Require Import ZArith List String Ascii Bool Lia.
From Stdlib Require Import NArith DecimalString DecimalZ DecimalPos DecimalFacts.
From Stdlib Require Import Sorted Permutation.
Import ListNotations.
Local Open Scope string_scope.
Local Open Scope Z_scope.

(** ** Exceptions and results *)

(** An exception object: [type(exc).__name__] and [str(exc)].  Only
    instances of [Exception] are modelled; an interrupt is not a value of
    this type. *)
Record exn : Type := mkExn {
  exc_name : string;
  exc_str : string
}.

Definition ValueError (msg : string) : exn := mkExn "ValueError" msg.
Definition OverflowError (msg : string) : exn := mkExn "OverflowError" msg.

(** [except json.JSONDecodeError] *)
Definition is_JSONDecodeError (e : exn) : bool :=
  String.eqb (exc_name e) "JSONDecodeError".

Inductive result (A : Type) : Type :=
| Ok (a : A)
| Raise (e : exn).
Arguments Ok {A} a.
Arguments Raise {A} e.

(** [str(n)] for a Python [int]. *)
Definition str_int (n : Z) : string := NilZero.string_of_int (Z.to_int n).

(** ** [datetime] and [timedelta] *)

Definition datetime : Type := Z.

(** [datetime.max] is 9999-12-31T23:59:59.999999, whose proleptic ordinal
    is 3652059. *)
Definition datetime_max : Z := 3652059 * 86400 * 1000000 - 1.

Definition datetime_ok (t : datetime) : Prop := 0 <= t <= datetime_max.

(** [timedelta(seconds=s)] for an [int] [s]: the value is normalised to
    days, seconds and microseconds, and more than 999999999 days in either
    direction is an [OverflowError].  The result is in microseconds. *)
Definition timedelta (seconds : Z) : result Z :=
  let days := seconds / 86400 in
  if (Z.abs days <=? 999999999) then Ok (seconds * 1000000)
  else if (- 2 ^ 31 <=? days) && (days <? 2 ^ 31) then
    Raise (OverflowError ("days=" ++ str_int days
                            ++ "; must have magnitude <= 999999999"))
  else Raise (OverflowError "Python int too large to convert to C int").

(** [t + delta]: a result outside years 1..9999 is an [OverflowError]
    ("date value out of range"). *)
Definition datetime_add (t : datetime) (delta : Z) : result datetime :=
  let r := t + delta in
  if (0 <=? r) && (r <=? datetime_max) then Ok r
  else Raise (OverflowError "date value out of range").

(** ** The [jobs] table *)

Inductive Status : Type := pending | running | completed | failed | dlq.

Definition status_text (st : Status) : string :=
  match st with
  | pending => "pending"
  | running => "running"
  | completed => "completed"
  | failed => "failed"
  | dlq => "dlq"
  end.

Definition status_eqb (a b : Status) : bool :=
  match a, b with
  | pending, pending | running, running | completed, completed
  | failed, failed | dlq, dlq => true
  | _, _ => false
  end.

Record Job : Type := mkJob {
  id : Z;
  type : string;
  payload : string;
  status : Status;
  attempts : Z;
  max_attempts : Z;
  available_at : datetime;
  last_error : option string;
  created_at : datetime;
  updated_at : datetime
}.

(** The table and the largest id handed out so far ([sqlite_sequence]). *)
Record Store : Type := mkStore {
  rows : list Job;
  seq : Z
}.

Definition empty_store : Store := mkStore [] 0.

(** [UPDATE jobs SET ... WHERE id = ?] *)
Definition update_where_id (job_id : Z) (set : Job -> Job) (s : Store) : Store :=
  mkStore (map (fun r => if id r =? job_id then set r else r) (rows s)) (seq s).

(** [ORDER BY id LIMIT 1] over the selected rows. *)
Fixpoint order_by_id_limit_1 (l : list Job) : option Job :=
  match l with
  | [] => None
  | r :: rest =>
      match order_by_id_limit_1 rest with
      | None => Some r
      | Some m => if id r <=? id m then Some r else Some m
      end
  end.

(** ** [job_store.py] *)

Section Enqueue.

(** The payload documents and [json.dumps] on them. *)
Variable document : Type.
Variable json_dumps : document -> result string.

(** [enqueue_job]: [available_at] is the optional argument; [t0] is the
    [datetime.utcnow()] read only when it is absent, [t1] and [t2] are
    the two calls of [now_utc_iso()].  An exception of [json.dumps]
    leaves before the connection is opened. *)
Definition enqueue_job (job_type : string) (payload : document)
    (max_attempts : Z) (available_at : option datetime)
    (t0 t1 t2 : datetime) (s : Store) : result Z * Store :=
  let available_at :=
    match available_at with None => t0 | Some a => a end in
  match json_dumps payload with
  | Raise e => (Raise e, s)
  | Ok payload_str =>
      let lastrowid := seq s + 1 in
      (Ok lastrowid,
       mkStore (rows s ++ [mkJob lastrowid job_type payload_str pending 0
                             max_attempts available_at None t1 t2])
               lastrowid)
  end.

End Enqueue.

(** [get_job]: [SELECT * FROM jobs WHERE id = ?], [fetchone()]. *)
Definition get_job (job_id : Z) (s : Store) : option Job :=
  find (fun r => id r =? job_id) (rows s).

(** The [WHERE] clause of the claim query. *)
Definition ready (now : datetime) (r : Job) : bool :=
  status_eqb (status r) pending && (available_at r <=? now).

Definition set_running (t : datetime) (r : Job) : Job :=
  mkJob (id r) (type r) (payload r) running (attempts r) (max_attempts r)
        (available_at r) (last_error r) (created_at r) t.

(** The two statements of [get_next_pending_job]. *)
Definition select_next_pending (now : datetime) (s : Store) : option Job :=
  order_by_id_limit_1 (filter (ready now) (rows s)).

Definition mark_running (t : datetime) (job_id : Z) (s : Store) : Store :=
  update_where_id job_id (set_running t) s.

Definition get_next_pending_job (now t : datetime) (s : Store)
  : option Job * Store :=
  match select_next_pending now s with
  | None => (None, s)
  | Some row =>
      let job_id := id row in
      (Some row, mark_running t job_id s)
  end.

Definition set_completed (t : datetime) (r : Job) : Job :=
  mkJob (id r) (type r) (payload r) completed (attempts r) (max_attempts r)
        (available_at r) (last_error r) (created_at r) t.

Definition mark_job_completed (job_id : Z) (t : datetime) (s : Store) : Store :=
  update_where_id job_id (set_completed t) s.

Definition set_dlq (error_message : string) (t : datetime) (r : Job) : Job :=
  mkJob (id r) (type r) (payload r) dlq (attempts r) (max_attempts r)
        (available_at r) (Some error_message) (created_at r) t.

Definition move_job_to_dlq (job_id : Z) (error_message : string)
    (t : datetime) (s : Store) : Store :=
  update_where_id job_id (set_dlq error_message t) s.

Definition set_exhausted (new_attempts : Z) (error_message : string)
    (t : datetime) (r : Job) : Job :=
  mkJob (id r) (type r) (payload r) dlq new_attempts (max_attempts r)
        (available_at r) (Some error_message) (created_at r) t.

Definition set_rescheduled (new_attempts : Z) (next_available : datetime)
    (error_message : string) (t : datetime) (r : Job) : Job :=
  mkJob (id r) (type r) (payload r) pending new_attempts (max_attempts r)
        next_available (Some error_message) (created_at r) t.

(** [handle_job_failure]: [job] is the dict the caller holds; [now] is the
    [datetime.utcnow()] of the backoff branch and [t] the [now_utc_iso()] of
    the branch taken.  The attempt count in a table written by this program
    is never negative, so the exponent [new_attempts - 1] of the backoff
    branch is a non-negative [int]. *)
Definition handle_job_failure (job : Job) (error_message : string)
    (base_delay : Z) (now t : datetime) (s : Store) : result unit * Store :=
  let job_id := id job in
  let attempts := attempts job in
  let max_attempts := max_attempts job in
  let new_attempts := attempts + 1 in
  if new_attempts >=? max_attempts then
    (Ok tt, update_where_id job_id (set_exhausted new_attempts error_message t) s)
  else
    let delay_seconds := base_delay * (2 ^ (new_attempts - 1)) in
    match timedelta delay_seconds with
    | Raise e => (Raise e, s)
    | Ok delta =>
        match datetime_add now delta with
        | Raise e => (Raise e, s)
        | Ok next_available =>
            (Ok tt,
             update_where_id job_id
               (set_rescheduled new_attempts next_available error_message t) s)
        end
    end.

Definition set_requeued (now t : datetime) (r : Job) : Job :=
  mkJob (id r) (type r) (payload r) pending 0 (max_attempts r)
        now None (created_at r) t.

(** [retry_dlq_job]: [now] is the [datetime.utcnow()] bound to
    [available_at], [t] the [now_utc_iso()]. *)
Definition retry_dlq_job (job_id : Z) (now t : datetime) (s : Store)
  : result unit * Store :=
  match get_job job_id s with
  | None => (Raise (ValueError ("Job #" ++ str_int job_id ++ " not found")), s)
  | Some job =>
      if negb (status_eqb (status job) dlq) then
        (Raise (ValueError ("Job #" ++ str_int job_id ++ " is not in DLQ (status="
                              ++ status_text (status job) ++ ")")), s)
      else
        (Ok tt, update_where_id job_id (set_requeued now t) s)
  end.

(** ** [handlers.py] and [worker.py] *)

(** What the worker writes to its log, one constructor per [logger] call,
    and the two calls that leave the process: [time.sleep(poll_interval)]
    and [handler(payload)]. *)
Inductive event (document : Type) : Type :=
| Starting
| Picked (job_id : Z) (job_type : string)
| InvalidPayload (job_id : Z)
| NoHandler (job_type : string)
| Executing (job_id : Z)
| Invoke (job_type : string) (payload : document)
| JobFailed (job_id : Z) (error_msg : string)
| JobCompleted (job_id : Z)
| Sleep.
Arguments Starting {document}.
Arguments Picked {document} job_id job_type.
Arguments InvalidPayload {document} job_id.
Arguments NoHandler {document} job_type.
Arguments Executing {document} job_id.
Arguments Invoke {document} job_type payload.
Arguments JobFailed {document} job_id error_msg.
Arguments JobCompleted {document} job_id.
Arguments Sleep {document}.


Definition is_JobFailed {document : Type} (e : event document) : bool :=
  match e with JobFailed _ _ => true | _ => false end.

Section Worker.

Variable document : Type.

(** [json.loads] on the stored text. *)
Variable json_loads : string -> result document.

(** A handler returns ([None]) or raises. *)
Definition Handler : Type := document -> option exn.

(** [handlers.HANDLERS.get] *)
Variable HANDLERS : string -> option Handler.

(** The body of the loop of [run_worker] once a job is claimed.  The
    store function that ends the turn is given the clock reading [t2],
    and [handle_job_failure] also [t3]. *)
Definition process_job (base_delay : Z) (t2 t3 : datetime) (job : Job)
    (s : Store) : list (event document) * result unit * Store :=
  let job_id := id job in
  let job_type := type job in
  let payload_str := payload job in
  match json_loads payload_str with
  | Raise e =>
      if is_JSONDecodeError e then
        ([Picked job_id job_type; InvalidPayload job_id], Ok tt,
         move_job_to_dlq job_id "Invalid JSON payload stored" t2 s)
      else ([Picked job_id job_type], Raise e, s)
  | Ok payload =>
      match HANDLERS job_type with
      | None =>
          ([Picked job_id job_type; NoHandler job_type], Ok tt,
           move_job_to_dlq job_id ("Unknown job type: " ++ job_type) t2 s)
      | Some handler =>
          match handler payload with
          | Some exc =>
              let error_msg := exc_name exc ++ ": " ++ exc_str exc in
              let '(r, s') :=
                handle_job_failure job error_msg base_delay t2 t3 s in
              ([Picked job_id job_type; Executing job_id;
                Invoke job_type payload; JobFailed job_id error_msg], r, s')
          | None =>
              ([Picked job_id job_type; Executing job_id;
                Invoke job_type payload; JobCompleted job_id], Ok tt,
               mark_job_completed job_id t2 s)
          end
      end
  end.

(** One turn of the [while True] loop; [clk 0 .. clk 3] are the clock
    readings the turn can make: two in [get_next_pending_job], two in
    the store function that ends the turn. *)
Definition worker_iteration (base_delay : Z) (clk : nat -> datetime)
    (s : Store) : list (event document) * result unit * Store :=
  match get_next_pending_job (clk 0%nat) (clk 1%nat) s with
  | (None, s1) => ([Sleep], Ok tt, s1)
  | (Some job, s1) => process_job base_delay (clk 2%nat) (clk 3%nat) job s1
  end.

(** [run_worker], cancelled from outside after [n] turns of the loop
    unless an exception leaves it before.  Turn [k] reads the clock at
    [clk (4 * k) .. clk (4 * k + 3)]; [time.sleep] is given a
    non-negative interval. *)
Fixpoint run_loop (n : nat) (base_delay : Z) (clk : nat -> datetime)
    (s : Store) : list (event document) * result unit * Store :=
  match n with
  | O => ([], Ok tt, s)
  | S n' =>
      match worker_iteration base_delay clk s with
      | (ev, Raise e, s1) => (ev, Raise e, s1)
      | (ev, Ok _, s1) =>
          let '(ev', r, s2) :=
            run_loop n' base_delay (fun k => clk (4 + k)%nat) s1 in
          ((ev ++ ev')%list, r, s2)
      end
  end.

Definition run_worker (n : nat) (base_delay : Z) (clk : nat -> datetime)
    (s : Store) : list (event document) * result unit * Store :=
  let '(ev, r, s') := run_loop n base_delay clk s in
  (Starting :: ev, r, s').

End Worker.

(** ** Several workers and an operator on one table

    Between its claim and the store call that ends its turn a worker holds
    the row it was given; [held] lists these rows.  A worker's turn is a
    [Claim] followed, later, by the [Resolve] of the row it holds; other
    calls may come in between.  Every call is atomic here. *)

Record System : Type := mkSystem {
  db : Store;
  held : list Job
}.

Definition init : System := mkSystem empty_store [].

Fixpoint remove_nth {A : Type} (k : nat) (l : list A) : list A :=
  match l, k with
  | [], _ => []
  | _ :: rest, O => rest
  | x :: rest, S k' => x :: remove_nth k' rest
  end.

Section Calls.

Variable document : Type.
Variable json_dumps : document -> result string.
Variable json_loads : string -> result document.
Variable HANDLERS : string -> option (Handler document).

Inductive op : Type :=
| Enqueue (job_type : string) (payload : document) (max_attempts : Z)
          (available_at : option datetime) (t0 t1 t2 : datetime)
| Claim (now t : datetime)
| Resolve (k : nat) (base_delay : Z) (t2 t3 : datetime)
| Retry (job_id : Z) (now t : datetime).

Definition step (sys : System) (o : op) : System :=
  match o with
  | Enqueue job_type payload max_attempts available_at t0 t1 t2 =>
      mkSystem
        (snd (enqueue_job document json_dumps job_type payload max_attempts
                available_at t0 t1 t2 (db sys)))
        (held sys)
  | Claim now t =>
      match get_next_pending_job now t (db sys) with
      | (None, s) => mkSystem s (held sys)
      | (Some job, s) => mkSystem s (held sys ++ [job])
      end
  | Resolve k base_delay t2 t3 =>
      match nth_error (held sys) k with
      | None => sys
      | Some job =>
          mkSystem
            (snd (process_job document json_loads HANDLERS base_delay t2 t3
                    job (db sys)))
            (remove_nth k (held sys))
      end
  | Retry job_id now t =>
      mkSystem (snd (retry_dlq_job job_id now t (db sys))) (held sys)
  end.

Definition run (ops : list op) : System := fold_left step ops init.

(** The call hands the job to [handle_job_failure]: it is the [Resolve]
    of a held row of that id whose handler raised. *)
Definition failure_path (sys : System) (o : op) (job_id : Z) : bool :=
  match o with
  | Resolve k base_delay t2 t3 =>
      match nth_error (held sys) k with
      | None => false
      | Some job =>
          (id job =? job_id)
          && existsb is_JobFailed
               (fst (fst (process_job document json_loads HANDLERS
                            base_delay t2 t3 job (db sys))))
      end
  | _ => false
  end.

(** Every [enqueue_job] of the run is given a [max_attempts] of at
    least one. *)
Definition positive_limit (o : op) : Prop :=
  match o with
  | Enqueue _ _ max_attempts _ _ _ _ => 1 <= max_attempts
  | _ => True
  end.

End Calls.

(** The invariant of the data model on one row. *)
Definition attempts_below_limit (r : Job) : Prop :=
  status r = pending \/ status r = running -> attempts r < max_attempts r.

(** ** Concurrent callers of [get_next_pending_job]

    The function runs two statements on its connection: the [SELECT], and
    the [UPDATE] that the [with] block commits.  The sqlite3 module opens a
    transaction before the [UPDATE] only, so statements of other
    connections can run between the two.  A caller is at one of three
    points; a schedule names, step by step, the caller whose next statement
    runs and the clock reading it uses. *)

Inductive call : Type :=
| NotStarted
| Fetched (row : Job)
| Returned (res : option Job).

Definition advance (t : datetime) (c : call) (s : Store) : call * Store :=
  match c with
  | NotStarted =>
      match select_next_pending t s with
      | None => (Returned None, s)
      | Some row => (Fetched row, s)
      end
  | Fetched row => (Returned (Some row), mark_running t (id row) s)
  | Returned res => (Returned res, s)
  end.

Fixpoint set_nth {A : Type} (k : nat) (x : A) (l : list A) : list A :=
  match l, k with
  | [], _ => []
  | _ :: rest, O => x :: rest
  | y :: rest, S k' => y :: set_nth k' x rest
  end.

Definition schedule_step (st : list call * Store) (e : nat * datetime)
  : list call * Store :=
  let '(calls, s) := st in
  let '(i, t) := e in
  match nth_error calls i with
  | None => st
  | Some c => let '(c', s') := advance t c s in (set_nth i c' calls, s')
  end.

Definition run_schedule (n : nat) (sched : list (nat * datetime)) (s : Store)
  : list call * Store :=
  fold_left schedule_step sched (repeat NotStarted n, s).

(** The calls made one after the other: [times] gives the two clock
    readings of each call. *)
Fixpoint serial_claims (times : list (datetime * datetime)) (s : Store)
  : list (option Job) * Store :=
  match times with
  | [] => ([], s)
  | (now, t) :: rest =>
      let '(r, s1) := get_next_pending_job now t s in
      let '(rs, s2) := serial_claims rest s1 in
      (r :: rs, s2)
  end.

(** The jobs among the results. *)
Definition claimed (rs : list (option Job)) : list Job :=
  flat_map (fun r => match r with Some j => [j] | None => [] end) rs.

Definition all_returned (calls : list call) : bool :=
  forallb (fun c => match c with Returned _ => true | _ => false end) calls.

Definition results (calls : list call) : list (option Job) :=
  flat_map (fun c => match c with Returned r => [r] | _ => [] end) calls.

(** ** Python documents and the [json] module

    The documents are the values [json.dumps] takes apart: [None], [bool],
    [int], [str], [list], [tuple] and [dict] with keys of the types
    [json.dumps] accepts.  A [float] is not a value of the model: the
    encoder below is given no float, and the decoder reports a text that
    holds one.  A [str] is the list of its code points; so is the text
    [json.dumps] returns and [json.loads] reads.  The limits of the
    interpreter (recursion depth, digits of an [int]) are not modelled. *)

Module json.

Local Open Scope list_scope.

Unset Elimination Schemes.

Definition pystr : Type := list N.

Inductive pykey : Type :=
| KStr (s : pystr)
| KInt (n : Z)
| KBool (b : bool)
| KNone.

Inductive pyval : Type :=
| PNone
| PBool (b : bool)
| PInt (n : Z)
| PStr (s : pystr)
| PList (items : list pyval)
| PTuple (items : list pyval)
| PDict (items : list (pykey * pyval)).

Set Elimination Schemes.

Section pyval_induction.

Variable P : pyval -> Prop.
Hypothesis HNone : P PNone.
Hypothesis HBool : forall b, P (PBool b).
Hypothesis HInt : forall n, P (PInt n).
Hypothesis HStr : forall s, P (PStr s).
Hypothesis HList : forall items, Forall P items -> P (PList items).
Hypothesis HTuple : forall items, Forall P items -> P (PTuple items).
Hypothesis HDict :
  forall items, Forall (fun kv => P (snd kv)) items -> P (PDict items).

Fixpoint pyval_nested_ind (obj : pyval) : P obj :=
  match obj with
  | PNone => HNone
  | PBool b => HBool b
  | PInt n => HInt n
  | PStr s => HStr s
  | PList items =>
      HList items
        ((fix all (l : list pyval) : Forall P l :=
            match l with
            | [] => Forall_nil P
            | x :: l' => Forall_cons x (pyval_nested_ind x) (all l')
            end) items)
  | PTuple items =>
      HTuple items
        ((fix all (l : list pyval) : Forall P l :=
            match l with
            | [] => Forall_nil P
            | x :: l' => Forall_cons x (pyval_nested_ind x) (all l')
            end) items)
  | PDict items =>
      HDict items
        ((fix all (l : list (pykey * pyval))
            : Forall (fun kv => P (snd kv)) l :=
            match l with
            | [] => Forall_nil _
            | kv :: l' => Forall_cons kv (pyval_nested_ind (snd kv)) (all l')
            end) items)
  end.

End pyval_induction.


(** A string of 8-bit characters as a [str], and back: a string literal
    of the source, and the text of the [payload] column, which
    [json.dumps] makes of ASCII characters only. *)
Definition codes (s : string) : pystr :=
  map N_of_ascii (list_ascii_of_string s).

Definition text_of_codes (l : list N) : string :=
  string_of_list_ascii (map ascii_of_N l).

(** *** [str(n)] and [int(text)] on decimal digits *)

Fixpoint uint_codes (u : Decimal.uint) : list N :=
  match u with
  | Decimal.Nil => []
  | Decimal.D0 u => 48%N :: uint_codes u
  | Decimal.D1 u => 49%N :: uint_codes u
  | Decimal.D2 u => 50%N :: uint_codes u
  | Decimal.D3 u => 51%N :: uint_codes u
  | Decimal.D4 u => 52%N :: uint_codes u
  | Decimal.D5 u => 53%N :: uint_codes u
  | Decimal.D6 u => 54%N :: uint_codes u
  | Decimal.D7 u => 55%N :: uint_codes u
  | Decimal.D8 u => 56%N :: uint_codes u
  | Decimal.D9 u => 57%N :: uint_codes u
  end.

Definition int_codes (n : Z) : list N :=
  match Z.to_int n with
  | Decimal.Pos u => uint_codes u
  | Decimal.Neg u => 45%N :: uint_codes u
  end.

Definition is_digit (c : N) : bool := ((48 <=? c) && (c <=? 57))%N.

Definition digit_cons (c : N) (u : Decimal.uint) : Decimal.uint :=
  match (c - 48)%N with
  | 0%N => Decimal.D0 u
  | 1%N => Decimal.D1 u
  | 2%N => Decimal.D2 u
  | 3%N => Decimal.D3 u
  | 4%N => Decimal.D4 u
  | 5%N => Decimal.D5 u
  | 6%N => Decimal.D6 u
  | 7%N => Decimal.D7 u
  | 8%N => Decimal.D8 u
  | _ => Decimal.D9 u
  end.

(** The digits at the head of the text, and what follows. *)
Fixpoint take_digits (text : list N) : Decimal.uint * list N :=
  match text with
  | c :: rest =>
      if is_digit c then
        let '(u, rest') := take_digits rest in (digit_cons c u, rest')
      else (Decimal.Nil, text)
  | [] => (Decimal.Nil, [])
  end.

(** *** The encoder: [json.dumps(obj)] with its default arguments *)

Definition hex_digit (n : N) : N :=
  (if n <? 10 then 48 + n else 87 + n)%N.

(** The four hexadecimal digits of a 16-bit value. *)
Definition hex4 (c : N) : list N :=
  [hex_digit ((c / 4096) mod 16); hex_digit ((c / 256) mod 16);
   hex_digit ((c / 16) mod 16); hex_digit (c mod 16)]%N.

(** One character of [encode_basestring_ascii]. *)
Definition escape_char (c : N) : list N :=
  (if c =? 34 then [92; 34]
   else if c =? 92 then [92; 92]
   else if c =? 10 then [92; 110]
   else if c =? 13 then [92; 114]
   else if c =? 9 then [92; 116]
   else if c =? 8 then [92; 98]
   else if c =? 12 then [92; 102]
   else if (32 <=? c) && (c <=? 126) then [c]
   else if c <? 65536 then 92 :: 117 :: hex4 c
   else
     let v := c - 65536 in
     (92 :: 117 :: hex4 (55296 + v / 1024))
     ++ (92 :: 117 :: hex4 (56320 + v mod 1024)))%N.

Definition encode_basestring_ascii (s : pystr) : list N :=
  34%N :: flat_map escape_char s ++ [34%N].

(** The text of a [dict] key. *)
Definition key_text (k : pykey) : pystr :=
  match k with
  | KStr s => s
  | KInt n => int_codes n
  | KBool true => codes "true"
  | KBool false => codes "false"
  | KNone => codes "null"
  end.

(** [", ".join] *)
Fixpoint join (parts : list (list N)) : list N :=
  match parts with
  | [] => []
  | [p] => p
  | p :: rest => p ++ codes ", " ++ join rest
  end.

Fixpoint dumps (obj : pyval) : list N :=
  match obj with
  | PNone => codes "null"
  | PBool true => codes "true"
  | PBool false => codes "false"
  | PInt n => int_codes n
  | PStr s => encode_basestring_ascii s
  | PList items => (91 :: join (map dumps items) ++ [93])%N
  | PTuple items => (91 :: join (map dumps items) ++ [93])%N
  | PDict items =>
      (123 :: join (map (fun kv => encode_basestring_ascii (key_text (fst kv))
                                  ++ codes ": " ++ dumps (snd kv)) items)
           ++ [125])%N
  end.

(** *** The decoder: [json.loads(s)] with its default arguments *)

Definition is_ws (c : N) : bool :=
  ((c =? 32) || (c =? 9) || (c =? 10) || (c =? 13))%N.

Fixpoint skip_ws (text : list N) : list N :=
  match text with
  | c :: rest => if is_ws c then skip_ws rest else text
  | [] => []
  end.

Definition hex_value (c : N) : option N :=
  (if (48 <=? c) && (c <=? 57) then Some (c - 48)
   else if (97 <=? c) && (c <=? 102) then Some (c - 87)
   else if (65 <=? c) && (c <=? 70) then Some (c - 55)
   else None)%N.

Definition parse_hex4 (text : list N) : option (N * list N) :=
  match text with
  | a :: b :: c :: d :: rest =>
      match hex_value a, hex_value b, hex_value c, hex_value d with
      | Some a, Some b, Some c, Some d =>
          Some ((((a * 16 + b) * 16 + c) * 16 + d)%N, rest)
      | _, _, _, _ => None
      end
  | _ => None
  end.

Definition is_high_surrogate (c : N) : bool :=
  ((55296 <=? c) && (c <=? 56319))%N.
Definition is_low_surrogate (c : N) : bool :=
  ((56320 <=? c) && (c <=? 57343))%N.
Definition join_surrogates (hi lo : N) : N :=
  ((hi mod 1024) * 1024 + lo mod 1024 + 65536)%N.

(** The character a backslash escape other than [u] stands for. *)
Definition simple_escape (c : N) : option N :=
  (if c =? 34 then Some 34
   else if c =? 92 then Some 92
   else if c =? 47 then Some 47
   else if c =? 98 then Some 8
   else if c =? 102 then Some 12
   else if c =? 110 then Some 10
   else if c =? 114 then Some 13
   else if c =? 116 then Some 9
   else None)%N.

(** [scanstring] in strict mode, from the character after the opening
    quote: the string and the text after the closing quote. *)
Fixpoint scan_chars (fuel : nat) (text : list N) : option (pystr * list N) :=
  match fuel with
  | O => None
  | S fuel =>
      match text with
      | [] => None
      | c :: rest =>
          if (c =? 34)%N then Some ([], rest)
          else if (c =? 92)%N then
            match rest with
            | [] => None
            | e :: rest1 =>
                if (e =? 117)%N then
                  match parse_hex4 rest1 with
                  | None => None
                  | Some (uni, rest2) =>
                      let single :=
                        match scan_chars fuel rest2 with
                        | Some (s, r) => Some (uni :: s, r)
                        | None => None
                        end in
                      if is_high_surrogate uni then
                        match rest2 with
                        | b :: u :: rest3 =>
                            if ((b =? 92) && (u =? 117))%N then
                              match parse_hex4 rest3 with
                              | None => None
                              | Some (uni2, rest4) =>
                                  if is_low_surrogate uni2 then
                                    match scan_chars fuel rest4 with
                                    | Some (s, r) =>
                                        Some (join_surrogates uni uni2 :: s, r)
                                    | None => None
                                    end
                                  else single
                              end
                            else single
                        | _ => single
                        end
                      else single
                  end
                else
                  match simple_escape e with
                  | None => None
                  | Some ch =>
                      match scan_chars fuel rest1 with
                      | Some (s, r) => Some (ch :: s, r)
                      | None => None
                      end
                  end
            end
          else if (c <? 32)%N then None
          else
            match scan_chars fuel rest with
            | Some (s, r) => Some (c :: s, r)
            | None => None
            end
      end
  end.

Definition scanstring (text : list N) : option (pystr * list N) :=
  scan_chars (S (List.length text)) text.

Inductive number : Type :=
| IntLit (n : Z)
| FloatLit.

Definition is_Nil (u : Decimal.uint) : bool :=
  match u with Decimal.Nil => true | _ => false end.

(** The tail of [NUMBER_RE] after the integer part: an optional dot with
    one digit or more, then an optional [e] or [E], optional sign and one
    digit or more. *)
Definition number_tail (text : list N) : bool * list N :=
  let '(frac, r1) :=
    match text with
    | c :: r =>
        if (c =? 46)%N then
          let '(u, r') := take_digits r in
          if is_Nil u then (false, text) else (true, r')
        else (false, text)
    | [] => (false, text)
    end in
  let '(exp, r2) :=
    match r1 with
    | e :: r =>
        if ((e =? 101) || (e =? 69))%N then
          let r' :=
            match r with
            | sign :: r'' =>
                if ((sign =? 45) || (sign =? 43))%N then r'' else r
            | [] => r
            end in
          let '(u, r'') := take_digits r' in
          if is_Nil u then (false, r1) else (true, r'')
        else (false, r1)
    | [] => (false, r1)
    end in
  (frac || exp, r2).

(** [NUMBER_RE.match]: an optional minus sign, then a single zero or a
    digit from 1 to 9 followed by any digits, then the tail; a number
    with a fraction or an exponent is a float. *)
Definition match_number (text : list N) : option (number * list N) :=
  let '(neg, t1) :=
    match text with
    | c :: t => if (c =? 45)%N then (true, t) else (false, text)
    | [] => (false, text)
    end in
  match t1 with
  | c :: t2 =>
      if is_digit c then
        let '(u, t3) :=
          if (c =? 48)%N then (Decimal.D0 Decimal.Nil, t2)
          else let '(u, t3) := take_digits t2 in (digit_cons c u, t3) in
        let '(is_float, t4) := number_tail t3 in
        if is_float then Some (FloatLit, t4)
        else
          Some (IntLit (Z.of_int (if neg then Decimal.Neg u else Decimal.Pos u)),
                t4)
      else None
  | [] => None
  end.

Fixpoint strip_prefix (p text : list N) : option (list N) :=
  match p, text with
  | [], _ => Some text
  | a :: p', b :: text' => if (a =? b)%N then strip_prefix p' text' else None
  | _ :: _, [] => None
  end.

Definition pystr_eqb (a b : pystr) : bool :=
  if list_eq_dec N.eq_dec a b then true else false.

(** [d[key] = value] on a dict whose keys are all [str]. *)
Fixpoint dict_set (key : pystr) (value : pyval) (d : list (pykey * pyval))
  : list (pykey * pyval) :=
  match d with
  | [] => [(KStr key, value)]
  | (k, v) :: d' =>
      match k with
      | KStr s =>
          if pystr_eqb s key then (k, value) :: d'
          else (k, v) :: dict_set key value d'
      | _ => (k, v) :: dict_set key value d'
      end
  end.

(** [dict(pairs)] *)
Definition dict_of_pairs (pairs : list (pystr * pyval)) : list (pykey * pyval) :=
  fold_left (fun d kv => dict_set (fst kv) (snd kv) d) pairs [].

(** [scan_once] and the loops of [JSONArray] and [JSONObject].  The
    result is the value, whether a float was read on the way (its place
    in the value is then held by [None]), and the text that follows. *)
Fixpoint scan_once (fuel : nat) (text : list N) {struct fuel}
  : option (pyval * bool * list N) :=
  match fuel with
  | O => None
  | S fuel =>
      match text with
      | [] => None
      | c :: rest =>
          if (c =? 34)%N then
            match scanstring rest with
            | Some (s, r) => Some (PStr s, false, r)
            | None => None
            end
          else if (c =? 123)%N then
            match skip_ws rest with
            | [] => None
            | c' :: r =>
                if (c' =? 125)%N then Some (PDict [], false, r)
                else
                  match parse_pairs fuel (c' :: r) with
                  | Some (pairs, f, r') =>
                      Some (PDict (dict_of_pairs pairs), f, r')
                  | None => None
                  end
            end
          else if (c =? 91)%N then
            match skip_ws rest with
            | [] => None
            | c' :: r =>
                if (c' =? 93)%N then Some (PList [], false, r)
                else
                  match parse_items fuel (c' :: r) with
                  | Some (items, f, r') => Some (PList items, f, r')
                  | None => None
                  end
            end
          else
            match strip_prefix (codes "null") text,
                  strip_prefix (codes "true") text,
                  strip_prefix (codes "false") text with
            | Some r, _, _ => Some (PNone, false, r)
            | _, Some r, _ => Some (PBool true, false, r)
            | _, _, Some r => Some (PBool false, false, r)
            | None, None, None =>
                match match_number text with
                | Some (IntLit n, r) => Some (PInt n, false, r)
                | Some (FloatLit, r) => Some (PNone, true, r)
                | None =>
                    match strip_prefix (codes "NaN") text,
                          strip_prefix (codes "Infinity") text,
                          strip_prefix (codes "-Infinity") text with
                    | Some r, _, _ | _, Some r, _ | _, _, Some r =>
                        Some (PNone, true, r)
                    | None, None, None => None
                    end
                end
            end
      end
  end

with parse_items (fuel : nat) (text : list N) {struct fuel}
  : option (list pyval * bool * list N) :=
  match fuel with
  | O => None
  | S fuel =>
      match scan_once fuel text with
      | None => None
      | Some (value, f, rest) =>
          match skip_ws rest with
          | c :: rest' =>
              if (c =? 93)%N then Some ([value], f, rest')
              else if (c =? 44)%N then
                match parse_items fuel (skip_ws rest') with
                | Some (values, f', r) => Some (value :: values, f || f', r)
                | None => None
                end
              else None
          | [] => None
          end
      end
  end

with parse_pairs (fuel : nat) (text : list N) {struct fuel}
  : option (list (pystr * pyval) * bool * list N) :=
  match fuel with
  | O => None
  | S fuel =>
      match text with
      | q :: t =>
          if negb (q =? 34)%N then None else
          match scanstring t with
          | None => None
          | Some (key, t1) =>
              match skip_ws t1 with
              | colon :: t2 =>
                  if negb (colon =? 58)%N then None else
                  match scan_once fuel (skip_ws t2) with
                  | None => None
                  | Some (value, f, t3) =>
                      match skip_ws t3 with
                      | c :: t4 =>
                          if (c =? 125)%N then Some ([(key, value)], f, t4)
                          else if (c =? 44)%N then
                            match parse_pairs fuel (skip_ws t4) with
                            | Some (pairs, f', r) =>
                                Some ((key, value) :: pairs, f || f', r)
                            | None => None
                            end
                          else None
                      | [] => None
                      end
                  end
              | [] => None
              end
          end
      | [] => None
      end
  end.

Inductive decoded : Type :=
| Doc (obj : pyval)
| Invalid
| HasFloat.

(** [json.loads]: [Invalid] is [JSONDecodeError]; [HasFloat] is a text
    that decodes to a document with a float in it. *)
Definition loads (text : list N) : decoded :=
  let text' := skip_ws text in
  match scan_once (S (List.length text')) text' with
  | None => Invalid
  | Some (obj, has_float, rest) =>
      match skip_ws rest with
      | [] => if has_float then HasFloat else Doc obj
      | _ :: _ => Invalid
      end
  end.

(** *** What a document becomes on the way through the text

    A tuple comes back as a list, a key as a [str], a key written twice
    once (with the later value at the earlier place), and a high
    surrogate followed by a low one as the single character they
    encode. *)

Fixpoint merge_surrogates (s : pystr) : pystr :=
  match s with
  | [] => []
  | c :: rest =>
      match rest with
      | lo :: rest' =>
          if is_high_surrogate c && is_low_surrogate lo
          then join_surrogates c lo :: merge_surrogates rest'
          else c :: merge_surrogates rest
      | [] => [c]
      end
  end.

Fixpoint norm (obj : pyval) : pyval :=
  match obj with
  | PNone => PNone
  | PBool b => PBool b
  | PInt n => PInt n
  | PStr s => PStr (merge_surrogates s)
  | PList items => PList (map norm items)
  | PTuple items => PList (map norm items)
  | PDict items =>
      PDict (dict_of_pairs
               (map (fun kv => (merge_surrogates (key_text (fst kv)),
                                norm (snd kv))) items))
  end.

(** Every character of every [str] is a code point. *)
Definition code_points (s : pystr) : Prop :=
  Forall (fun c => (c < 1114112)%N) s.

Definition key_code_points (k : pykey) : Prop :=
  match k with KStr s => code_points s | _ => True end.

Fixpoint well_formed (obj : pyval) : Prop :=
  match obj with
  | PStr s => code_points s
  | PList items | PTuple items => fold_right and True (map well_formed items)
  | PDict items =>
      fold_right and True
        (map (fun kv => key_code_points (fst kv) /\ well_formed (snd kv)) items)
  | _ => True
  end.

(** A [str] of Unicode scalar values: code points that are not
    surrogates. *)
Definition scalar_values (s : pystr) : Prop :=
  Forall (fun c => (c < 55296 \/ 57343 < c < 1114112)%N) s.

Definition str_key (k : pykey) : Prop :=
  match k with KStr s => scalar_values s | _ => False end.

(** The documents [json.loads] can return: no tuple, and every [dict]
    keyed by distinct [str]. *)
Fixpoint json_native (obj : pyval) : Prop :=
  match obj with
  | PStr s => scalar_values s
  | PList items => fold_right and True (map json_native items)
  | PTuple _ => False
  | PDict items =>
      NoDup (map fst items)
      /\ fold_right and True
           (map (fun kv => str_key (fst kv) /\ json_native (snd kv)) items)
  | _ => True
  end.

(** The fuel [scan_once] needs on the text of a document. *)
Fixpoint weight (obj : pyval) : nat :=
  match obj with
  | PList items | PTuple items =>
      S (fold_right (fun w acc => S (w + acc)) O (map weight items))
  | PDict items =>
      S (fold_right (fun w acc => S (w + acc)) O
           (map (fun kv => weight (snd kv)) items))
  | _ => 1
  end.

End json.

(** ** [handlers.py] *)

Definition JobExecutionError (msg : string) : exn :=
  mkExn "JobExecutionError" msg.

(** [type(obj).__name__] *)
Definition type_name (obj : json.pyval) : string :=
  match obj with
  | json.PNone => "NoneType"
  | json.PBool _ => "bool"
  | json.PInt _ => "int"
  | json.PStr _ => "str"
  | json.PList _ => "list"
  | json.PTuple _ => "tuple"
  | json.PDict _ => "dict"
  end.

(** [bool(obj)] *)
Definition truthy (obj : json.pyval) : bool :=
  match obj with
  | json.PNone => false
  | json.PBool b => b
  | json.PInt n => negb (n =? 0)
  | json.PStr s => match s with [] => false | _ :: _ => true end
  | json.PList items | json.PTuple items =>
      match items with [] => false | _ :: _ => true end
  | json.PDict items => match items with [] => false | _ :: _ => true end
  end.

(** [d.get(key)] for a [str] key. *)
Fixpoint dict_get (key : json.pystr) (d : list (json.pykey * json.pyval))
  : option json.pyval :=
  match d with
  | [] => None
  | (json.KStr s, v) :: d' =>
      if json.pystr_eqb s key then Some v else dict_get key d'
  | _ :: d' => dict_get key d'
  end.

Section Handlers.

(** [print(f"[print_message] {msg}")] for the value of [msg]: the
    exception it raises, if any.  The text that is written and what the
    standard output does with it are not modelled. *)
Variable print_message : json.pyval -> option exn.

Definition print_message_handler (payload : json.pyval) : option exn :=
  match payload with
  | json.PDict d =>
      let fail :=
        match dict_get (json.codes "fail") d with
        | Some v => truthy v
        | None => false
        end in
      if fail then
        Some (JobExecutionError "Simulated failure in print_message_handler")
      else
        let msg :=
          match dict_get (json.codes "msg") d with
          | Some v => v
          | None => json.PStr (json.codes "<no message>")
          end in
        print_message msg
  | other =>
      Some (mkExn "AttributeError"
              ("'" ++ type_name other ++ "' object has no attribute 'get'"))
  end.

(** [HANDLERS.get(job_type)] *)
Definition HANDLERS (job_type : string) : option (Handler json.pyval) :=
  if String.eqb job_type "print_message" then Some print_message_handler
  else None.

End Handlers.

(** ** The [json] module on the [payload] column

    The column holds the text [json.dumps] returned.  The text of a
    [JSONDecodeError] is not modelled; the worker does not read it.  A text
    that decodes to a document with a float is outside the documents of
    this model, and is reported by an exception of its own. *)

Definition json_dumps (obj : json.pyval) : result string :=
  Ok (json.text_of_codes (json.dumps obj)).

Definition json_loads (s : string) : result json.pyval :=
  match json.loads (json.codes s) with
  | json.Doc obj => Ok obj
  | json.Invalid => Raise (mkExn "JSONDecodeError" "")
  | json.HasFloat => Raise (mkExn "FloatNotModelled" "")
  end.

(** A standard output that takes every message. *)
Definition print_ok (msg : json.pyval) : option exn := None.

Import json.

(** ** Predicates of the statements *)

(** [id INTEGER PRIMARY KEY AUTOINCREMENT] *)
Definition primary_key (s : Store) : Prop :=
  NoDup (map id (rows s)) /\ Forall (fun r => 1 <= id r <= seq s) (rows s)
  /\ 0 <= seq s.

Definition keeps_id (f : Job -> Job) : Prop := forall r, id (f r) = id r.

(** The columns no transition writes. *)
Definition same_identity (r r' : Job) : Prop :=
  id r' = id r /\ type r' = type r /\ payload r' = payload r
  /\ max_attempts r' = max_attempts r /\ created_at r' = created_at r.

(** Row by row: the columns above are kept, and a row of another id is
    the same row. *)
Definition frame (job_id : Z) (s s' : Store) : Prop :=
  seq s' = seq s
  /\ Forall2 (fun r r' => same_identity r r' /\ (id r <> job_id -> r' = r))
       (rows s) (rows s').

Definition sample_job (i : Z) (st : Status) (n m : Z) (a : datetime) : Job :=
  mkJob i "print_message" "{}" st n m a None 0 0.

Definition sample_store : Store :=
  mkStore [sample_job 1 running 0 3 0; sample_job 2 pending 0 3 50;
           sample_job 3 pending 1 3 7; sample_job 4 pending 0 3 2] 4.

(** The delay of the backoff branch, in seconds. *)
Definition backoff (base_delay new_attempts : Z) : Z :=
  base_delay * 2 ^ (new_attempts - 1).

(** 2025-01-01T00:00:00, ordinal 739252. *)
Definition utc_2025 : datetime := 739251 * 86400 * 1000000.

Definition running_sample : Store := mkStore [sample_job 1 running 0 3 0] 1.


Definition keeps_limit (f : Job -> Job) : Prop :=
  forall r, max_attempts (f r) = max_attempts r.

Definition held_row (s : Store) (h : Job) : Prop :=
  exists r, get_job (id h) s = Some r /\ status r = running
            /\ attempts r = attempts h /\ max_attempts r = max_attempts h.

Record invariant (sys : System) : Prop := mkInvariant {
  inv_key : primary_key (db sys);
  inv_below : Forall attempts_below_limit (rows (db sys));
  inv_limit : Forall (fun r => 1 <= max_attempts r) (rows (db sys));
  inv_held_ids : NoDup (map id (held sys));
  inv_held : Forall (held_row (db sys)) (held sys)
}.

(** ** Predicates of the statements about [json] *)

Section JsonPredicates.

Local Open Scope list_scope.

(** The text after a value in the output of [json.dumps]: nothing, a
    comma, or a closing bracket. *)
Definition delimited (rest : list N) : Prop :=
  match rest with
  | [] => True
  | c :: _ => c = 44%N \/ c = 93%N \/ c = 125%N
  end.

Definition prepend (c : N) (r : option (pystr * list N)) : option (pystr * list N) :=
  match r with
  | Some (s, rest) => Some (c :: s, rest)
  | None => None
  end.

(** The four shapes of [escape_char]. *)
Inductive escape_shape (c : N) : Prop :=
| shape_short (x : N) :
    escape_char c = [92%N; x] -> simple_escape x = Some c -> x <> 117%N ->
    is_high_surrogate c = false -> is_low_surrogate c = false -> escape_shape c
| shape_plain :
    escape_char c = [c] -> c <> 34%N -> c <> 92%N -> (32 <= c)%N ->
    is_high_surrogate c = false -> is_low_surrogate c = false -> escape_shape c
| shape_u :
    escape_char c = 92%N :: 117%N :: hex4 c -> (c < 65536)%N -> escape_shape c
| shape_pair (hi lo : N) :
    escape_char c = (92%N :: 117%N :: hex4 hi) ++ (92%N :: 117%N :: hex4 lo) ->
    (hi < 65536)%N -> (lo < 65536)%N ->
    is_high_surrogate hi = true -> is_low_surrogate lo = true ->
    join_surrogates hi lo = c ->
    is_high_surrogate c = false -> is_low_surrogate c = false -> escape_shape c.

(** What follows a high surrogate: a low surrogate written as an escape
    joins it. *)
Definition lookahead (fuel : nat) (hi : N) (t : list N)
  : option (pystr * list N) :=
  match t with
  | b :: u :: t3 =>
      if ((b =? 92) && (u =? 117))%N then
        match parse_hex4 t3 with
        | None => None
        | Some (uni2, t4) =>
            if is_low_surrogate uni2
            then prepend (join_surrogates hi uni2) (scan_chars fuel t4)
            else prepend hi (scan_chars fuel t)
        end
      else prepend hi (scan_chars fuel t)
  | _ => prepend hi (scan_chars fuel t)
  end.

(** The first character of the text of a document. *)
Definition opens_value (c : N) : Prop :=
  is_ws c = false /\ c <> 93%N /\ c <> 125%N /\ c <> 44%N.

Definition items_weight (ws : list nat) : nat :=
  fold_right (fun w acc => S (w + acc)) O ws.

Definition decodes (obj : pyval) : Prop :=
  forall fuel rest,
    (weight obj <= fuel)%nat -> delimited rest ->
    scan_once fuel (dumps obj ++ rest) = Some (norm obj, false, rest).

Definition pair_text (kv : pykey * pyval) : list N :=
  encode_basestring_ascii (key_text (fst kv)) ++ codes ": " ++ dumps (snd kv).

Definition pair_norm (kv : pykey * pyval) : pystr * pyval :=
  (merge_surrogates (key_text (fst kv)), norm (snd kv)).

Definition ascii_text (l : list N) : Prop := Forall (fun c => (c < 128)%N) l.

End JsonPredicates.

(** ** Sample data *)

Definition failing_payload : pyval :=
  PDict [(KStr (codes "fail"), PBool true)].


Definition list_payload : pyval :=
  PDict [(KStr (codes "a"), PList [PInt 1])].

(** A clock that starts on 2025-01-01 and advances by one second at each
    reading. *)
Definition clock_2025 (k : nat) : datetime := utc_2025 + Z.of_nat k * 1000000.

(** The calls on one table with the [json] module, the registry of
    [handlers.py] and a standard output that takes every message. *)
Definition queue_op : Type := op pyval.

Definition queue_step : System -> queue_op -> System :=
  step pyval json_dumps json_loads (HANDLERS print_ok).

Definition queue_run : list queue_op -> System :=
  run pyval json_dumps json_loads (HANDLERS print_ok).

Definition queue_failure_path : System -> queue_op -> Z -> bool :=
  failure_path pyval json_loads (HANDLERS print_ok).

Definition queue_worker_iteration
  : Z -> (nat -> datetime) -> Store -> list (event pyval) * result unit * Store :=
  worker_iteration pyval json_loads (HANDLERS print_ok).

Definition queue_run_worker
  : nat -> Z -> (nat -> datetime) -> Store
    -> list (event pyval) * result unit * Store :=
  run_worker pyval json_loads (HANDLERS print_ok).

(** [enqueue_job(job_type, payload, max_attempts)] on the empty table, at
    the first instant of 2025. *)
Definition enqueue_sample (job_type : string) (payload : pyval)
    (max_attempts : Z) : queue_op :=
  Enqueue pyval job_type payload max_attempts None utc_2025 utc_2025 utc_2025.

(** The row that call creates. *)
Definition enqueued_sample (job_type : string) (payload : pyval)
    (max_attempts : Z) : Job :=
  mkJob 1 job_type (text_of_codes (dumps payload)) pending 0 max_attempts
        utc_2025 None utc_2025 utc_2025.


Definition sample_run : list queue_op :=
  [enqueue_sample "print_message" failing_payload 2;
   Claim pyval (clock_2025 1) (clock_2025 2);
   Resolve pyval 0 5 (clock_2025 3) (clock_2025 4);
   Claim pyval (clock_2025 9) (clock_2025 10)].

(** A job with a limit of one is claimed; its handler raises. *)
Definition one_shot : list queue_op :=
  [enqueue_sample "print_message" failing_payload 1;
   Claim pyval (clock_2025 1) (clock_2025 2)].

Definition one_shot_end : queue_op :=
  Resolve pyval 0 5 (clock_2025 3) (clock_2025 4).


Definition failing_store : Store :=
  mkStore [enqueued_sample "print_message" failing_payload 3] 1.

Definition one_ready : Store :=
  mkStore [enqueued_sample "print_message" failing_payload 3] 1.

(** ** [list_jobs] *)

(** [ORDER BY id DESC] over the selected rows. *)
Fixpoint insert_by_id_desc (r : Job) (l : list Job) : list Job :=
  match l with
  | [] => [r]
  | x :: rest =>
      if id x <=? id r then r :: l else x :: insert_by_id_desc r rest
  end.

Definition order_by_id_desc (l : list Job) : list Job :=
  fold_right insert_by_id_desc [] l.

(** [list_jobs(status)]: [if status:] is false for [None] and for the
    empty string, and both list the whole table. *)
Definition list_jobs (status_arg : option string) (s : Store) : list Job :=
  match status_arg with
  | None | Some EmptyString => order_by_id_desc (rows s)
  | Some st =>
      order_by_id_desc
        (filter (fun r => String.eqb (status_text (status r)) st) (rows s))
  end.

(** The rows [list_jobs] is asked for. *)
Definition listed (status_arg : option string) (r : Job) : bool :=
  match status_arg with
  | None => true
  | Some st => String.eqb st "" || String.eqb (status_text (status r)) st
  end.

(** ** [cli.py] *)

Module cli.


Section Commands.

Variable document : Type.
Variable json_dumps : document -> result string.
Variable json_loads : string -> result document.


End Commands.


End cli.

(** ** Predicates of the statements about runs *)

(** What the calls record on a row: the status [failed] of the schema is
    never written, the attempt count is not negative, and a row that has
    failed once or is in [dlq] carries the text of an error. *)
Definition row_recorded (r : Job) : Prop :=
  status r <> failed /\ 0 <= attempts r
  /\ (1 <= attempts r \/ status r = dlq -> last_error r <> None).

Record lifecycle (sys : System) : Prop := mkLifecycle {
  life_key : primary_key (db sys);
  life_rows : Forall row_recorded (rows (db sys));
  life_held_ids : NoDup (map id (held sys));
  life_held : Forall (held_row (db sys)) (held sys)
}.

(** The updates a worker's turn can end with. *)
Inductive turn_update (h : Job) (t2 t3 : datetime) : (Job -> Job) -> Prop :=
| turn_dlq (m : string) : turn_update h t2 t3 (set_dlq m t2)
| turn_completed : turn_update h t2 t3 (set_completed t2)
| turn_exhausted (m : string) :
    max_attempts h <= attempts h + 1 ->
    turn_update h t2 t3 (set_exhausted (attempts h + 1) m t3)
| turn_rescheduled (m : string) (a : datetime) :
    attempts h + 1 < max_attempts h ->
    turn_update h t2 t3 (set_rescheduled (attempts h + 1) a m t3).




(** A job whose handler returns is enqueued, claimed and run. *)
Definition completed_run : list queue_op :=
  [enqueue_sample "print_message" list_payload 3;
   Claim pyval (clock_2025 1) (clock_2025 2);
   Resolve pyval 0 5 (clock_2025 3) (clock_2025 4)].

Definition completed_sample : Job :=
  set_completed (clock_2025 3)
    (set_running (clock_2025 2)
       (enqueued_sample "print_message" list_payload 3)).

Definition later_calls : list queue_op :=
  [Claim pyval (clock_2025 5) (clock_2025 6);
   Retry pyval 1 (clock_2025 7) (clock_2025 8);
   enqueue_sample "print_message" failing_payload 3;
   Resolve pyval 0 5 (clock_2025 9) (clock_2025 10)].

(** The row of [one_shot] as claimed, and as its failure leaves it. *)
Definition claimed_sample : Job :=
  set_running (clock_2025 2) (enqueued_sample "print_message" failing_payload 1).

Definition exhausted_sample : Job :=
  set_exhausted 1 "JobExecutionError: Simulated failure in print_message_handler"
    (clock_2025 4) claimed_sample.

Definition retry_sample : queue_op :=
  Retry pyval 1 (clock_2025 5) (clock_2025 6).

Definition six_readings : list (datetime * datetime) :=
  [(clock_2025 1, clock_2025 2); (clock_2025 3, clock_2025 4);
   (clock_2025 5, clock_2025 6)].

Definition ready_list_store : Store :=
  mkStore [enqueued_sample "print_message" list_payload 3] 1.

(** ** Predicates of the statements about a job that always fails *)

(** The text [run_worker] makes of an exception. *)
Definition error_text (exc : exn) : string := exc_name exc ++ ": " ++ exc_str exc.

(** [r] is the only pending row of [s]. *)
Definition only_pending (r : Job) (s : Store) : Prop :=
  In r (rows s) /\ status r = pending
  /\ forall x, In x (rows s) -> status x = pending -> x = r.

(** The clock over [n] turns that each claim the job: at every failure
    but the last, the time of the next attempt is a [datetime], and the
    next turn starts when it has come. *)
Definition backoff_schedule (clk : nat -> datetime) (base_delay attempts0 : Z)
    (n : nat) : Prop :=
  forall j : nat, (j + 1 < n)%nat ->
    let now := clk (4 * j + 2)%nat in
    let next := now + backoff base_delay (attempts0 + Z.of_nat j + 1) * 1000000 in
    datetime_ok now /\ datetime_ok next /\ next <= clk (4 * (j + 1))%nat.

(** ** Predicates of the statements about decoded documents *)

Section DecodedPredicates.

Local Open Scope list_scope.

(** A text with no surrogate in it and nothing above them; every text of
    8-bit characters is one. *)
Definition plain_text (l : list N) : Prop := Forall (fun c => (c < 55296)%N) l.

(** A [str] of code points in which no high surrogate is followed by a
    low one. *)
Fixpoint unpaired (s : pystr) : Prop :=
  match s with
  | [] => True
  | c :: rest =>
      (c < 1114112)%N
      /\ (is_high_surrogate c = true ->
          match rest with
          | lo :: _ => is_low_surrogate lo = false
          | [] => True
          end)
      /\ unpaired rest
  end.

Definition unpaired_key (k : pykey) : Prop :=
  match k with KStr s => unpaired s | _ => False end.

(** The documents that come back from their own text: no tuple, every
    [dict] keyed by distinct [str], and no surrogate pair left apart. *)
Fixpoint stable (obj : pyval) : Prop :=
  match obj with
  | PStr s => unpaired s
  | PList items => fold_right and True (map stable items)
  | PTuple _ => False
  | PDict items =>
      NoDup (map fst items)
      /\ fold_right and True
           (map (fun kv => unpaired_key (fst kv) /\ stable (snd kv)) items)
  | _ => True
  end.

Definition stable_pair (kv : pystr * pyval) : Prop :=
  unpaired (fst kv) /\ stable (snd kv).

Definition stable_item (kv : pykey * pyval) : Prop :=
  unpaired_key (fst kv) /\ stable (snd kv).

End DecodedPredicates.

(** ** More sample data *)

Definition two_items : pyval := PList [PInt 1; PInt 2].



(** A job that another caller has completed while this one held it. *)
Definition completed_elsewhere : Store := mkStore [sample_job 1 completed 0 3 0] 1.

(** * Properties *)

(** ** The table: primary key, lookup and update *)

Lemma status_eqb_eq a b : status_eqb a b = true <-> a = b.
Proof. destruct a, b; simpl; split; congruence. Qed.

Lemma keeps_id_set_running t : keeps_id (set_running t).
Proof. intro r; reflexivity. Qed.

Lemma keeps_id_set_completed t : keeps_id (set_completed t).
Proof. intro r; reflexivity. Qed.

Lemma keeps_id_set_dlq m t : keeps_id (set_dlq m t).
Proof. intro r; reflexivity. Qed.

Lemma keeps_id_set_exhausted n m t : keeps_id (set_exhausted n m t).
Proof. intro r; reflexivity. Qed.

Lemma keeps_id_set_rescheduled n a m t : keeps_id (set_rescheduled n a m t).
Proof. intro r; reflexivity. Qed.

Lemma keeps_id_set_requeued now t : keeps_id (set_requeued now t).
Proof. intro r; reflexivity. Qed.

Create HintDb store.

#[local] Hint Resolve keeps_id_set_running keeps_id_set_completed
  keeps_id_set_dlq keeps_id_set_exhausted keeps_id_set_rescheduled
  keeps_id_set_requeued : store.

Lemma map_id_update job_id f s :
  keeps_id f -> map id (rows (update_where_id job_id f s)) = map id (rows s).
Proof.
  intros Hf. unfold update_where_id; simpl.
  rewrite map_map. apply map_ext. intro r.
  destruct (id r =? job_id); [apply Hf | reflexivity].
Qed.

Lemma get_job_update k job_id f s :
  keeps_id f ->
  get_job k (update_where_id job_id f s)
  = if k =? job_id then option_map f (get_job k s) else get_job k s.
Proof.
  intros Hf. unfold get_job, update_where_id; simpl.
  induction (rows s) as [|r l IH]; simpl.
  - destruct (k =? job_id); reflexivity.
  - destruct (id r =? job_id) eqn:Hr.
    + rewrite Hf. destruct (id r =? k) eqn:Hk.
      * apply Z.eqb_eq in Hr, Hk. subst.
        rewrite Z.eqb_refl. reflexivity.
      * exact IH.
    + destruct (id r =? k) eqn:Hk.
      * apply Z.eqb_eq in Hk. subst k. rewrite Hr. reflexivity.
      * exact IH.
Qed.

Lemma get_job_In k s r : get_job k s = Some r -> In r (rows s) /\ id r = k.
Proof.
  unfold get_job. intro H. apply find_some in H.
  destruct H as [H1 H2]. apply Z.eqb_eq in H2. auto.
Qed.

Lemma In_get_job s r :
  NoDup (map id (rows s)) -> In r (rows s) -> get_job (id r) s = Some r.
Proof.
  unfold get_job. induction (rows s) as [|x l IH]; simpl; intros Hnd Hin.
  - contradiction.
  - inversion Hnd as [|? ? Hx Hl]; subst.
    destruct Hin as [->|Hin].
    + rewrite Z.eqb_refl. reflexivity.
    + destruct (id x =? id r) eqn:E.
      * apply Z.eqb_eq in E. exfalso. apply Hx. rewrite E.
        apply in_map. exact Hin.
      * apply IH; assumption.
Qed.

Lemma primary_key_update job_id f s :
  keeps_id f -> primary_key s -> primary_key (update_where_id job_id f s).
Proof.
  intros Hf [Hnd [Hr Hq]]. split; [|split].
  - rewrite map_id_update; assumption.
  - unfold update_where_id; simpl. rewrite Forall_map.
    eapply Forall_impl; [|exact Hr]. simpl. intros r H.
    destruct (id r =? job_id); [rewrite Hf|]; exact H.
  - exact Hq.
Qed.

Lemma primary_key_empty : primary_key empty_store.
Proof. split; [constructor|split; [constructor|simpl; lia]]. Qed.

(** ** The frame of the three transitions *)

Lemma frame_refl job_id s : frame job_id s s.
Proof.
  split; [reflexivity|].
  induction (rows s); constructor; auto.
  repeat split; auto.
Qed.

Lemma frame_update job_id f s :
  (forall r, same_identity r (f r)) -> frame job_id s (update_where_id job_id f s).
Proof.
  intros Hf. split; [reflexivity|].
  unfold update_where_id; simpl.
  induction (rows s) as [|r l IH]; simpl; constructor; auto.
  destruct (id r =? job_id) eqn:E.
  - split; [apply Hf|]. apply Z.eqb_eq in E. intro; contradiction.
  - split; [repeat split|]; reflexivity.
Qed.

(** C10: [mark_job_completed], [move_job_to_dlq] and [handle_job_failure]
    leave [id], [type], [payload], [max_attempts] and [created_at] of every
    row as they were, leave every row whose id is not the one given as it
    was, and add or remove no row. *)
Theorem transitions_frame :
  forall (job : Job) (job_id : Z) (error_message : string) (base_delay : Z)
         (now t : datetime) (s : Store),
    frame job_id s (mark_job_completed job_id t s)
    /\ frame job_id s (move_job_to_dlq job_id error_message t s)
    /\ frame (id job) s
         (snd (handle_job_failure job error_message base_delay now t s)).
Proof.
  intros. split; [|split].
  - apply frame_update. intro r; repeat split.
  - apply frame_update. intro r; repeat split.
  - unfold handle_job_failure.
    destruct (attempts job + 1 >=? max_attempts job).
    + apply frame_update. intro r; repeat split.
    + destruct (timedelta _); [|apply frame_refl].
      destruct (datetime_add _ _); [|apply frame_refl].
      apply frame_update. intro r; repeat split.
Qed.

(** ** The claim *)

Lemma order_by_id_limit_1_none l : order_by_id_limit_1 l = None -> l = [].
Proof.
  destruct l as [|r l]; simpl; [reflexivity|].
  destruct (order_by_id_limit_1 l) as [m|]; [|discriminate].
  destruct (id r <=? id m); discriminate.
Qed.

Lemma order_by_id_limit_1_least l m :
  order_by_id_limit_1 l = Some m ->
  In m l /\ forall r, In r l -> id m <= id r.
Proof.
  revert m. induction l as [|x l IH]; simpl; intros m H; [discriminate|].
  destruct (order_by_id_limit_1 l) as [m'|] eqn:E.
  - destruct (IH m' eq_refl) as [Hin Hle].
    destruct (id x <=? id m') eqn:C; inversion H; subst; clear H.
    + apply Z.leb_le in C. split; [left; reflexivity|].
      intros r [->|Hr]; [lia|]. specialize (Hle r Hr). lia.
    + apply Z.leb_gt in C. split; [right; exact Hin|].
      intros r [->|Hr]; [lia|]. apply Hle; exact Hr.
  - inversion H; subst; clear H.
    apply order_by_id_limit_1_none in E. subst l.
    split; [left; reflexivity|]. intros r [->|[]]. lia.
Qed.

Lemma ready_spec now r :
  ready now r = true <-> status r = pending /\ available_at r <= now.
Proof.
  unfold ready. rewrite andb_true_iff, status_eqb_eq, Z.leb_le. reflexivity.
Qed.

Lemma select_next_pending_none now s :
  select_next_pending now s = None ->
  forall r, In r (rows s) -> ready now r = false.
Proof.
  unfold select_next_pending. intros H r Hr.
  apply order_by_id_limit_1_none in H.
  destruct (ready now r) eqn:E; [|reflexivity].
  assert (Hin : In r (filter (ready now) (rows s)))
    by (apply filter_In; auto).
  rewrite H in Hin. contradiction.
Qed.

Lemma select_next_pending_some now s job :
  select_next_pending now s = Some job ->
  In job (rows s) /\ ready now job = true
  /\ forall r, In r (rows s) -> ready now r = true -> id job <= id r.
Proof.
  unfold select_next_pending. intros H.
  apply order_by_id_limit_1_least in H. destruct H as [Hin Hle].
  apply filter_In in Hin. destruct Hin as [Hin Hr].
  repeat split; auto.
  intros r Hr1 Hr2. apply Hle. apply filter_In. auto.
Qed.

Lemma same_id_same_row s r r' :
  NoDup (map id (rows s)) -> In r (rows s) -> In r' (rows s) ->
  id r = id r' -> r = r'.
Proof.
  intros Hnd Hr Hr' E.
  pose proof (In_get_job s r Hnd Hr) as H1.
  pose proof (In_get_job s r' Hnd Hr') as H2.
  rewrite E in H1. congruence.
Qed.

(** C6: at time [now], [get_next_pending_job] returns the row that is
    pending with [available_at <= now] and whose id is below the id of
    every other such row; it returns that row as it was read, and in the
    table the row of that id has become [running] (with a new
    [updated_at]) while every other id is as before.  With no such row it
    returns nothing and the table is the same. *)
Theorem get_next_pending_job_claims_least :
  forall (now t : datetime) (s : Store),
    NoDup (map id (rows s)) ->
    match get_next_pending_job now t s with
    | (None, s') =>
        s' = s
        /\ forall r, In r (rows s) ->
                     ~ (status r = pending /\ available_at r <= now)
    | (Some job, s') =>
        In job (rows s)
        /\ status job = pending /\ available_at job <= now
        /\ (forall r, In r (rows s) -> status r = pending ->
                      available_at r <= now -> r <> job -> id job < id r)
        /\ get_job (id job) s' = Some (set_running t job)
        /\ status (set_running t job) = running
        /\ (forall k, k <> id job -> get_job k s' = get_job k s)
        /\ List.length (rows s') = List.length (rows s)
    end.
Proof.
  intros now t s Hnd. unfold get_next_pending_job.
  destruct (select_next_pending now s) as [job|] eqn:E.
  - apply select_next_pending_some in E. destruct E as [Hin [Hr Hle]].
    apply ready_spec in Hr. destruct Hr as [Hst Hav].
    repeat split; auto.
    + intros r Hr Hs Ha Hne.
      assert (id job <= id r) by (apply Hle; [|apply ready_spec]; auto).
      assert (id job <> id r).
      { intro Heq. apply Hne. symmetry.
        eapply same_id_same_row; eauto. }
      lia.
    + unfold mark_running. rewrite get_job_update by auto with store.
      rewrite Z.eqb_refl, (In_get_job s job Hnd Hin). reflexivity.
    + intros k Hk. unfold mark_running.
      rewrite get_job_update by auto with store.
      destruct (k =? id job) eqn:C; [|reflexivity].
      apply Z.eqb_eq in C. contradiction.
    + unfold mark_running, update_where_id; simpl. apply length_map.
  - split; [reflexivity|].
    intros r Hr Hc. apply ready_spec in Hc.
    rewrite (select_next_pending_none now s E r Hr) in Hc. discriminate.
Qed.

Lemma sample_store_primary_key : primary_key sample_store.
Proof.
  split; [|split].
  - simpl. repeat constructor; simpl; intuition lia.
  - repeat constructor; simpl; lia.
  - simpl; lia.
Qed.

Lemma get_next_pending_job_claims_least_witness :
  NoDup (map id (rows sample_store))
  /\ match get_next_pending_job 10 11 sample_store with
     | (None, s') =>
         s' = sample_store
         /\ forall r, In r (rows sample_store) ->
                      ~ (status r = pending /\ available_at r <= 10)
     | (Some job, s') =>
         In job (rows sample_store)
         /\ status job = pending /\ available_at job <= 10
         /\ (forall r, In r (rows sample_store) -> status r = pending ->
                       available_at r <= 10 -> r <> job -> id job < id r)
         /\ get_job (id job) s' = Some (set_running 11 job)
         /\ status (set_running 11 job) = running
         /\ (forall k, k <> id job -> get_job k s' = get_job k sample_store)
         /\ List.length (rows s') = List.length (rows sample_store)
     end.
Proof.
  split.
  - exact (proj1 sample_store_primary_key).
  - apply (get_next_pending_job_claims_least 10 11 sample_store).
    exact (proj1 sample_store_primary_key).
Defined.

(** ** The operator's retry *)


(** ** Failure handling *)

Lemma timedelta_in_range now seconds :
  datetime_ok now -> datetime_ok (now + seconds * 1000000) ->
  timedelta seconds = Ok (seconds * 1000000).
Proof.
  unfold datetime_ok, datetime_max, timedelta. intros Hn Hr.
  assert (Hs : -315537897600 <= seconds <= 315537897600) by lia.
  assert (Hd : -3652059 <= seconds / 86400 <= 3652059).
  { split.
    - apply Z.div_le_lower_bound; lia.
    - apply Z.div_le_upper_bound; lia. }
  destruct (Z.abs (seconds / 86400) <=? 999999999) eqn:C; [reflexivity|].
  apply Z.leb_gt in C. lia.
Qed.

Lemma datetime_add_in_range now delta :
  datetime_ok (now + delta) -> datetime_add now delta = Ok (now + delta).
Proof.
  unfold datetime_ok, datetime_add. intros [H1 H2].
  apply Z.leb_le in H1, H2. rewrite H1, H2. reflexivity.
Qed.




(** ** Routing errors *)

Lemma get_next_pending_job_some now t s job s1 :
  NoDup (map id (rows s)) ->
  get_next_pending_job now t s = (Some job, s1) ->
  In job (rows s) /\ status job = pending /\ available_at job <= now
  /\ s1 = mark_running t (id job) s
  /\ get_job (id job) s1 = Some (set_running t job).
Proof.
  intros Hnd. unfold get_next_pending_job.
  destruct (select_next_pending now s) as [row|] eqn:E; [|discriminate].
  intro H; inversion H; subst; clear H.
  apply select_next_pending_some in E. destruct E as [Hin [Hr _]].
  apply ready_spec in Hr. destruct Hr as [Hst Hav].
  repeat split; auto.
  unfold mark_running. rewrite get_job_update by auto with store.
  rewrite Z.eqb_refl, (In_get_job s job Hnd Hin). reflexivity.
Qed.

Section Routing.

Variable document : Type.
Variable json_loads : string -> result document.
Variable HANDLERS : string -> option (Handler document).


End Routing.

(** ** The invariant of the reachable tables *)

Lemma Forall_update (P : Job -> Prop) job_id f s :
  Forall P (rows s) ->
  (forall r, In r (rows s) -> id r = job_id -> P (f r)) ->
  Forall P (rows (update_where_id job_id f s)).
Proof.
  intros HP Hf. unfold update_where_id; simpl. rewrite Forall_map.
  rewrite Forall_forall in *. intros r Hr.
  destruct (id r =? job_id) eqn:E.
  - apply Hf; [exact Hr|]. apply Z.eqb_eq; exact E.
  - apply HP; exact Hr.
Qed.

Lemma limit_update job_id f s :
  keeps_limit f ->
  Forall (fun r => 1 <= max_attempts r) (rows s) ->
  Forall (fun r => 1 <= max_attempts r) (rows (update_where_id job_id f s)).
Proof.
  intros Hf H. apply Forall_update; [exact H|].
  intros r Hr _. rewrite Hf. rewrite Forall_forall in H. apply H; exact Hr.
Qed.

Lemma held_row_update job_id f s h :
  keeps_id f -> id h <> job_id -> held_row s h ->
  held_row (update_where_id job_id f s) h.
Proof.
  intros Hf Hne [r [Hg Hr]]. exists r. split; [|exact Hr].
  rewrite get_job_update by exact Hf.
  destruct (id h =? job_id) eqn:E; [|exact Hg].
  apply Z.eqb_eq in E. contradiction.
Qed.

Lemma In_remove_nth {A : Type} (k : nat) (l : list A) x :
  In x (remove_nth k l) -> In x l.
Proof.
  revert k. induction l as [|y l IH]; intros [|k]; simpl; auto.
  intros [->|H]; [left; reflexivity|right; eapply IH; exact H].
Qed.

Lemma NoDup_remove_nth (k : nat) (l : list Job) :
  NoDup (map id l) -> NoDup (map id (remove_nth k l)).
Proof.
  revert k. induction l as [|y l IH]; intros [|k]; simpl; intro H; auto.
  - inversion H; assumption.
  - inversion H as [|? ? Hy Hl]; subst. constructor; [|apply IH; exact Hl].
    intro Hin. apply Hy. apply in_map_iff in Hin.
    destruct Hin as [x [Hx Hin]]. apply in_map_iff. exists x.
    split; [exact Hx|]. eapply In_remove_nth; exact Hin.
Qed.

Lemma remove_nth_other_id (k : nat) (l : list Job) h x :
  NoDup (map id l) -> nth_error l k = Some h -> In x (remove_nth k l) ->
  id x <> id h.
Proof.
  revert k. induction l as [|y l IH]; intros [|k]; simpl; intros Hnd Hk Hin;
    try discriminate.
  - inversion Hk; subst. inversion Hnd as [|? ? Hy _]; subst.
    intro E. apply Hy. rewrite <- E. apply in_map. exact Hin.
  - inversion Hnd as [|? ? Hy Hl]; subst. destruct Hin as [->|Hin].
    + intro E. apply Hy. rewrite E. apply in_map.
      eapply nth_error_In; exact Hk.
    + eapply IH; eauto.
Qed.

Lemma get_job_snoc k l x q q' r :
  get_job k (mkStore l q) = Some r -> get_job k (mkStore (l ++ [x]) q') = Some r.
Proof.
  unfold get_job; simpl. induction l as [|y l IH]; simpl; [discriminate|].
  destruct (id y =? k); auto.
Qed.

Lemma held_row_running_not_pending s h job :
  NoDup (map id (rows s)) -> held_row s h -> In job (rows s) ->
  status job = pending -> id h <> id job.
Proof.
  intros Hnd [r [Hg [Hs _]]] Hin Hp E.
  rewrite E, (In_get_job s job Hnd Hin) in Hg. inversion Hg; subst.
  congruence.
Qed.

Lemma held_row_limit s h r :
  NoDup (map id (rows s)) -> held_row s h -> In r (rows s) -> id r = id h ->
  status r = running /\ attempts r = attempts h
  /\ max_attempts r = max_attempts h.
Proof.
  intros Hnd [r0 [Hg Hr0]] Hin E.
  rewrite <- E, (In_get_job s r Hnd Hin) in Hg. inversion Hg; subst.
  exact Hr0.
Qed.

Section Reachable.

Variable document : Type.
Variable json_dumps : document -> result string.
Variable json_loads : string -> result document.
Variable HANDLERS : string -> option (Handler document).

#[warnings="-notation-for-abbreviation"] Notation process_job := (process_job document json_loads HANDLERS).
#[warnings="-notation-for-abbreviation"] Notation step := (step document json_dumps json_loads HANDLERS).
#[warnings="-notation-for-abbreviation"] Notation run := (run document json_dumps json_loads HANDLERS).
#[warnings="-notation-for-abbreviation"] Notation failure_path := (failure_path document json_loads HANDLERS).

(** What the end of a worker's turn does to the table: nothing, or one
    update of the rows of the held id. *)
Lemma process_job_store base_delay t2 t3 h s :
  snd (process_job base_delay t2 t3 h s) = s
  \/ exists f,
       keeps_id f /\ keeps_limit f
       /\ snd (process_job base_delay t2 t3 h s) = update_where_id (id h) f s
       /\ forall r, attempts h < max_attempts r -> max_attempts r = max_attempts h ->
                    attempts_below_limit (f r).
Proof.
  unfold process_job.
  destruct (json_loads (payload h)) as [d|e].
  - destruct (HANDLERS (type h)) as [handler|].
    + destruct (handler d) as [exc|].
      * unfold handle_job_failure.
        destruct (attempts h + 1 >=? max_attempts h) eqn:C; simpl.
        -- right. eexists. split; [|split; [|split; [reflexivity|]]].
           ++ apply keeps_id_set_exhausted.
           ++ intro r; reflexivity.
           ++ intros r _ _ [H|H]; discriminate.
        -- destruct (timedelta _); [|left; reflexivity].
           destruct (datetime_add _ _); [|left; reflexivity].
           right. eexists. split; [|split; [|split; [reflexivity|]]].
           ++ apply keeps_id_set_rescheduled.
           ++ intro r; reflexivity.
           ++ intros r _ Hm _. simpl.
              rewrite Z.geb_leb in C. apply Z.leb_gt in C. lia.
      * right. eexists. split; [|split; [|split; [reflexivity|]]].
        -- apply keeps_id_set_completed.
        -- intro r; reflexivity.
        -- intros r _ _ [H|H]; discriminate.
    + right. eexists. split; [|split; [|split; [reflexivity|]]].
      * apply keeps_id_set_dlq.
      * intro r; reflexivity.
      * intros r _ _ [H|H]; discriminate.
  - destruct (is_JSONDecodeError e); [|left; reflexivity].
    right. eexists. split; [|split; [|split; [reflexivity|]]].
    + apply keeps_id_set_dlq.
    + intro r; reflexivity.
    + intros r _ _ [H|H]; discriminate.
Qed.

Lemma invariant_init : invariant init.
Proof.
  constructor; simpl.
  - apply primary_key_empty.
  - constructor.
  - constructor.
  - constructor.
  - constructor.
Qed.

Lemma enqueue_invariant sys job_type payload max_attempts available_at t0 t1 t2 :
  1 <= max_attempts -> invariant sys ->
  invariant (step sys (Enqueue document job_type payload max_attempts
                         available_at t0 t1 t2)).
Proof.
  intros Hpos [Hkey Hbelow Hlimit Hids Hheld].
  pose proof Hkey as [Hnd [Hrange Hseq]].
  unfold step, enqueue_job.
  destruct (json_dumps payload) as [text|e]; simpl.
  2:{ constructor; assumption. }
  constructor; simpl.
  - split; [|split]; simpl.
    + rewrite map_app; simpl. apply NoDup_app; [exact Hnd| |].
      { repeat constructor; simpl; tauto. }
      intros k Hk [<-|[]]. apply in_map_iff in Hk.
      destruct Hk as [r [E Hr]]. rewrite Forall_forall in Hrange.
      specialize (Hrange r Hr). lia.
    + apply Forall_app. split.
      * eapply Forall_impl; [|exact Hrange]. simpl; intros; lia.
      * repeat constructor; simpl; lia.
    + lia.
  - apply Forall_app. split; [exact Hbelow|].
    repeat constructor. intros _. simpl. lia.
  - apply Forall_app. split; [exact Hlimit|]. repeat constructor. exact Hpos.
  - exact Hids.
  - eapply Forall_impl; [|exact Hheld].
    intros h [r [Hg Hr]]. exists r. split; [|exact Hr].
    destruct (db sys) as [l q]. eapply get_job_snoc. exact Hg.
Qed.

Lemma claim_invariant sys now t :
  invariant sys -> invariant (step sys (Claim document now t)).
Proof.
  intros [Hkey Hbelow Hlimit Hids Hheld].
  pose proof Hkey as [Hnd _].
  unfold step.
  destruct (get_next_pending_job now t (db sys)) as [[job|] s1] eqn:E.
  2:{ unfold get_next_pending_job in E.
      destruct (select_next_pending now (db sys)); inversion E; subst.
      constructor; assumption. }
  destruct (get_next_pending_job_some _ _ _ _ _ Hnd E)
    as [Hin [Hst [_ [-> Hget]]]].
  assert (Hfresh : forall h, In h (held sys) -> id h <> id job).
  { intros h Hh. rewrite Forall_forall in Hheld.
    apply (held_row_running_not_pending (db sys) h job Hnd (Hheld h Hh) Hin Hst). }
  unfold mark_running. constructor; simpl.
  - apply primary_key_update; auto with store.
  - apply Forall_update; [exact Hbelow|].
    intros r Hr E' _. simpl. rewrite Forall_forall in Hbelow.
    assert (r = job) by (eapply same_id_same_row; eauto).
    subst r. apply Hbelow; auto.
  - apply limit_update; [intro r; reflexivity|exact Hlimit].
  - rewrite map_app; simpl. apply NoDup_app; [exact Hids| |].
    { repeat constructor; simpl; tauto. }
    intros k Hk [<-|[]]. apply in_map_iff in Hk.
    destruct Hk as [h [E' Hh]]. apply (Hfresh h Hh). exact E'.
  - apply Forall_app. split.
    + rewrite Forall_forall in *. intros h Hh.
      apply held_row_update; auto with store.
    + repeat constructor. exists (set_running t job).
      split; [exact Hget|]. simpl. auto.
Qed.

Lemma resolve_invariant sys k base_delay t2 t3 :
  invariant sys -> invariant (step sys (Resolve document k base_delay t2 t3)).
Proof.
  intros [Hkey Hbelow Hlimit Hids Hheld].
  pose proof Hkey as [Hnd _].
  unfold step.
  destruct (nth_error (held sys) k) as [h|] eqn:Hk.
  2:{ constructor; assumption. }
  assert (Hh : held_row (db sys) h).
  { rewrite Forall_forall in Hheld. apply Hheld.
    eapply nth_error_In; exact Hk. }
  assert (Hrest : Forall (held_row (db sys)) (remove_nth k (held sys))).
  { rewrite Forall_forall in *. intros x Hx. apply Hheld.
    eapply In_remove_nth; exact Hx. }
  destruct (process_job_store base_delay t2 t3 h (db sys))
    as [-> | [f [Hid [Hlim [-> Hf]]]]].
  - constructor; simpl; try assumption.
    apply NoDup_remove_nth; exact Hids.
  - constructor; simpl.
    + apply primary_key_update; assumption.
    + apply Forall_update; [exact Hbelow|].
      intros r Hr E.
      destruct (held_row_limit _ _ _ Hnd Hh Hr E) as [Hs [Ha Hm]].
      apply Hf; [|exact Hm].
      rewrite Forall_forall in Hbelow. specialize (Hbelow r Hr).
      rewrite <- Ha. apply Hbelow. right; exact Hs.
    + apply limit_update; assumption.
    + apply NoDup_remove_nth; exact Hids.
    + rewrite Forall_forall in *. intros x Hx.
      apply held_row_update; [exact Hid| |apply Hrest; exact Hx].
      apply (remove_nth_other_id k (held sys) h x Hids Hk Hx).
Qed.

Lemma retry_invariant sys job_id now t :
  invariant sys -> invariant (step sys (Retry document job_id now t)).
Proof.
  intros [Hkey Hbelow Hlimit Hids Hheld].
  pose proof Hkey as [Hnd _].
  unfold step, retry_dlq_job.
  destruct (get_job job_id (db sys)) as [job|] eqn:E; simpl.
  2:{ constructor; assumption. }
  destruct (status_eqb (status job) dlq) eqn:St; simpl.
  2:{ constructor; assumption. }
  apply status_eqb_eq in St.
  destruct (get_job_In _ _ _ E) as [Hin Hjid].
  constructor; simpl.
  - apply primary_key_update; auto with store.
  - apply Forall_update; [exact Hbelow|].
    intros r Hr _ _. simpl. rewrite Forall_forall in Hlimit.
    specialize (Hlimit r Hr). lia.
  - apply limit_update; [intro r; reflexivity|exact Hlimit].
  - exact Hids.
  - rewrite Forall_forall in *. intros h Hh.
    apply held_row_update; auto with store.
    intro Eh. destruct (Hheld h Hh) as [r [Hg [Hs _]]].
    rewrite Eh, E in Hg. inversion Hg; subst. congruence.
Qed.

Lemma step_invariant sys o :
  positive_limit document o -> invariant sys -> invariant (step sys o).
Proof.
  destruct o; simpl; intros Hpos Hinv.
  - apply enqueue_invariant; assumption.
  - apply claim_invariant; assumption.
  - apply resolve_invariant; assumption.
  - apply retry_invariant; assumption.
Qed.

Lemma fold_invariant ops sys :
  Forall (positive_limit document) ops -> invariant sys ->
  invariant (fold_left step ops sys).
Proof.
  revert sys. induction ops as [|o ops IH]; simpl; intros sys Hpos Hinv.
  - exact Hinv.
  - inversion Hpos; subst. apply IH; [assumption|].
    apply step_invariant; assumption.
Qed.

Lemma run_invariant ops :
  Forall (positive_limit document) ops -> invariant (run ops).
Proof. intro H. apply fold_invariant; [exact H|apply invariant_init]. Qed.

(** C2, for limits of at least one: after any sequence of calls of
    [enqueue_job], [get_next_pending_job], the end of a worker's turn
    and [retry_dlq_job] in which every [enqueue_job] is given
    [max_attempts >= 1], every row that is pending or running has
    [attempts < max_attempts]. *)
Theorem attempts_below_limit_reachable :
  forall ops : list (op document),
    Forall (positive_limit document) ops ->
    Forall attempts_below_limit (rows (db (run ops))).
Proof. intros ops H. apply (inv_below _ (run_invariant ops H)). Qed.

Lemma get_next_pending_job_store now t s :
  snd (get_next_pending_job now t s) = s
  \/ exists job, snd (get_next_pending_job now t s)
                 = update_where_id (id job) (set_running t) s.
Proof.
  unfold get_next_pending_job.
  destruct (select_next_pending now s) as [job|]; simpl; [right|left; auto].
  exists job. reflexivity.
Qed.

(** A row that an update leaves in [dlq] although it was not there
    before was written by that update. *)
Lemma enters_dlq_by_update job_id k f s r r' :
  keeps_id f ->
  get_job k s = Some r -> status r <> dlq ->
  get_job k (update_where_id job_id f s) = Some r' -> status r' = dlq ->
  k = job_id /\ r' = f r.
Proof.
  intros Hf Hg Hs Hg' Hs'. rewrite get_job_update in Hg' by exact Hf.
  destruct (k =? job_id) eqn:E.
  - apply Z.eqb_eq in E. rewrite Hg in Hg'. simpl in Hg'.
    inversion Hg'; subst. auto.
  - rewrite Hg in Hg'. inversion Hg'; subst. contradiction.
Qed.

(** C5, for limits of at least one: in a run whose calls of
    [enqueue_job] are all given [max_attempts >= 1], when a call moves a
    row into [dlq], the call is the end of a turn whose handler raised
    (the row went through [handle_job_failure]) if and only if the row
    enters [dlq] with [attempts = max_attempts]. *)
Theorem dlq_by_exhaustion_iff_attempts_at_limit :
  forall (ops : list (op document)) (o : op document) (job_id : Z)
         (r r' : Job),
    Forall (positive_limit document) ops ->
    get_job job_id (db (run ops)) = Some r -> status r <> dlq ->
    get_job job_id (db (step (run ops) o)) = Some r' -> status r' = dlq ->
    (failure_path (run ops) o job_id = true
     <-> attempts r' = max_attempts r').
Proof.
  intros ops o job_id r r' Hpos Hg Hs Hg' Hs'.
  pose proof (run_invariant ops Hpos) as [Hkey Hbelow Hlimit Hids Hheld].
  pose proof Hkey as [Hnd _].
  set (sys := run ops) in *. clearbody sys.
  destruct o as [jt pl m av t0 t1 t2 | now t | k b t2 t3 | jid now t].
  - exfalso. unfold step, enqueue_job in Hg'.
    destruct (json_dumps pl); simpl in Hg'.
    + destruct (db sys) as [l q]. simpl in Hg'.
      rewrite (get_job_snoc job_id l _ q (q + 1) r Hg) in Hg'.
      inversion Hg'; subst. contradiction.
    + rewrite Hg in Hg'. inversion Hg'; subst. contradiction.
  - exfalso. unfold step in Hg'.
    destruct (get_next_pending_job_store now t (db sys)) as [E|[job E]];
      destruct (get_next_pending_job now t (db sys)) as [[j|] s1];
      simpl in E; subst s1; simpl in Hg'.
    1,2: rewrite Hg in Hg'; inversion Hg'; subst; contradiction.
    1,2: destruct (enters_dlq_by_update _ _ _ _ _ _
                     (keeps_id_set_running t) Hg Hs Hg' Hs') as [_ ->];
         discriminate.
  - unfold step in Hg'. unfold failure_path.
    destruct (nth_error (held sys) k) as [h|] eqn:Hk.
    2:{ rewrite Hg in Hg'. inversion Hg'; subst. contradiction. }
    simpl in Hg'.
    assert (Hh : held_row (db sys) h).
    { rewrite Forall_forall in Hheld. apply Hheld.
      eapply nth_error_In; exact Hk. }
    destruct Hh as [r0 [Hg0 [Hrun [Hatt Hmax]]]].
    unfold process_job in *.
    destruct (json_loads (payload h)) as [d|e].
    + destruct (HANDLERS (type h)) as [handler|].
      * destruct (handler d) as [exc|].
        -- unfold handle_job_failure in *.
           destruct (attempts h + 1 >=? max_attempts h) eqn:C.
           ++ simpl in Hg'.
              destruct (enters_dlq_by_update _ _ _ _ _ _
                          (keeps_id_set_exhausted _ _ _) Hg Hs Hg' Hs')
                as [-> ->].
              rewrite Hg in Hg0. inversion Hg0; subst r0.
              rewrite Z.eqb_refl. simpl.
              apply Z.geb_le in C.
              assert (attempts r < max_attempts r).
              { rewrite Forall_forall in Hbelow.
                apply (Hbelow r); [|right; exact Hrun].
                apply (get_job_In _ _ _ Hg). }
              split; [lia|reflexivity].
           ++ exfalso.
              destruct (timedelta _); simpl in Hg'.
              2:{ rewrite Hg in Hg'. inversion Hg'; subst. contradiction. }
              destruct (datetime_add _ _); simpl in Hg'.
              2:{ rewrite Hg in Hg'. inversion Hg'; subst. contradiction. }
              destruct (enters_dlq_by_update _ _ _ _ _ _
                          (keeps_id_set_rescheduled _ _ _ _) Hg Hs Hg' Hs')
                as [_ ->].
              discriminate.
        -- exfalso. simpl in Hg'.
           destruct (enters_dlq_by_update _ _ _ _ _ _
                       (keeps_id_set_completed _) Hg Hs Hg' Hs') as [_ ->].
           discriminate.
      * simpl in Hg'.
        destruct (enters_dlq_by_update _ _ _ _ _ _
                    (keeps_id_set_dlq _ _) Hg Hs Hg' Hs') as [-> ->].
        rewrite Hg in Hg0. inversion Hg0; subst r0.
        rewrite Z.eqb_refl. simpl.
        assert (attempts r < max_attempts r).
        { rewrite Forall_forall in Hbelow.
          apply (Hbelow r); [|right; exact Hrun].
          apply (get_job_In _ _ _ Hg). }
        split; [discriminate|lia].
    + destruct (is_JSONDecodeError e); simpl in Hg'.
      2:{ rewrite Hg in Hg'. inversion Hg'; subst. contradiction. }
      destruct (enters_dlq_by_update _ _ _ _ _ _
                  (keeps_id_set_dlq _ _) Hg Hs Hg' Hs') as [-> ->].
      rewrite Hg in Hg0. inversion Hg0; subst r0.
      rewrite Z.eqb_refl. simpl.
      assert (attempts r < max_attempts r).
      { rewrite Forall_forall in Hbelow.
        apply (Hbelow r); [|right; exact Hrun].
        apply (get_job_In _ _ _ Hg). }
      split; [discriminate|lia].
  - exfalso. unfold step, retry_dlq_job in Hg'.
    destruct (get_job jid (db sys)) as [job|]; simpl in Hg'.
    2:{ rewrite Hg in Hg'. inversion Hg'; subst. contradiction. }
    destruct (negb (status_eqb (status job) dlq)); simpl in Hg'.
    { rewrite Hg in Hg'. inversion Hg'; subst. contradiction. }
    destruct (enters_dlq_by_update _ _ _ _ _ _
                (keeps_id_set_requeued _ _) Hg Hs Hg' Hs') as [_ ->].
    discriminate.
Qed.

End Reachable.

Section JsonDecoding.

Local Open Scope list_scope.

Ltac Zify.zify_post_hook ::= Z.to_euclidean_division_equations.

(** ** The text of a document decodes to its normal form *)

Lemma take_digits_no_digit rest :
  match rest with c :: _ => is_digit c = false | [] => True end ->
  take_digits rest = (Decimal.Nil, rest).
Proof. destruct rest as [|c r]; simpl; [reflexivity|]. intros ->. reflexivity. Qed.

Lemma take_digits_uint_codes u rest :
  match rest with c :: _ => is_digit c = false | [] => True end ->
  take_digits (uint_codes u ++ rest) = (u, rest).
Proof.
  intro H. induction u; simpl; try (rewrite IHu; reflexivity).
  apply take_digits_no_digit; exact H.
Qed.

Lemma to_uint_normal p : Decimal.unorm (Pos.to_uint p) = Pos.to_uint p.
Proof.
  rewrite <- (DecimalPos.Unsigned.to_of (Pos.to_uint p)).
  rewrite DecimalPos.Unsigned.of_to. reflexivity.
Qed.

Lemma to_uint_head p :
  exists c u, uint_codes (Pos.to_uint p) = c :: uint_codes u
              /\ is_digit c = true /\ c <> 48%N
              /\ digit_cons c u = Pos.to_uint p.
Proof.
  pose proof (to_uint_normal p) as Hn.
  pose proof (Unsigned.to_uint_nonnil p) as Hnil.
  pose proof (Unsigned.to_uint_nonzero p) as Hz.
  destruct (Pos.to_uint p) as [|u|u|u|u|u|u|u|u|u|u] eqn:E;
    try (eexists; exists u; simpl;
         split; [reflexivity|split; [reflexivity|split; [discriminate|reflexivity]]]).
  - contradiction.
  - exfalso. rewrite unorm_D0 in Hn.
    destruct u as [|u'|u'|u'|u'|u'|u'|u'|u'|u'|u'] eqn:Eu;
      try (assert (Hne : u <> Decimal.Nil) by (rewrite Eu; discriminate);
           rewrite <- Eu in Hn;
           pose proof (nb_digits_unorm u Hne) as Hl;
           rewrite Hn in Hl; simpl in Hl; lia).
    apply Hz. reflexivity.
Qed.

Lemma number_tail_delimited rest :
  delimited rest -> number_tail rest = (false, rest).
Proof.
  destruct rest as [|c r]; simpl; [reflexivity|].
  intros [-> | [-> | ->]]; reflexivity.
Qed.

Lemma delimited_no_digit rest :
  delimited rest -> match rest with c :: _ => is_digit c = false | [] => True end.
Proof.
  destruct rest as [|c r]; simpl; [auto|].
  intros [-> | [-> | ->]]; reflexivity.
Qed.

Lemma is_digit_not_minus c : is_digit c = true -> (c =? 45)%N = false.
Proof.
  unfold is_digit. rewrite andb_true_iff, !N.leb_le. intros [H1 H2].
  apply N.eqb_neq. lia.
Qed.

Lemma match_number_int_codes n rest :
  delimited rest -> match_number (int_codes n ++ rest) = Some (IntLit n, rest).
Proof.
  intro Hd. pose proof (delimited_no_digit rest Hd) as Hnd.
  pose proof (number_tail_delimited rest Hd) as Ht.
  pose proof (DecimalZ.of_to n) as Hn.
  unfold int_codes.
  destruct n as [|p|p]; simpl Z.to_int in *; cbv iota.
  - unfold match_number. cbn -[number_tail]. rewrite Ht. reflexivity.
  - destruct (to_uint_head p) as [c [u [E [Hc [Hz Hu]]]]].
    rewrite E.
    change ((c :: uint_codes u) ++ rest) with (c :: (uint_codes u ++ rest)).
    unfold match_number. cbv beta iota.
    rewrite (is_digit_not_minus c Hc), Hc.
    destruct (N.eqb_spec c 48) as [|_]; [contradiction|].
    rewrite (take_digits_uint_codes u rest Hnd). rewrite Ht.
    rewrite Hu. rewrite Hn. reflexivity.
  - destruct (to_uint_head p) as [c [u [E [Hc [Hz Hu]]]]].
    rewrite E.
    change ((45%N :: c :: uint_codes u) ++ rest)
      with (45%N :: c :: (uint_codes u ++ rest)).
    unfold match_number. cbv beta iota.
    rewrite N.eqb_refl, Hc.
    destruct (N.eqb_spec c 48) as [|_]; [contradiction|].
    rewrite (take_digits_uint_codes u rest Hnd). rewrite Ht.
    rewrite Hu. rewrite Hn. reflexivity.
Qed.

(** *** Strings *)

Lemma hex_value_hex_digit n : (n < 16)%N -> hex_value (hex_digit n) = Some n.
Proof.
  intro H. unfold hex_digit, hex_value.
  destruct (N.ltb_spec n 10).
  - replace ((48 <=? 48 + n) && (48 + n <=? 57))%N with true.
    + f_equal. lia.
    + symmetry. apply andb_true_iff. split; apply N.leb_le; lia.
  - replace ((48 <=? 87 + n) && (87 + n <=? 57))%N with false.
    + replace ((97 <=? 87 + n) && (87 + n <=? 102))%N with true.
      * f_equal. lia.
      * symmetry. apply andb_true_iff. split; apply N.leb_le; lia.
    + symmetry. apply andb_false_iff. right. apply N.leb_gt. lia.
Qed.

Lemma parse_hex4_hex4 c rest :
  (c < 65536)%N -> parse_hex4 (hex4 c ++ rest) = Some (c, rest).
Proof.
  intro H. unfold hex4. cbn [app]. unfold parse_hex4.
  rewrite !hex_value_hex_digit by lia.
  f_equal. f_equal. lia.
Qed.

Lemma surrogate_false c :
  (c < 55296 \/ 57343 < c)%N ->
  is_high_surrogate c = false /\ is_low_surrogate c = false.
Proof.
  intro H. unfold is_high_surrogate, is_low_surrogate.
  split; apply andb_false_iff; rewrite !N.leb_gt; lia.
Qed.

Ltac eqb_false :=
  repeat match goal with
         | H : ?a <> ?b |- context [(?a =? ?b)%N] =>
             rewrite (proj2 (N.eqb_neq a b) H)
         end.

Lemma escape_char_shape c : (c < 1114112)%N -> escape_shape c.
Proof.
  intro Hc.
  destruct (N.eqb_spec c 34) as [->|H34].
  { apply (shape_short _ 34%N); try reflexivity. discriminate. }
  destruct (N.eqb_spec c 92) as [->|H92].
  { apply (shape_short _ 92%N); try reflexivity. discriminate. }
  destruct (N.eqb_spec c 10) as [->|H10].
  { apply (shape_short _ 110%N); try reflexivity. discriminate. }
  destruct (N.eqb_spec c 13) as [->|H13].
  { apply (shape_short _ 114%N); try reflexivity. discriminate. }
  destruct (N.eqb_spec c 9) as [->|H9].
  { apply (shape_short _ 116%N); try reflexivity. discriminate. }
  destruct (N.eqb_spec c 8) as [->|H8].
  { apply (shape_short _ 98%N); try reflexivity. discriminate. }
  destruct (N.eqb_spec c 12) as [->|H12].
  { apply (shape_short _ 102%N); try reflexivity. discriminate. }
  destruct ((32 <=? c)%N && (c <=? 126)%N) eqn:Hp.
  { pose proof Hp as Hp'.
    apply andb_true_iff in Hp'. rewrite !N.leb_le in Hp'.
    destruct (surrogate_false c) as [Hh Hl]; [lia|].
    apply shape_plain; auto; [|lia].
    unfold escape_char. eqb_false. rewrite Hp. reflexivity. }
  destruct (N.ltb_spec c 65536) as [Hlt|Hge].
  { apply shape_u; auto.
    unfold escape_char. eqb_false. rewrite Hp.
    rewrite (proj2 (N.ltb_lt _ _) Hlt). reflexivity. }
  destruct (surrogate_false c) as [Hh Hl]; [lia|].
  apply (shape_pair _ (55296 + (c - 65536) / 1024)%N (56320 + (c - 65536) mod 1024)%N);
    auto.
  - unfold escape_char. eqb_false. rewrite Hp.
    rewrite (proj2 (N.ltb_ge _ _) Hge). reflexivity.
  - lia.
  - lia.
  - unfold is_high_surrogate. apply andb_true_iff; rewrite !N.leb_le; lia.
  - unfold is_low_surrogate. apply andb_true_iff; rewrite !N.leb_le; lia.
  - unfold join_surrogates. lia.
Qed.

Lemma scan_chars_short fuel c x t :
  simple_escape x = Some c -> x <> 117%N ->
  scan_chars (S fuel) (92%N :: x :: t) = prepend c (scan_chars fuel t).
Proof.
  intros Hx Hu. cbn [scan_chars].
  change (92 =? 34)%N with false. change (92 =? 92)%N with true. cbv iota.
  rewrite (proj2 (N.eqb_neq _ _) Hu), Hx. reflexivity.
Qed.

Lemma scan_chars_plain fuel c t :
  c <> 34%N -> c <> 92%N -> (32 <= c)%N ->
  scan_chars (S fuel) (c :: t) = prepend c (scan_chars fuel t).
Proof.
  intros H1 H2 H3. cbn [scan_chars].
  rewrite (proj2 (N.eqb_neq _ _) H1), (proj2 (N.eqb_neq _ _) H2).
  rewrite (proj2 (N.ltb_ge _ _) H3). reflexivity.
Qed.

Lemma scan_chars_u fuel c t :
  (c < 65536)%N ->
  scan_chars (S fuel) (92%N :: 117%N :: hex4 c ++ t)
  = if is_high_surrogate c then lookahead fuel c t
    else prepend c (scan_chars fuel t).
Proof.
  intro Hc. cbn [scan_chars].
  change (92 =? 34)%N with false. change (92 =? 92)%N with true.
  change (117 =? 117)%N with true. cbv iota.
  rewrite (parse_hex4_hex4 c t Hc). unfold lookahead, prepend.
  reflexivity.
Qed.

Lemma lookahead_low fuel hi lo t :
  (lo < 65536)%N -> is_low_surrogate lo = true ->
  lookahead fuel hi (92%N :: 117%N :: hex4 lo ++ t)
  = prepend (join_surrogates hi lo) (scan_chars fuel t).
Proof.
  intros Hlo Hl. unfold lookahead.
  change ((92 =? 92) && (117 =? 117))%N with true. cbv iota.
  rewrite (parse_hex4_hex4 lo t Hlo), Hl. reflexivity.
Qed.

Lemma lookahead_single fuel hi d t :
  (d < 1114112)%N -> is_low_surrogate d = false ->
  lookahead fuel hi (escape_char d ++ t)
  = prepend hi (scan_chars fuel (escape_char d ++ t)).
Proof.
  intros Hd Hl.
  destruct (escape_char_shape d Hd)
    as [x E Hx Hu _ _ | E H34 H92 _ _ _ | E Hlt | hi' lo' E Hhi Hlo Hh _ _ _ _];
    rewrite E; unfold lookahead; cbn [app].
  - rewrite (proj2 (N.eqb_neq _ _) Hu), andb_false_r. reflexivity.
  - destruct t as [|u t3]; [reflexivity|].
    rewrite (proj2 (N.eqb_neq _ _) H92). reflexivity.
  - change ((92 =? 92) && (117 =? 117))%N with true. cbv iota.
    rewrite (parse_hex4_hex4 d _ Hlt), Hl. reflexivity.
  - change ((92 =? 92) && (117 =? 117))%N with true. cbv iota.
    rewrite <- app_assoc.
    rewrite (parse_hex4_hex4 hi' _ Hhi).
    assert (Hn : is_low_surrogate hi' = false).
    { unfold is_high_surrogate in Hh. unfold is_low_surrogate.
      apply andb_true_iff in Hh. rewrite !N.leb_le in Hh.
      apply andb_false_iff. left. apply N.leb_gt. lia. }
    rewrite Hn. reflexivity.
Qed.

Lemma lookahead_end fuel hi t :
  lookahead fuel hi (34%N :: t) = prepend hi (scan_chars fuel (34%N :: t)).
Proof. unfold lookahead. destruct t; reflexivity. Qed.

Lemma merge_surrogates_cons c s :
  is_high_surrogate c = false ->
  merge_surrogates (c :: s) = c :: merge_surrogates s.
Proof. intro H. destruct s as [|d s]; simpl; rewrite ?H; reflexivity. Qed.

Lemma scan_chars_escaped n :
  forall s, (List.length s <= n)%nat -> code_points s ->
  forall fuel rest,
    (List.length (flat_map escape_char s) < fuel)%nat ->
    scan_chars fuel (flat_map escape_char s ++ 34%N :: rest)
    = Some (merge_surrogates s, rest).
Proof.
  induction n as [|n IH]; intros s Hn Hs fuel rest Hf.
  - destruct s; [|simpl in Hn; lia].
    destruct fuel; [simpl in Hf; lia|]. reflexivity.
  - destruct s as [|c s]; [destruct fuel; [simpl in Hf; lia|]; reflexivity|].
    inversion Hs as [|? ? Hc Hs']; subst.
    simpl in Hn. cbn [flat_map] in *. rewrite length_app in Hf.
    rewrite <- app_assoc.
    destruct fuel as [|fuel]; [lia|].
    assert (Htail : forall f, (List.length (flat_map escape_char s) < f)%nat ->
              scan_chars f (flat_map escape_char s ++ 34%N :: rest)
              = Some (merge_surrogates s, rest)).
    { intros f Hlt. apply IH; [lia|assumption|assumption]. }
    destruct (escape_char_shape c Hc)
      as [x E Hx Hu Hh _ | E H34 H92 H32 Hh _ | E Hlt
          | hi lo E Hhi Hlo Hh Hl Hj Hch _].
    + rewrite E in *. cbn [app List.length] in *.
      rewrite (scan_chars_short _ c x _ Hx Hu), Htail by lia.
      rewrite (merge_surrogates_cons c s Hh). reflexivity.
    + rewrite E in *. cbn [app List.length] in *.
      rewrite (scan_chars_plain _ c _ H34 H92 H32), Htail by lia.
      rewrite (merge_surrogates_cons c s Hh). reflexivity.
    + rewrite E in *. cbn [app List.length] in *.
      rewrite (scan_chars_u _ c _ Hlt).
      destruct (is_high_surrogate c) eqn:Hh.
      * destruct s as [|d s'].
        -- cbn [flat_map app]. rewrite lookahead_end.
           change (34%N :: rest) with (flat_map escape_char [] ++ 34%N :: rest).
           rewrite Htail by (simpl; lia). reflexivity.
        -- inversion Hs' as [|? ? Hd Hs'']; subst.
           cbn [flat_map]. rewrite <- app_assoc.
           destruct (is_low_surrogate d) eqn:Hld.
           ++ destruct (escape_char_shape d Hd)
                as [x E' _ _ _ Hl' | E' _ _ _ _ Hl' | E' Hlt'
                    | hi lo E' _ _ _ _ _ _ Hl']; try congruence.
              rewrite E'. cbn [app].
              rewrite (lookahead_low _ c d _ Hlt' Hld).
              rewrite (IH s'); [|simpl in Hn; lia|assumption|].
              ** simpl. rewrite Hh, Hld. reflexivity.
              ** cbn [flat_map] in Hf. rewrite length_app, E' in Hf.
                 simpl in Hf. lia.
           ++ rewrite (lookahead_single _ c d _ Hd Hld).
              rewrite app_assoc.
              change (escape_char d ++ flat_map escape_char s')
                with (flat_map escape_char (d :: s')).
              rewrite Htail by lia.
              simpl. rewrite Hh, Hld. reflexivity.
      * rewrite Htail by lia.
        rewrite (merge_surrogates_cons c s Hh). reflexivity.
    + rewrite E in *. rewrite <- app_assoc. cbn [app].
      rewrite (scan_chars_u _ hi _ Hhi), Hh.
      rewrite (lookahead_low _ hi lo _ Hlo Hl), Hj.
      rewrite Htail by (rewrite length_app in Hf; simpl in Hf; lia).
      rewrite (merge_surrogates_cons c s Hch). reflexivity.
Qed.

Lemma scanstring_encoded s rest :
  code_points s ->
  scanstring (flat_map escape_char s ++ 34%N :: rest)
  = Some (merge_surrogates s, rest).
Proof.
  intro Hs. unfold scanstring.
  apply (scan_chars_escaped (List.length s) s (le_n _) Hs).
  rewrite length_app. simpl. lia.
Qed.

(** *** Values *)

Lemma all_map_Forall {A : Type} (f : A -> Prop) l :
  fold_right and True (map f l) <-> Forall f l.
Proof.
  induction l as [|x l IH]; simpl.
  - split; constructor.
  - rewrite IH. split.
    + intros [H1 H2]. constructor; assumption.
    + intro H. inversion H; auto.
Qed.

Lemma uint_codes_digits u : Forall (fun c => is_digit c = true) (uint_codes u).
Proof. induction u; simpl; constructor; auto. Qed.

Lemma int_codes_head n :
  exists c t, int_codes n = c :: t /\ (c = 45%N \/ is_digit c = true).
Proof.
  unfold int_codes. destruct n as [|p|p]; simpl.
  - exists 48%N, []. auto.
  - destruct (to_uint_head p) as [c [u [E [Hc _]]]]. rewrite E. eauto.
  - eexists. eexists. split; [reflexivity|]. auto.
Qed.

Lemma int_codes_code_points n : code_points (int_codes n).
Proof.
  assert (H : forall u, code_points (uint_codes u)).
  { intro u. unfold code_points. eapply Forall_impl; [|apply uint_codes_digits].
    intros c Hc. unfold is_digit in Hc. apply andb_true_iff in Hc.
    rewrite !N.leb_le in Hc. lia. }
  unfold int_codes. destruct (Z.to_int n); [apply H|].
  constructor; [lia|apply H].
Qed.

Lemma key_text_code_points k : key_code_points k -> code_points (key_text k).
Proof.
  destruct k as [s|n|[|]|]; simpl; intro H.
  - exact H.
  - apply int_codes_code_points.
  - repeat constructor.
  - repeat constructor.
  - repeat constructor.
Qed.

Lemma is_digit_opens c : c = 45%N \/ is_digit c = true -> opens_value c.
Proof.
  intros [->|H]; [repeat split; discriminate|].
  unfold is_digit in H. apply andb_true_iff in H. rewrite !N.leb_le in H.
  unfold opens_value, is_ws.
  repeat split; try lia.
  repeat (apply orb_false_iff; split); apply N.eqb_neq; lia.
Qed.

Lemma dumps_head obj : exists c t, dumps obj = c :: t /\ opens_value c.
Proof.
  destruct obj as [|[|]|n|s|items|items|items]; simpl;
    try (eexists; eexists; split; [reflexivity|];
         repeat split; discriminate).
  destruct (int_codes_head n) as [c [t [E H]]].
  exists c, t. split; [exact E|]. apply is_digit_opens; exact H.
Qed.

Lemma skip_ws_opens c t : opens_value c -> skip_ws (c :: t) = c :: t.
Proof. intros [H _]. simpl. rewrite H. reflexivity. Qed.

Lemma skip_ws_dumps obj rest : skip_ws (dumps obj ++ rest) = dumps obj ++ rest.
Proof.
  destruct (dumps_head obj) as [c [t [E H]]]. rewrite E.
  apply skip_ws_opens; exact H.
Qed.

Lemma scan_once_number fuel text n rest :
  match text with
  | c :: _ => c = 45%N \/ is_digit c = true
  | [] => False
  end ->
  match_number text = Some (IntLit n, rest) ->
  scan_once (S fuel) text = Some (PInt n, false, rest).
Proof.
  destruct text as [|c t]; [contradiction|]. intros Hc Hm.
  assert (Hcases : (c = 45 \/ c = 48 \/ c = 49 \/ c = 50 \/ c = 51 \/ c = 52
                    \/ c = 53 \/ c = 54 \/ c = 55 \/ c = 56 \/ c = 57)%N).
  { destruct Hc as [->|Hc]; [auto|].
    unfold is_digit in Hc. apply andb_true_iff in Hc.
    rewrite !N.leb_le in Hc. lia. }
  clear Hc.
  repeat (destruct Hcases as [->|Hcases]);
    try subst c; cbn -[match_number]; rewrite Hm; reflexivity.
Qed.

Lemma join_cons2 (p q : list N) (l : list (list N)) :
  join (p :: q :: l) = p ++ 44%N :: 32%N :: join (q :: l).
Proof. reflexivity. Qed.

Lemma join_dumps_head x items :
  exists c t, join (map dumps (x :: items)) = c :: t /\ opens_value c.
Proof.
  destruct (dumps_head x) as [c [t [E H]]].
  destruct items as [|y l]; cbn [map].
  - exists c, t. simpl. auto.
  - rewrite join_cons2, E. eexists. eexists. split; [reflexivity|exact H].
Qed.

Lemma opens_not c : opens_value c ->
  is_ws c = false /\ (c =? 93)%N = false /\ (c =? 125)%N = false.
Proof.
  intros [H1 [H2 [H3 _]]]. repeat split; auto; apply N.eqb_neq; assumption.
Qed.

Lemma parse_items_join items :
  Forall decodes items -> items <> [] ->
  forall fuel rest,
    (items_weight (map weight items) <= fuel)%nat ->
    parse_items fuel (join (map dumps items) ++ 93%N :: rest)
    = Some (map norm items, false, rest).
Proof.
  induction items as [|x l IH]; intros Hall Hne fuel rest Hf; [congruence|].
  inversion Hall as [|? ? Hx Hl]; subst.
  cbn [map items_weight fold_right] in Hf.
  destruct fuel as [|fuel]; [lia|].
  destruct l as [|y l'].
  - cbn [map join]. cbn [parse_items].
    rewrite (Hx fuel (93%N :: rest)); [|simpl in Hf; lia|simpl; auto].
    reflexivity.
  - cbn [map]. rewrite join_cons2. rewrite <- app_assoc. cbn [app].
    cbn [parse_items].
    rewrite (Hx fuel); [|lia|simpl; auto].
    cbn [skip_ws is_ws]. cbn.
    destruct (join_dumps_head y l') as [c [t [E Hc]]].
    cbn [map] in E.
    assert (Hs : skip_ws ((join (dumps y :: map dumps l')) ++ 93%N :: rest)
                 = join (dumps y :: map dumps l') ++ 93%N :: rest).
    { rewrite E. apply skip_ws_opens; exact Hc. }
    fold (items_weight (map weight (y :: l'))) in Hf.
    specialize (IH Hl ltac:(discriminate) fuel rest ltac:(lia)).
    cbn [map] in IH. 
    match goal with
    | |- context [parse_items fuel ?X] =>
        replace X with (join (dumps y :: map dumps l') ++ 93%N :: rest)
          by (symmetry; exact Hs)
    end.
    rewrite IH. reflexivity.
Qed.

Lemma pair_text_unfold kv rest :
  pair_text kv ++ rest
  = 34%N :: flat_map escape_char (key_text (fst kv))
      ++ 34%N :: 58%N :: 32%N :: dumps (snd kv) ++ rest.
Proof.
  unfold pair_text, encode_basestring_ascii.
  change (codes ": ") with [58%N; 32%N].
  cbn [app]. rewrite <- !app_assoc. reflexivity.
Qed.

Lemma skip_ws_delimited rest : delimited rest -> skip_ws rest = rest.
Proof.
  destruct rest as [|c t]; [reflexivity|].
  intros [-> | [-> | ->]]; reflexivity.
Qed.

Lemma skip_ws_space t : skip_ws (32%N :: t) = skip_ws t.
Proof. reflexivity. Qed.

Lemma skip_ws_colon t : skip_ws (58%N :: t) = 58%N :: t.
Proof. reflexivity. Qed.

Lemma parse_pairs_step fuel key obj rest :
  code_points key -> decodes obj -> (weight obj <= fuel)%nat ->
  delimited rest ->
  parse_pairs (S fuel)
    (34%N :: flat_map escape_char key ++ 34%N :: 58%N :: 32%N :: dumps obj ++ rest)
  = match rest with
    | c :: t4 =>
        if (c =? 125)%N then Some ([(merge_surrogates key, norm obj)], false, t4)
        else if (c =? 44)%N then
          match parse_pairs fuel (skip_ws t4) with
          | Some (pairs, f', r) =>
              Some ((merge_surrogates key, norm obj) :: pairs, false || f', r)
          | None => None
          end
        else None
    | [] => None
    end.
Proof.
  intros Hk Hx Hf Hd. cbn [parse_pairs].
  change (negb (34 =? 34)%N) with false. cbv iota.
  rewrite (scanstring_encoded _ _ Hk), skip_ws_colon.
  change (negb (58 =? 58)%N) with false. cbv iota.
  rewrite skip_ws_space, skip_ws_dumps, (Hx fuel rest Hf Hd).
  rewrite (skip_ws_delimited rest Hd). reflexivity.
Qed.

Lemma skip_ws_pairs x l rest :
  skip_ws (join (map pair_text (x :: l)) ++ rest)
  = join (map pair_text (x :: l)) ++ rest.
Proof.
  destruct l; [cbn [map join]|cbn [map]; rewrite join_cons2, <- app_assoc];
    rewrite pair_text_unfold; reflexivity.
Qed.

Lemma parse_pairs_join items :
  Forall (fun kv => key_code_points (fst kv) /\ decodes (snd kv)) items ->
  items <> [] ->
  forall fuel rest,
    (items_weight (map (fun kv => weight (snd kv)) items) <= fuel)%nat ->
    parse_pairs fuel (join (map pair_text items) ++ 125%N :: rest)
    = Some (map pair_norm items, false, rest).
Proof.
  induction items as [|x l IH]; intros Hall Hne fuel rest Hf; [congruence|].
  inversion Hall as [|? ? [Hk Hx] Hl]; subst.
  cbn [map items_weight fold_right] in Hf.
  destruct fuel as [|fuel]; [lia|].
  pose proof (key_text_code_points _ Hk) as Hcp.
  destruct l as [|y l'].
  - cbn [map join]. rewrite pair_text_unfold.
    rewrite (parse_pairs_step fuel _ _ _ Hcp Hx);
      [|simpl in Hf; lia|simpl; auto].
    reflexivity.
  - fold (items_weight (map (fun kv => weight (snd kv)) (y :: l'))) in Hf.
    specialize (IH Hl ltac:(discriminate) fuel rest ltac:(lia)).
    change (map pair_text (x :: y :: l'))
      with (pair_text x :: map pair_text (y :: l')).
    destruct (map pair_text (y :: l')) as [|q ql] eqn:Eq; [discriminate|].
    rewrite join_cons2, <- app_assoc. rewrite pair_text_unfold. cbn [app].
    rewrite (parse_pairs_step fuel _ _ _ Hcp Hx); [|lia|simpl; auto].
    change (44 =? 125)%N with false. change (44 =? 44)%N with true. cbv iota.
    rewrite skip_ws_space. rewrite <- Eq in *.
    rewrite skip_ws_pairs, IH. reflexivity.
Qed.

Lemma well_formed_items items :
  fold_right and True (map well_formed items) -> Forall well_formed items.
Proof. apply all_map_Forall. Qed.

Lemma Forall_modus {A : Type} (P Q : A -> Prop) l :
  Forall (fun x => P x -> Q x) l -> Forall P l -> Forall Q l.
Proof.
  induction l as [|x l IH]; intros H1 H2; constructor;
    inversion H1; inversion H2; subst; auto.
Qed.

Lemma scan_once_array fuel items rest :
  Forall decodes items ->
  (S (items_weight (map weight items)) <= fuel)%nat ->
  scan_once fuel ((91%N :: join (map dumps items) ++ [93%N]) ++ rest)
  = Some (PList (map norm items), false, rest).
Proof.
  intros Hall Hf. destruct fuel as [|fuel]; [lia|].
  cbn [app]. rewrite <- app_assoc. cbn [app].
  cbn [scan_once].
  change (91 =? 34)%N with false. change (91 =? 123)%N with false.
  change (91 =? 91)%N with true. cbv iota.
  destruct items as [|x l].
  - reflexivity.
  - destruct (join_dumps_head x l) as [c [t [E Hc]]].
    pose proof (parse_items_join (x :: l) Hall ltac:(discriminate) fuel rest
                  ltac:(lia)) as Hp.
    rewrite E in *. cbn [app] in *.
    destruct (opens_not c Hc) as [Hw [H93 _]].
    cbn [skip_ws]. rewrite Hw, H93, Hp. reflexivity.
Qed.

Lemma scan_once_dumps obj : well_formed obj -> decodes obj.
Proof.
  induction obj as [| b | n | s | items IH | items IH | items IH]
    using pyval_nested_ind; intros Hwf fuel rest Hf Hd.
  - destruct fuel; [simpl in Hf; lia|]. reflexivity.
  - destruct fuel; [simpl in Hf; lia|]. destruct b; reflexivity.
  - destruct fuel; [simpl in Hf; lia|].
    cbn [dumps norm].
    apply scan_once_number; [|apply match_number_int_codes; exact Hd].
    destruct (int_codes_head n) as [c [t [E H]]]. rewrite E. exact H.
  - destruct fuel; [simpl in Hf; lia|].
    cbn [dumps norm]. unfold encode_basestring_ascii.
    cbn [app]. rewrite <- app_assoc. cbn [app scan_once].
    change (34 =? 34)%N with true. cbv iota.
    rewrite (scanstring_encoded s rest Hwf). reflexivity.
  - cbn [dumps norm]. apply scan_once_array; [|exact Hf].
    apply (Forall_modus _ _ _ IH). apply well_formed_items. exact Hwf.
  - cbn [dumps norm]. apply scan_once_array; [|exact Hf].
    apply (Forall_modus _ _ _ IH). apply well_formed_items. exact Hwf.
  - cbn [dumps norm]. cbn [weight] in Hf.
    destruct fuel as [|fuel]; [lia|].
    cbn [app]. rewrite <- app_assoc. cbn [app].
    cbn [scan_once].
    change (123 =? 34)%N with false. change (123 =? 123)%N with true.
    cbv iota.
    destruct items as [|x l]; [reflexivity|].
    assert (Hall : Forall (fun kv => key_code_points (fst kv) /\ decodes (snd kv))
                     (x :: l)).
    { cbn [well_formed] in Hwf. apply all_map_Forall in Hwf.
      rewrite Forall_forall in *. intros kv Hkv.
      destruct (Hwf kv Hkv) as [H1 H2]. split; [exact H1|].
      apply IH; assumption. }
    pose proof (parse_pairs_join (x :: l) Hall ltac:(discriminate) fuel rest
                  ltac:(unfold items_weight; lia)) as Hp.
    fold pair_text.
    change (map (fun kv => (merge_surrogates (key_text (fst kv)), norm (snd kv))) (x :: l))
      with (map pair_norm (x :: l)).
    rewrite skip_ws_pairs.
    destruct (join (map pair_text (x :: l)) ++ 125%N :: rest) as [|c t] eqn:E.
    { destruct l; [cbn [map join] in E|cbn [map] in E;
                   rewrite join_cons2, <- app_assoc in E];
        rewrite pair_text_unfold in E; discriminate. }
    assert (Hc : (c =? 125)%N = false).
    { destruct l; [cbn [map join] in E|cbn [map] in E;
                   rewrite join_cons2, <- app_assoc in E];
        rewrite pair_text_unfold in E; inversion E; reflexivity. }
    rewrite Hc, Hp. reflexivity.
Qed.

(** *** Fuel *)

Lemma int_codes_length n : (1 <= List.length (int_codes n))%nat.
Proof.
  destruct (int_codes_head n) as [c [t [E _]]]. rewrite E. simpl. lia.
Qed.

Lemma items_weight_join (ws : list nat) (texts : list (list N)) :
  Forall2 (fun w t => (w <= List.length t)%nat) ws texts ->
  (items_weight ws <= S (List.length (join texts)))%nat.
Proof.
  induction 1 as [|w t ws texts Hw Hall IH]; [simpl; lia|].
  destruct texts as [|t' texts'].
  - inversion Hall; subst. simpl. lia.
  - rewrite join_cons2. cbn [items_weight fold_right].
    fold (items_weight ws). rewrite length_app. cbn [List.length]. lia.
Qed.

Lemma weight_le_length obj : (weight obj <= List.length (dumps obj))%nat.
Proof.
  induction obj as [| b | n | s | items IH | items IH | items IH]
    using pyval_nested_ind.
  - simpl. lia.
  - destruct b; simpl; lia.
  - simpl. apply int_codes_length.
  - simpl. lia.
  - cbn [weight dumps]. simpl List.length. rewrite length_app. simpl.
    pose proof (items_weight_join (map weight items) (map dumps items)) as H.
    unfold items_weight in H.
    assert (Hall : Forall2 (fun w t => (w <= List.length t)%nat)
                     (map weight items) (map dumps items)).
    { clear H. induction IH; cbn [map]; constructor; auto. }
    specialize (H Hall). lia.
  - cbn [weight dumps]. simpl List.length. rewrite length_app. simpl.
    pose proof (items_weight_join (map weight items) (map dumps items)) as H.
    unfold items_weight in H.
    assert (Hall : Forall2 (fun w t => (w <= List.length t)%nat)
                     (map weight items) (map dumps items)).
    { clear H. induction IH; cbn [map]; constructor; auto. }
    specialize (H Hall). lia.
  - cbn [weight dumps].
    change (fun kv : pykey * pyval =>
              encode_basestring_ascii (key_text (fst kv)) ++ codes ": "
              ++ dumps (snd kv)) with pair_text.
    cbn [List.length]. rewrite length_app. cbn [List.length].
    pose proof (items_weight_join (map (fun kv => weight (snd kv)) items)
                  (map pair_text items)) as H.
    unfold items_weight in H.
    assert (Hall : Forall2 (fun w t => (w <= List.length t)%nat)
                     (map (fun kv => weight (snd kv)) items)
                     (map pair_text items)).
    { clear H. induction IH as [|kv l Hkv _ IHl]; cbn [map]; constructor; auto.
      unfold pair_text. rewrite !length_app. lia. }
    specialize (H Hall). lia.
Qed.

(** [json.loads(json.dumps(obj))] is the normal form of [obj]. *)
Lemma loads_dumps obj : well_formed obj -> loads (dumps obj) = Doc (norm obj).
Proof.
  intro Hwf. unfold loads.
  pose proof (skip_ws_dumps obj []) as Hs. rewrite List.app_nil_r in Hs.
  rewrite Hs.
  pose proof (scan_once_dumps obj Hwf (S (List.length (dumps obj))) []) as H.
  rewrite List.app_nil_r in H. rewrite H; [reflexivity| |exact I].
  pose proof (weight_le_length obj). lia.
Qed.

(** *** Documents that are their own normal form *)

Lemma scalar_not_surrogate c :
  (c < 55296 \/ 57343 < c < 1114112)%N -> is_high_surrogate c = false.
Proof. intro H. apply surrogate_false. lia. Qed.


Lemma scalar_code_points s : scalar_values s -> code_points s.
Proof.
  unfold scalar_values, code_points. apply Forall_impl. intros c H. lia.
Qed.

Lemma pystr_eqb_eq a b : pystr_eqb a b = true <-> a = b.
Proof.
  unfold pystr_eqb. destruct (list_eq_dec N.eq_dec a b); split; congruence.
Qed.

Lemma dict_set_fresh key value d :
  ~ In (KStr key) (map fst d) -> dict_set key value d = d ++ [(KStr key, value)].
Proof.
  induction d as [|[k v] d IH]; simpl; intro H; [reflexivity|].
  destruct k as [s| | |]; try (rewrite IH; [reflexivity|tauto]).
  destruct (pystr_eqb s key) eqn:E.
  - apply pystr_eqb_eq in E. subst. tauto.
  - rewrite IH; [reflexivity|tauto].
Qed.

Lemma fold_dict_set_fresh pairs :
  forall d,
    NoDup (map fst d ++ map (fun kv => KStr (fst kv)) pairs) ->
    fold_left (fun d kv => dict_set (fst kv) (snd kv) d) pairs d
    = d ++ map (fun kv => (KStr (fst kv), snd kv)) pairs.
Proof.
  induction pairs as [|[k v] pairs IH]; intros d Hnd; simpl.
  - rewrite List.app_nil_r. reflexivity.
  - simpl in Hnd. rewrite dict_set_fresh.
    + rewrite IH.
      * rewrite <- app_assoc. reflexivity.
      * rewrite map_app. simpl. rewrite <- app_assoc. exact Hnd.
    + apply NoDup_remove_2 in Hnd. intro Hin. apply Hnd.
      apply in_or_app. left. exact Hin.
Qed.

Lemma json_native_well_formed obj : json_native obj -> well_formed obj.
Proof.
  induction obj as [| b | n | s | items IH | items IH | items IH]
    using pyval_nested_ind; simpl; auto.
  - apply scalar_code_points.
  - rewrite !all_map_Forall. intro H. eapply Forall_modus; eauto.
  - intros [].
  - intros [_ H]. rewrite all_map_Forall in *.
    rewrite Forall_forall in *. intros kv Hkv.
    destruct (H kv Hkv) as [Hk Hv]. split; [|apply IH; assumption].
    destruct (fst kv); simpl in *; try contradiction.
    apply scalar_code_points; exact Hk.
Qed.


(** *** The text is ASCII *)

Lemma ascii_text_app a b : ascii_text a -> ascii_text b -> ascii_text (a ++ b).
Proof. intros Ha Hb. apply Forall_app. split; assumption. Qed.

Lemma hex_digit_ascii n : (n < 16)%N -> (hex_digit n < 128)%N.
Proof. intro H. unfold hex_digit. destruct (N.ltb_spec n 10); lia. Qed.

Lemma hex4_ascii c : ascii_text (hex4 c).
Proof.
  unfold hex4. repeat constructor; apply hex_digit_ascii; lia.
Qed.

Lemma escape_char_ascii c : ascii_text (escape_char c).
Proof.
  unfold escape_char.
  destruct (c =? 34)%N; [repeat constructor; lia|].
  destruct (c =? 92)%N; [repeat constructor; lia|].
  destruct (c =? 10)%N; [repeat constructor; lia|].
  destruct (c =? 13)%N; [repeat constructor; lia|].
  destruct (c =? 9)%N; [repeat constructor; lia|].
  destruct (c =? 8)%N; [repeat constructor; lia|].
  destruct (c =? 12)%N; [repeat constructor; lia|].
  destruct ((32 <=? c) && (c <=? 126))%N eqn:Hp.
  { apply andb_true_iff in Hp. rewrite !N.leb_le in Hp.
    repeat constructor. lia. }
  destruct (c <? 65536)%N.
  { constructor; [lia|]. constructor; [lia|]. apply hex4_ascii. }
  apply ascii_text_app;
    (constructor; [lia|]; constructor; [lia|]; apply hex4_ascii).
Qed.

Lemma encode_basestring_ascii_ascii s : ascii_text (encode_basestring_ascii s).
Proof.
  unfold encode_basestring_ascii. constructor; [lia|].
  apply ascii_text_app; [|repeat constructor; lia].
  induction s as [|c s IH]; simpl; [constructor|].
  apply ascii_text_app; [apply escape_char_ascii|exact IH].
Qed.

Lemma int_codes_ascii n : ascii_text (int_codes n).
Proof.
  assert (H : forall u, ascii_text (uint_codes u)).
  { intro u. unfold ascii_text. eapply Forall_impl; [|apply uint_codes_digits].
    intros c Hc. unfold is_digit in Hc. apply andb_true_iff in Hc.
    rewrite !N.leb_le in Hc. lia. }
  unfold int_codes. destruct (Z.to_int n); [apply H|].
  constructor; [lia|apply H].
Qed.

Lemma join_ascii texts : Forall ascii_text texts -> ascii_text (join texts).
Proof.
  induction 1 as [|t l Ht Hl IH]; [constructor|].
  destruct l as [|t' l'].
  - exact Ht.
  - rewrite join_cons2. apply ascii_text_app; [exact Ht|].
    constructor; [lia|]. constructor; [lia|]. exact IH.
Qed.

Lemma dumps_ascii obj : ascii_text (dumps obj).
Proof.
  induction obj as [| b | n | s | items IH | items IH | items IH]
    using pyval_nested_ind.
  - repeat constructor.
  - destruct b; repeat constructor.
  - apply int_codes_ascii.
  - apply encode_basestring_ascii_ascii.
  - cbn [dumps]. constructor; [lia|].
    apply ascii_text_app; [|repeat constructor; lia].
    apply join_ascii. rewrite Forall_map. exact IH.
  - cbn [dumps]. constructor; [lia|].
    apply ascii_text_app; [|repeat constructor; lia].
    apply join_ascii. rewrite Forall_map. exact IH.
  - cbn [dumps]. constructor; [lia|].
    apply ascii_text_app; [|repeat constructor; lia].
    apply join_ascii. rewrite Forall_map.
    eapply Forall_impl; [|exact IH]. intros kv Hkv. cbv beta in *.
    apply ascii_text_app; [apply encode_basestring_ascii_ascii|].
    apply ascii_text_app; [repeat constructor|exact Hkv].
Qed.

Lemma codes_text_of_codes l : ascii_text l -> codes (text_of_codes l) = l.
Proof.
  unfold codes, text_of_codes. intro H.
  rewrite list_ascii_of_string_of_list_ascii, map_map.
  induction H as [|c l Hc Hl IH]; [reflexivity|].
  simpl. rewrite IH. f_equal. apply N_ascii_embedding. lia.
Qed.

End JsonDecoding.

(** ** The payload of an enqueued job *)

Lemma json_loads_json_dumps obj :
  well_formed obj ->
  json_loads (text_of_codes (dumps obj)) = Ok (norm obj).
Proof.
  intro Hwf. unfold json_loads.
  rewrite (codes_text_of_codes _ (dumps_ascii obj)).
  rewrite (loads_dumps obj Hwf). reflexivity.
Qed.




(** ** Runs of the queue *)

(** C2 as it is written fails for a limit of zero: [enqueue_job] accepts
    [max_attempts = 0] and stores a pending row with [attempts = 0]. *)
Lemma zero_limit_pending_at_limit :
  ~ Forall attempts_below_limit
      (rows (db (queue_run [enqueue_sample "print_message" failing_payload 0]))).
Proof.
  intro H. inversion H as [|r l Hr _]; subst.
  specialize (Hr (or_introl eq_refl)). simpl in Hr. lia.
Qed.

Lemma sample_run_positive : Forall (positive_limit pyval) sample_run.
Proof. repeat constructor. simpl. lia. Qed.

Lemma attempts_below_limit_reachable_witness :
  Forall (positive_limit pyval) sample_run
  /\ Forall attempts_below_limit (rows (db (queue_run sample_run))).
Proof.
  split; [exact sample_run_positive|].
  apply (attempts_below_limit_reachable pyval json_dumps json_loads
           (HANDLERS print_ok) sample_run sample_run_positive).
Defined.

Lemma dlq_by_exhaustion_iff_attempts_at_limit_witness :
  let r := set_running (clock_2025 2)
             (enqueued_sample "print_message" failing_payload 1) in
  let r' := set_exhausted 1
              "JobExecutionError: Simulated failure in print_message_handler"
              (clock_2025 4) r in
  Forall (positive_limit pyval) one_shot
  /\ get_job 1 (db (queue_run one_shot)) = Some r /\ status r <> dlq
  /\ get_job 1 (db (queue_step (queue_run one_shot) one_shot_end)) = Some r'
  /\ status r' = dlq
  /\ (queue_failure_path (queue_run one_shot) one_shot_end 1 = true
      <-> attempts r' = max_attempts r').
Proof.
  intros r r'.
  assert (Hpos : Forall (positive_limit pyval) one_shot)
    by (repeat constructor; simpl; lia).
  assert (H1 : get_job 1 (db (queue_run one_shot)) = Some r)
    by (vm_compute; reflexivity).
  assert (H2 : status r <> dlq) by discriminate.
  assert (H3 : get_job 1 (db (queue_step (queue_run one_shot) one_shot_end))
               = Some r') by (vm_compute; reflexivity).
  assert (H4 : status r' = dlq) by reflexivity.
  repeat (split; [assumption|]).
  exact (dlq_by_exhaustion_iff_attempts_at_limit pyval json_dumps json_loads
           (HANDLERS print_ok) one_shot one_shot_end 1 r r' Hpos H1 H2 H3 H4).
Defined.

(** C5 as it is written fails for a limit of zero: the first failure of a
    job enqueued with [max_attempts = 0] sends it to [dlq] through
    [handle_job_failure] with [attempts = 1]. *)
Lemma zero_limit_exhausted_above_limit :
  let ops := [enqueue_sample "print_message" failing_payload 0;
              Claim pyval (clock_2025 1) (clock_2025 2)] in
  exists r r',
    get_job 1 (db (queue_run ops)) = Some r /\ status r <> dlq
    /\ get_job 1 (db (queue_step (queue_run ops) one_shot_end)) = Some r'
    /\ status r' = dlq
    /\ queue_failure_path (queue_run ops) one_shot_end 1 = true
    /\ attempts r' = 1 /\ max_attempts r' = 0.
Proof.
  eexists. eexists.
  split; [vm_compute; reflexivity|]. split; [discriminate|].
  split; [vm_compute; reflexivity|]. repeat split.
Qed.

(** ** Turns of the worker *)


(** X8: a turn that claims a job ends normally with the row completed,
    pending or in [dlq], never left [running], when the payload decodes
    or fails with [JSONDecodeError] and the backoff stays in the range of
    [datetime]. *)
Lemma worker_iteration_resolves :
  forall (document : Type) (json_loads : string -> result document)
         (HANDLERS : string -> option (Handler document))
         (base_delay : Z) (clk : nat -> datetime) (s s1 : Store) (job : Job),
    NoDup (map id (rows s)) ->
    get_next_pending_job (clk 0%nat) (clk 1%nat) s = (Some job, s1) ->
    (forall e, json_loads (payload job) = Raise e -> is_JSONDecodeError e = true) ->
    datetime_ok (clk 2%nat) ->
    (attempts job + 1 < max_attempts job ->
     datetime_ok (clk 2%nat + backoff base_delay (attempts job + 1) * 1000000)) ->
    exists ev s2 r',
      worker_iteration document json_loads HANDLERS base_delay clk s
      = (ev, Ok tt, s2)
      /\ get_job (id job) s2 = Some r'
      /\ (status r' = completed \/ status r' = pending \/ status r' = dlq).
Proof.
  intros document loads handlers b clk s s1 job Hnd Hclaim Hjson Hnow Hrange.
  destruct (get_next_pending_job_some _ _ _ _ _ Hnd Hclaim)
    as [_ [_ [_ [_ Hget]]]].
  unfold worker_iteration. rewrite Hclaim. unfold process_job.
  destruct (loads (payload job)) as [d|e] eqn:El.
  - destruct (handlers (type job)) as [handler|].
    + destruct (handler d) as [exc|].
      * unfold handle_job_failure.
        destruct (attempts job + 1 >=? max_attempts job) eqn:C.
        -- eexists. eexists. eexists. split; [reflexivity|].
           rewrite get_job_update by auto with store.
           rewrite Z.eqb_refl, Hget. simpl. split; [reflexivity|]. auto.
        -- assert (C' : attempts job + 1 < max_attempts job).
           { rewrite Z.geb_leb in C. apply Z.leb_gt in C. lia. }
           specialize (Hrange C'). unfold backoff in Hrange.
           rewrite (timedelta_in_range _ _ Hnow Hrange).
           rewrite (datetime_add_in_range _ _ Hrange).
           eexists. eexists. eexists. split; [reflexivity|].
           rewrite get_job_update by auto with store.
           rewrite Z.eqb_refl, Hget. simpl. split; [reflexivity|]. auto.
      * eexists. eexists. eexists. split; [reflexivity|].
        unfold mark_job_completed. rewrite get_job_update by auto with store.
        rewrite Z.eqb_refl, Hget. simpl. split; [reflexivity|]. auto.
    + eexists. eexists. eexists. split; [reflexivity|].
      unfold move_job_to_dlq. rewrite get_job_update by auto with store.
      rewrite Z.eqb_refl, Hget. simpl. split; [reflexivity|]. auto.
  - rewrite (Hjson e eq_refl).
    eexists. eexists. eexists. split; [reflexivity|].
    unfold move_job_to_dlq. rewrite get_job_update by auto with store.
    rewrite Z.eqb_refl, Hget. simpl. split; [reflexivity|]. auto.
Qed.

(** C7 fails when the backoff leaves the range of [datetime]: with
    [base_delay = 10^12] the worker claims the job, its handler raises,
    [handle_job_failure] raises [OverflowError] out of the [except]
    clause, the loop ends at its first turn, and the row stays
    [running]. *)
Theorem worker_stops_on_backoff_overflow :
  exists ev s',
    queue_run_worker 3 (10 ^ 12) clock_2025 failing_store
    = (ev, Raise (OverflowError "date value out of range"), s')
    /\ existsb is_JobFailed ev = true
    /\ get_job 1 s'
       = Some (set_running (clock_2025 1)
                 (enqueued_sample "print_message" failing_payload 3)).
Proof.
  eexists. eexists. split; [vm_compute; reflexivity|].
  split; reflexivity.
Qed.

(** ** Two callers of [get_next_pending_job] *)

(** Run one after the other, the two statements of a caller are
    [get_next_pending_job]. *)
Lemma advance_twice now t s :
  let '(c1, s1) := advance now NotStarted s in
  let '(c2, s2) := advance t c1 s1 in
  (c2, s2) = (Returned (fst (get_next_pending_job now t s)),
              snd (get_next_pending_job now t s)).
Proof.
  unfold advance, get_next_pending_job.
  destruct (select_next_pending now s); reflexivity.
Qed.

Lemma pending_after_mark_running t k s r :
  In r (rows (mark_running t k s)) -> status r = pending ->
  In r (rows s) /\ id r <> k.
Proof.
  unfold mark_running, update_where_id; simpl. intros Hin Hst.
  apply in_map_iff in Hin. destruct Hin as [x [E Hx]].
  destruct (id x =? k) eqn:C.
  - subst r. discriminate.
  - subst r. split; [exact Hx|]. apply Z.eqb_neq. exact C.
Qed.

(** X7: calls of [get_next_pending_job] made one after the other return
    rows that were pending at the start, and no row twice. *)
Lemma serial_claims_distinct times :
  forall s,
    NoDup (map id (rows s)) ->
    Forall (fun j => In j (rows s) /\ status j = pending)
      (claimed (fst (serial_claims times s)))
    /\ NoDup (map id (claimed (fst (serial_claims times s)))).
Proof.
  induction times as [|[now t] rest IH]; intros s Hnd; simpl.
  - split; constructor.
  - destruct (get_next_pending_job now t s) as [r s1] eqn:E.
    destruct (serial_claims rest s1) as [rs s2] eqn:Es. simpl.
    destruct r as [job|].
    + destruct (get_next_pending_job_some _ _ _ _ _ Hnd E)
        as [Hin [Hst [_ [Hs1 _]]]].
      assert (Hnd1 : NoDup (map id (rows s1))).
      { subst s1. unfold mark_running.
        rewrite map_id_update; auto with store. }
      destruct (IH s1 Hnd1) as [Hall Hdis]. rewrite Es in *. simpl in *.
      assert (Hold : Forall (fun j => (In j (rows s) /\ status j = pending)
                                      /\ id j <> id job) (claimed rs)).
      { rewrite Forall_forall in *. intros j Hj.
        destruct (Hall j Hj) as [Hj1 Hj2]. subst s1.
        destruct (pending_after_mark_running _ _ _ _ Hj1 Hj2). auto. }
      split.
      * constructor; [auto|].
        eapply Forall_impl; [|exact Hold]. simpl. tauto.
      * constructor; [|exact Hdis].
        intro Hc. apply in_map_iff in Hc. destruct Hc as [j [Ej Hj]].
        rewrite Forall_forall in Hold. destruct (Hold j Hj) as [_ Hne].
        contradiction.
    + assert (Hs : s1 = s).
      { unfold get_next_pending_job in E.
        destruct (select_next_pending now s); inversion E; reflexivity. }
      subst s1. specialize (IH s Hnd). rewrite Es in IH. exact IH.
Qed.

(** C8 fails: when the second caller runs its [SELECT] before the first
    has run its [UPDATE], both calls return the one ready job. *)
Theorem interleaved_claims_return_same_job :
  let sched := [(0%nat, clock_2025 1); (1%nat, clock_2025 2);
                (0%nat, clock_2025 3); (1%nat, clock_2025 4)] in
  let '(calls, s') := run_schedule 2 sched one_ready in
  all_returned calls = true
  /\ results calls
     = [Some (enqueued_sample "print_message" failing_payload 3);
        Some (enqueued_sample "print_message" failing_payload 3)].
Proof. vm_compute. split; reflexivity. Qed.

(** * The rest of the store, the worker and the command line *)

(** ** [list_jobs] *)

Lemma insert_by_id_desc_perm r l : Permutation (r :: l) (insert_by_id_desc r l).
Proof.
  induction l as [|x l IH]; simpl; [apply Permutation_refl|].
  destruct (id x <=? id r); [apply Permutation_refl|].
  eapply perm_trans; [apply perm_swap|]. apply perm_skip. exact IH.
Qed.

Lemma order_by_id_desc_perm l : Permutation l (order_by_id_desc l).
Proof.
  induction l as [|r l IH]; simpl; [constructor|].
  eapply perm_trans; [apply perm_skip; exact IH|].
  apply insert_by_id_desc_perm.
Qed.

Lemma insert_by_id_desc_sorted r l :
  StronglySorted (fun a b => id b <= id a) l ->
  StronglySorted (fun a b => id b <= id a) (insert_by_id_desc r l).
Proof.
  induction l as [|x l IH]; simpl; intro H.
  - constructor; constructor.
  - inversion H as [|? ? Hl Hx]; subst.
    destruct (id x <=? id r) eqn:C.
    + apply Z.leb_le in C. constructor; [exact H|].
      constructor; [exact C|].
      eapply Forall_impl; [|exact Hx]. simpl. intros; lia.
    + apply Z.leb_gt in C. constructor; [apply IH; exact Hl|].
      apply (Permutation_Forall (insert_by_id_desc_perm r l)).
      constructor; [lia|exact Hx].
Qed.

Lemma order_by_id_desc_sorted l :
  StronglySorted (fun a b => id b <= id a) (order_by_id_desc l).
Proof.
  induction l as [|r l IH]; simpl; [constructor|].
  apply insert_by_id_desc_sorted. exact IH.
Qed.

(** X1: [list_jobs] returns the rows in the order of descending id, and
    they are the rows of the table with the status asked for, each once;
    with no status, or with the empty string, they are all the rows. *)
Theorem list_jobs_sorted_selection :
  forall (status_arg : option string) (s : Store),
    StronglySorted (fun a b => id b <= id a) (list_jobs status_arg s)
    /\ Permutation (list_jobs status_arg s)
         (filter (listed status_arg) (rows s)).
Proof.
  intros st s. unfold list_jobs, listed.
  destruct st as [[|c st]|].
  - split; [apply order_by_id_desc_sorted|].
    apply Permutation_sym. simpl.
    rewrite forallb_filter_id by (apply forallb_forall; auto).
    apply order_by_id_desc_perm.
  - split; [apply order_by_id_desc_sorted|].
    apply Permutation_sym. apply order_by_id_desc_perm.
  - split; [apply order_by_id_desc_sorted|].
    apply Permutation_sym.
    rewrite forallb_filter_id by (apply forallb_forall; auto).
    apply order_by_id_desc_perm.
Qed.

(** ** Calls on an id that is not in the table *)




(** ** [enqueue_job] *)



Lemma primary_key_snoc l q x :
  primary_key (mkStore l q) -> id x = q + 1 ->
  primary_key (mkStore (l ++ [x]) (q + 1)).
Proof.
  intros [Hnd [Hrange Hseq]] Hx. simpl in *. split; [|split]; simpl.
  - rewrite map_app; simpl. apply NoDup_app; [exact Hnd| |].
    { repeat constructor; simpl; tauto. }
    intros k Hk [<-|[]]. apply in_map_iff in Hk.
    destruct Hk as [r [E Hr]]. rewrite Forall_forall in Hrange.
    specialize (Hrange r Hr). lia.
  - apply Forall_app. split.
    + eapply Forall_impl; [|exact Hrange]. simpl; intros; lia.
    + repeat constructor; simpl; lia.
  - lia.
Qed.



(** ** The updates look at the id only *)

Lemma update_where_id_twice job_id f g s :
  keeps_id f -> (forall r, g (f r) = g r) ->
  update_where_id job_id g (update_where_id job_id f s)
  = update_where_id job_id g s.
Proof.
  intros Hf Hg. unfold update_where_id; simpl. f_equal.
  rewrite map_map. apply map_ext. intro r.
  destruct (id r =? job_id) eqn:E.
  - rewrite Hf, E. apply Hg.
  - rewrite E. reflexivity.
Qed.

(** X4: [mark_job_completed] and [move_job_to_dlq] do not look at the
    status the row has: called again they only move [updated_at] (and
    replace the error text), and [move_job_to_dlq] on a completed job puts
    it in [dlq] as if it had never been completed. *)
Theorem later_update_overwrites :
  forall (job_id : Z) (m m' : string) (t t' : datetime) (s : Store),
    mark_job_completed job_id t' (mark_job_completed job_id t s)
    = mark_job_completed job_id t' s
    /\ move_job_to_dlq job_id m' t' (move_job_to_dlq job_id m t s)
       = move_job_to_dlq job_id m' t' s
    /\ move_job_to_dlq job_id m' t' (mark_job_completed job_id t s)
       = move_job_to_dlq job_id m' t' s.
Proof.
  intros. unfold mark_job_completed, move_job_to_dlq.
  repeat split; apply update_where_id_twice; auto with store;
    intro r; reflexivity.
Qed.

(** ** When [handle_job_failure] raises *)

Lemma timedelta_raises now seconds e :
  datetime_ok now -> timedelta seconds = Raise e ->
  ~ datetime_ok (now + seconds * 1000000) /\ exc_name e = "OverflowError".
Proof.
  unfold datetime_ok, datetime_max, timedelta. intros Hn H.
  destruct (Z.abs (seconds / 86400) <=? 999999999) eqn:C; [discriminate|].
  apply Z.leb_gt in C. split.
  - pose proof (Z.div_mod seconds 86400 ltac:(lia)) as Hdm.
    pose proof (Z.mod_pos_bound seconds 86400 ltac:(lia)) as Hm.
    lia.
  - destruct ((- 2 ^ 31 <=? seconds / 86400) && (seconds / 86400 <? 2 ^ 31));
      inversion H; reflexivity.
Qed.

Lemma datetime_add_raises now delta e :
  datetime_add now delta = Raise e ->
  ~ datetime_ok (now + delta) /\ exc_name e = "OverflowError".
Proof.
  unfold datetime_ok, datetime_add. intro H.
  destruct (0 <=? now + delta) eqn:C1; simpl in H.
  - destruct (now + delta <=? datetime_max) eqn:C2; [discriminate|].
    apply Z.leb_gt in C2. inversion H. split; [lia|reflexivity].
  - apply Z.leb_gt in C1. inversion H. split; [lia|reflexivity].
Qed.

(** X5: for a clock reading in the range of [datetime] and a held row
    with a non-negative attempt count, [handle_job_failure] raises exactly
    when the job has attempts left and the time of the next attempt, [now]
    plus [base_delay * 2^(attempts + 1 - 1)] seconds, is outside the years 1
    to 9999; what it raises is then an [OverflowError], and the table is
    as it was. *)
Theorem handle_job_failure_raises_iff :
  forall (job : Job) (error_message : string) (base_delay : Z)
         (now t : datetime) (s : Store),
    datetime_ok now ->
    0 <= attempts job ->
    ((exists e, fst (handle_job_failure job error_message base_delay now t s)
                = Raise e)
     <-> attempts job + 1 < max_attempts job
         /\ ~ datetime_ok (now + backoff base_delay (attempts job + 1) * 1000000))
    /\ (forall e,
           fst (handle_job_failure job error_message base_delay now t s) = Raise e ->
           exc_name e = "OverflowError"
           /\ snd (handle_job_failure job error_message base_delay now t s) = s).
Proof.
  intros job m b now t s Hnow Hatt. unfold handle_job_failure, backoff.
  destruct (attempts job + 1 >=? max_attempts job) eqn:C; simpl.
  - rewrite Z.geb_leb in C. apply Z.leb_le in C. split.
    + split; [intros [e H]; discriminate|intros [H _]; lia].
    + intros e H; discriminate.
  - rewrite Z.geb_leb in C. apply Z.leb_gt in C.
    destruct (timedelta (b * 2 ^ (attempts job + 1 - 1))) as [delta|e] eqn:Ed.
    + assert (Hdelta : delta = b * 2 ^ (attempts job + 1 - 1) * 1000000).
      { unfold timedelta in Ed.
        destruct (Z.abs _ <=? 999999999); [inversion Ed; reflexivity|].
        destruct (_ && _); discriminate. }
      subst delta.
      destruct (datetime_add now _) as [next|e] eqn:Ea; simpl.
      * split.
        -- split; [intros [e H]; discriminate|].
           intros [_ H]. exfalso. apply H.
           unfold datetime_add in Ea.
           destruct (0 <=? _) eqn:C1; simpl in Ea; [|discriminate].
           destruct (_ <=? datetime_max) eqn:C2; [|discriminate].
           apply Z.leb_le in C1, C2. split; assumption.
        -- intros e H; discriminate.
      * destruct (datetime_add_raises _ _ _ Ea) as [Hout Hname]. split.
        -- split; [intros _; split; [lia|exact Hout]|intros _; eauto].
        -- intros e' H. inversion H; subst. split; [exact Hname|reflexivity].
    + simpl. destruct (timedelta_raises now _ _ Hnow Ed) as [Hout Hname]. split.
      * split; [intros _; split; [lia|exact Hout]|intros _; eauto].
      * intros e' H. inversion H; subst. split; [exact Hname|reflexivity].
Qed.

Lemma handle_job_failure_raises_iff_witness :
  let job := sample_job 1 running 0 3 0 in
  datetime_ok utc_2025 /\ 0 <= attempts job
  /\ ((exists e, fst (handle_job_failure job "boom" (10 ^ 12) utc_2025 utc_2025
                        running_sample) = Raise e)
      <-> attempts job + 1 < max_attempts job
          /\ ~ datetime_ok (utc_2025 + backoff (10 ^ 12) (attempts job + 1) * 1000000))
  /\ (forall e,
         fst (handle_job_failure job "boom" (10 ^ 12) utc_2025 utc_2025
                running_sample) = Raise e ->
         exc_name e = "OverflowError"
         /\ snd (handle_job_failure job "boom" (10 ^ 12) utc_2025 utc_2025
                   running_sample) = running_sample).
Proof.
  intro job.
  assert (H1 : datetime_ok utc_2025)
    by (unfold datetime_ok, datetime_max, utc_2025; lia).
  assert (H2 : 0 <= attempts job) by (simpl; lia).
  split; [exact H1|]. split; [exact H2|].
  exact (handle_job_failure_raises_iff job "boom" (10 ^ 12) utc_2025 utc_2025
           running_sample H1 H2).
Defined.

(** ** [retry_dlq_job], then the next calls *)

Lemma order_by_id_limit_1_some l r :
  In r l -> exists m, order_by_id_limit_1 l = Some m /\ id m <= id r.
Proof.
  intro Hin. destruct (order_by_id_limit_1 l) as [m|] eqn:E.
  - exists m. split; [reflexivity|].
    apply order_by_id_limit_1_least in E. apply E. exact Hin.
  - apply order_by_id_limit_1_none in E. subst l. contradiction.
Qed.

(** X6: once [retry_dlq_job] has returned, the job is ready at once:
    [get_next_pending_job] at that time or later finds a job whose id is
    not above it; and a second [retry_dlq_job] of the same id is rejected,
    since the job is now pending, and changes nothing. *)
Theorem retry_dlq_job_then_claim_or_retry :
  forall (job_id : Z) (now t : datetime) (s s' : Store),
    retry_dlq_job job_id now t s = (Ok tt, s') ->
    (forall now', now <= now' ->
       exists job, select_next_pending now' s' = Some job /\ id job <= job_id)
    /\ (forall now' t',
          retry_dlq_job job_id now' t' s'
          = (Raise (ValueError ("Job #" ++ str_int job_id
                                  ++ " is not in DLQ (status=pending)")), s')).
Proof.
  intros job_id now t s s' H. unfold retry_dlq_job in H.
  destruct (get_job job_id s) as [job|] eqn:Eg; [|discriminate].
  destruct (negb (status_eqb (status job) dlq)); [discriminate|].
  inversion H; subst s'; clear H.
  assert (Hget : get_job job_id (update_where_id job_id (set_requeued now t) s)
                 = Some (set_requeued now t job)).
  { rewrite get_job_update by auto with store.
    rewrite Z.eqb_refl, Eg. reflexivity. }
  split.
  - intros now' Hle. destruct (get_job_In _ _ _ Hget) as [Hin Hid].
    assert (Hready : In (set_requeued now t job)
                       (filter (ready now')
                          (rows (update_where_id job_id (set_requeued now t) s)))).
    { apply filter_In. split; [exact Hin|].
      apply ready_spec. simpl. split; [reflexivity|exact Hle]. }
    destruct (order_by_id_limit_1_some _ _ Hready) as [m [Hm Hle']].
    exists m. split; [exact Hm|]. rewrite <- Hid. exact Hle'.
  - intros now' t'. unfold retry_dlq_job. rewrite Hget. reflexivity.
Qed.

Lemma retry_dlq_job_then_claim_or_retry_witness :
  let s := mkStore [sample_job 1 dlq 3 3 0] 1 in
  let s' := mkStore [set_requeued utc_2025 utc_2025 (sample_job 1 dlq 3 3 0)] 1 in
  retry_dlq_job 1 utc_2025 utc_2025 s = (Ok tt, s')
  /\ (forall now', utc_2025 <= now' ->
        exists job, select_next_pending now' s' = Some job /\ id job <= 1)
  /\ (forall now' t',
        retry_dlq_job 1 now' t' s'
        = (Raise (ValueError ("Job #" ++ str_int 1
                                ++ " is not in DLQ (status=pending)")), s')).
Proof.
  intros s s'.
  assert (H : retry_dlq_job 1 utc_2025 utc_2025 s = (Ok tt, s')) by reflexivity.
  split; [exact H|].
  exact (retry_dlq_job_then_claim_or_retry 1 utc_2025 utc_2025 s s' H).
Defined.

(** ** What every reachable table records *)

Lemma turn_update_keeps_id h t2 t3 f : turn_update h t2 t3 f -> keeps_id f.
Proof. intros [m| |m ?|m a ?] r; reflexivity. Qed.

Lemma turn_update_same_identity h t2 t3 f :
  turn_update h t2 t3 f -> forall r, same_identity r (f r).
Proof. intros [m| |m ?|m a ?] r; repeat split. Qed.

Lemma turn_update_recorded h t2 t3 f r :
  turn_update h t2 t3 f -> attempts r = attempts h ->
  row_recorded r -> row_recorded (f r).
Proof.
  intros Hf Ha [Hs [Hn He]].
  destruct Hf as [m| |m ?|m a ?]; unfold row_recorded; simpl.
  - split; [discriminate|]. split; [exact Hn|]. intros _; discriminate.
  - split; [discriminate|]. split; [exact Hn|].
    intros [H|H]; [apply He; left; exact H|discriminate].
  - split; [discriminate|]. split; [lia|]. intros _; discriminate.
  - split; [discriminate|]. split; [lia|]. intros _; discriminate.
Qed.

Section Lifecycle.

Variable document : Type.
Variable json_dumps : document -> result string.
Variable json_loads : string -> result document.
Variable HANDLERS : string -> option (Handler document).

#[warnings="-notation-for-abbreviation"] Notation process_job := (process_job document json_loads HANDLERS).
#[warnings="-notation-for-abbreviation"] Notation step := (step document json_dumps json_loads HANDLERS).
#[warnings="-notation-for-abbreviation"] Notation run := (run document json_dumps json_loads HANDLERS).
#[warnings="-notation-for-abbreviation"] Notation failure_path := (failure_path document json_loads HANDLERS).

(** The end of a worker's turn leaves the table as it is or makes one of
    the four updates on the rows of the held id; the attempt count moves
    only on the path through [handle_job_failure]. *)
Lemma process_job_turn base_delay t2 t3 h s :
  (snd (process_job base_delay t2 t3 h s) = s
   \/ exists f,
        turn_update h t2 t3 f
        /\ snd (process_job base_delay t2 t3 h s) = update_where_id (id h) f s
        /\ (forall r, attempts (f r) = attempts r
                      \/ attempts (f r) = attempts h + 1
                         /\ existsb is_JobFailed
                              (fst (fst (process_job base_delay t2 t3 h s)))
                            = true)).
Proof.
  unfold process_job.
  destruct (json_loads (payload h)) as [d|e].
  - destruct (HANDLERS (type h)) as [handler|].
    + destruct (handler d) as [exc|].
      * unfold handle_job_failure.
        destruct (attempts h + 1 >=? max_attempts h) eqn:C; simpl.
        -- rewrite Z.geb_leb in C. apply Z.leb_le in C.
           right. eexists. split; [apply turn_exhausted; exact C|].
           split; [reflexivity|]. intro r. right. split; reflexivity.
        -- rewrite Z.geb_leb in C. apply Z.leb_gt in C.
           destruct (timedelta _); [|left; reflexivity].
           destruct (datetime_add _ _); [|left; reflexivity].
           right. eexists. split; [apply turn_rescheduled; exact C|].
           split; [reflexivity|]. intro r. right. split; reflexivity.
      * right. eexists. split; [apply turn_completed|].
        split; [reflexivity|]. intro r. left. reflexivity.
    + right. eexists. split; [apply turn_dlq|].
      split; [reflexivity|]. intro r. left. reflexivity.
  - destruct (is_JSONDecodeError e); [|left; reflexivity].
    right. eexists. split; [apply turn_dlq|].
    split; [reflexivity|]. intro r. left. reflexivity.
Qed.

Lemma lifecycle_init : lifecycle init.
Proof.
  constructor; simpl.
  - apply primary_key_empty.
  - constructor.
  - constructor.
  - constructor.
Qed.

Lemma enqueue_lifecycle sys job_type payload max_attempts available_at t0 t1 t2 :
  lifecycle sys ->
  lifecycle (step sys (Enqueue document job_type payload max_attempts
                         available_at t0 t1 t2)).
Proof.
  intros [Hkey Hrows Hids Hheld].
  unfold step, enqueue_job.
  destruct (json_dumps payload) as [text|e]; simpl.
  2:{ constructor; assumption. }
  constructor; simpl.
  - destruct (db sys) as [l q]. apply primary_key_snoc; [exact Hkey|reflexivity].
  - apply Forall_app. split; [exact Hrows|].
    repeat constructor; simpl; try discriminate; try lia.
    intros [H|H]; [lia|discriminate].
  - exact Hids.
  - eapply Forall_impl; [|exact Hheld].
    intros h [r [Hg Hr]]. exists r. split; [|exact Hr].
    destruct (db sys) as [l q]. eapply get_job_snoc. exact Hg.
Qed.

Lemma claim_lifecycle sys now t :
  lifecycle sys -> lifecycle (step sys (Claim document now t)).
Proof.
  intros [Hkey Hrows Hids Hheld].
  pose proof Hkey as [Hnd _].
  unfold step.
  destruct (get_next_pending_job now t (db sys)) as [[job|] s1] eqn:E.
  2:{ unfold get_next_pending_job in E.
      destruct (select_next_pending now (db sys)); inversion E; subst.
      constructor; assumption. }
  destruct (get_next_pending_job_some _ _ _ _ _ Hnd E)
    as [Hin [Hst [_ [-> Hget]]]].
  assert (Hfresh : forall h, In h (held sys) -> id h <> id job).
  { intros h Hh. rewrite Forall_forall in Hheld.
    apply (held_row_running_not_pending (db sys) h job Hnd (Hheld h Hh) Hin Hst). }
  unfold mark_running. constructor; simpl.
  - apply primary_key_update; auto with store.
  - apply Forall_update; [exact Hrows|].
    intros r Hr _. rewrite Forall_forall in Hrows.
    destruct (Hrows r Hr) as [Hs [Hn He]]. unfold row_recorded; simpl.
    split; [discriminate|]. split; [exact Hn|].
    intros [H|H]; [apply He; left; exact H|discriminate].
  - rewrite map_app; simpl. apply NoDup_app; [exact Hids| |].
    { repeat constructor; simpl; tauto. }
    intros k Hk [<-|[]]. apply in_map_iff in Hk.
    destruct Hk as [h [E' Hh]]. apply (Hfresh h Hh). exact E'.
  - apply Forall_app. split.
    + rewrite Forall_forall in *. intros h Hh.
      apply held_row_update; auto with store.
    + repeat constructor. exists (set_running t job).
      split; [exact Hget|]. simpl. auto.
Qed.

Lemma resolve_lifecycle sys k base_delay t2 t3 :
  lifecycle sys -> lifecycle (step sys (Resolve document k base_delay t2 t3)).
Proof.
  intros [Hkey Hrows Hids Hheld].
  pose proof Hkey as [Hnd _].
  unfold step.
  destruct (nth_error (held sys) k) as [h|] eqn:Hk.
  2:{ constructor; assumption. }
  assert (Hh : held_row (db sys) h).
  { rewrite Forall_forall in Hheld. apply Hheld.
    eapply nth_error_In; exact Hk. }
  assert (Hrest : Forall (held_row (db sys)) (remove_nth k (held sys))).
  { rewrite Forall_forall in *. intros x Hx. apply Hheld.
    eapply In_remove_nth; exact Hx. }
  destruct (process_job_turn base_delay t2 t3 h (db sys))
    as [-> | [f [Hf [-> _]]]].
  - constructor; simpl; try assumption.
    apply NoDup_remove_nth; exact Hids.
  - pose proof (turn_update_keeps_id _ _ _ _ Hf) as Hid.
    constructor; simpl.
    + apply primary_key_update; assumption.
    + apply Forall_update; [exact Hrows|].
      intros r Hr E.
      destruct (held_row_limit _ _ _ Hnd Hh Hr E) as [_ [Ha _]].
      apply (turn_update_recorded h t2 t3 f r Hf Ha).
      rewrite Forall_forall in Hrows. apply Hrows; exact Hr.
    + apply NoDup_remove_nth; exact Hids.
    + rewrite Forall_forall in *. intros x Hx.
      apply held_row_update; [exact Hid| |apply Hrest; exact Hx].
      apply (remove_nth_other_id k (held sys) h x Hids Hk Hx).
Qed.

Lemma retry_lifecycle sys job_id now t :
  lifecycle sys -> lifecycle (step sys (Retry document job_id now t)).
Proof.
  intros [Hkey Hrows Hids Hheld].
  unfold step, retry_dlq_job.
  destruct (get_job job_id (db sys)) as [job|] eqn:E; simpl.
  2:{ constructor; assumption. }
  destruct (status_eqb (status job) dlq) eqn:St; simpl.
  2:{ constructor; assumption. }
  apply status_eqb_eq in St.
  constructor; simpl.
  - apply primary_key_update; auto with store.
  - apply Forall_update; [exact Hrows|].
    intros r Hr _. unfold row_recorded; simpl.
    split; [discriminate|]. split; [lia|].
    intros [H|H]; [lia|discriminate].
  - exact Hids.
  - rewrite Forall_forall in *. intros h Hh.
    apply held_row_update; auto with store.
    intro Eh. destruct (Hheld h Hh) as [r [Hg [Hs _]]].
    rewrite Eh, E in Hg. inversion Hg; subst. congruence.
Qed.

Lemma step_lifecycle sys o : lifecycle sys -> lifecycle (step sys o).
Proof.
  destruct o; intro H.
  - apply enqueue_lifecycle; exact H.
  - apply claim_lifecycle; exact H.
  - apply resolve_lifecycle; exact H.
  - apply retry_lifecycle; exact H.
Qed.

Lemma fold_lifecycle ops sys :
  lifecycle sys -> lifecycle (fold_left step ops sys).
Proof.
  revert sys. induction ops as [|o ops IH]; simpl; intros sys H; [exact H|].
  apply IH. apply step_lifecycle. exact H.
Qed.

Lemma run_lifecycle ops : lifecycle (run ops).
Proof. apply fold_lifecycle. apply lifecycle_init. Qed.

(** X9: after any sequence of calls of [enqueue_job],
    [get_next_pending_job], the end of a worker's turn and
    [retry_dlq_job], run one at a time, no row has the status [failed] that
    the schema lists, no attempt count is negative, and every row that
    has failed at least once or is in [dlq] has a [last_error]. *)
Theorem reachable_rows_recorded :
  forall ops : list (op document),
    Forall row_recorded (rows (db (run ops))).
Proof. intro ops. apply (life_rows _ (run_lifecycle ops)). Qed.

(** X10: when every call runs alone, no job is held by two workers at
    the same time, and a job a worker holds is [running] in the table with
    the attempt count and limit the worker was given: no other call
    touches it before the worker ends its turn. *)
Theorem held_jobs_are_exclusive :
  forall ops : list (op document),
    NoDup (map id (held (run ops)))
    /\ Forall (held_row (db (run ops))) (held (run ops)).
Proof.
  intro ops. split.
  - apply (life_held_ids _ (run_lifecycle ops)).
  - apply (life_held _ (run_lifecycle ops)).
Qed.

(** A call leaves a row alone unless the row is the pending row it
    claims, a running row it resolves, or the [dlq] row it retries. *)
Lemma step_changes sys o k r :
  lifecycle sys -> get_job k (db sys) = Some r ->
  get_job k (db (step sys o)) = Some r
  \/ (status r = pending /\ exists now t,
         o = Claim document now t
         /\ get_job k (db (step sys o)) = Some (set_running t r))
  \/ (status r = running /\ exists f,
         get_job k (db (step sys o)) = Some (f r)
         /\ same_identity r (f r)
         /\ (attempts (f r) = attempts r
             \/ attempts (f r) = attempts r + 1
                /\ failure_path sys o k = true))
  \/ (status r = dlq /\ exists now t,
         o = Retry document k now t
         /\ get_job k (db (step sys o)) = Some (set_requeued now t r)).
Proof.
  intros [Hkey Hrows Hids Hheld] Hg.
  pose proof Hkey as [Hnd _].
  destruct o as [jt p m av t0 t1 t2|now t|i b t2 t3|j now t]; simpl.
  - left. unfold enqueue_job.
    destruct (json_dumps p); simpl; [|exact Hg].
    destruct (db sys) as [l q]. eapply get_job_snoc. exact Hg.
  - destruct (get_next_pending_job now t (db sys)) as [[job|] s1] eqn:E.
    2:{ left. unfold get_next_pending_job in E.
        destruct (select_next_pending now (db sys)); inversion E; subst.
        exact Hg. }
    destruct (get_next_pending_job_some _ _ _ _ _ Hnd E)
      as [Hin [Hst [_ [-> Hget]]]]. simpl.
    destruct (k =? id job) eqn:Ek.
    + apply Z.eqb_eq in Ek. subst k.
      rewrite (In_get_job _ _ Hnd Hin) in Hg. inversion Hg; subst r.
      right. left. split; [exact Hst|]. exists now, t.
      split; [reflexivity|exact Hget].
    + left. unfold mark_running. rewrite get_job_update by auto with store.
      rewrite Ek. exact Hg.
  - destruct (nth_error (held sys) i) as [h|] eqn:Hi; [|left; exact Hg].
    assert (Hh : held_row (db sys) h).
    { rewrite Forall_forall in Hheld. apply Hheld.
      eapply nth_error_In; exact Hi. }
    simpl.
    destruct (process_job_turn b t2 t3 h (db sys))
      as [-> | [f [Hf [-> Hatt]]]]; [left; exact Hg|].
    rewrite get_job_update by (eapply turn_update_keeps_id; exact Hf).
    destruct (k =? id h) eqn:Ek; [|left; exact Hg].
    apply Z.eqb_eq in Ek. subst k.
    destruct Hh as [r0 [Hg0 [Hs [Ha _]]]].
    rewrite Hg in Hg0. inversion Hg0; subst r0.
    right. right. left. split; [exact Hs|]. exists f.
    rewrite Hg. split; [reflexivity|].
    split; [apply (turn_update_same_identity _ _ _ _ Hf)|].
    destruct (Hatt r) as [H|[H1 H2]]; [left; exact H|right].
    split; [lia|]. rewrite Z.eqb_refl. exact H2.
  - unfold retry_dlq_job.
    destruct (get_job j (db sys)) as [job|] eqn:E; simpl; [|left; exact Hg].
    destruct (status_eqb (status job) dlq) eqn:St; simpl; [|left; exact Hg].
    apply status_eqb_eq in St.
    rewrite get_job_update by auto with store.
    destruct (k =? j) eqn:Ek; [|left; exact Hg].
    apply Z.eqb_eq in Ek. subst j.
    rewrite Hg in E. inversion E; subst job.
    right. right. right. split; [exact St|]. exists now, t.
    rewrite Hg. split; reflexivity.
Qed.


Lemma step_keeps_completed sys o k r :
  lifecycle sys -> get_job k (db sys) = Some r -> status r = completed ->
  get_job k (db (step sys o)) = Some r.
Proof.
  intros Hl Hg Hs.
  destruct (step_changes sys o k r Hl Hg)
    as [H | [[H _] | [[H _] | [H _]]]]; [exact H| | |]; congruence.
Qed.

(** X11: a completed job is final: whatever calls follow
    ([enqueue_job], claims, ends of turns, [retry_dlq_job], run one at a
    time), its row stays exactly as the completion left it. *)
Theorem completed_row_is_final :
  forall (ops more : list (op document)) (k : Z) (r : Job),
    get_job k (db (run ops)) = Some r ->
    status r = completed ->
    get_job k (db (run (ops ++ more))) = Some r.
Proof.
  intros ops more k r Hg Hs. unfold run. rewrite fold_left_app.
  pose proof (run_lifecycle ops) as Hl. unfold run in Hl, Hg.
  revert Hl Hg. generalize (fold_left step ops init).
  induction more as [|o more IH]; simpl; intros sys Hl Hg; [exact Hg|].
  apply IH.
  - apply step_lifecycle. exact Hl.
  - apply step_keeps_completed; assumption.
Qed.

(** X12: one call changes the attempt count of a row in one of two
    ways only: the end of a worker's turn whose handler raised adds one to
    it, and [retry_dlq_job] of a job in [dlq] sets it to zero. *)
Theorem attempts_move_by_failure_or_retry :
  forall (ops : list (op document)) (o : op document) (k : Z) (r r' : Job),
    get_job k (db (run ops)) = Some r ->
    get_job k (db (step (run ops) o)) = Some r' ->
    attempts r' = attempts r
    \/ (attempts r' = attempts r + 1 /\ failure_path (run ops) o k = true)
    \/ (attempts r' = 0 /\ status r = dlq
        /\ exists now t, o = Retry document k now t).
Proof.
  intros ops o k r r' Hg Hg'.
  destruct (step_changes (run ops) o k r (run_lifecycle ops) Hg)
    as [H | [[_ [now [t [_ H]]]] | [[_ [f [H [_ Ha]]]] | [Hs [now [t [Ho H]]]]]]];
    rewrite H in Hg'; inversion Hg'; subst r'; clear Hg'.
  - left; reflexivity.
  - left; reflexivity.
  - destruct Ha as [Ha|Ha]; [left; exact Ha|right; left; exact Ha].
  - right; right. split; [reflexivity|]. split; [exact Hs|]. eauto.
Qed.


Lemma same_identity_trans r1 r2 r3 :
  same_identity r1 r2 -> same_identity r2 r3 -> same_identity r1 r3.
Proof.
  unfold same_identity. intros [A1 [A2 [A3 [A4 A5]]]] [B1 [B2 [B3 [B4 B5]]]].
  repeat split; congruence.
Qed.

Lemma step_keeps_identity sys o k r :
  lifecycle sys -> get_job k (db sys) = Some r ->
  exists r', get_job k (db (step sys o)) = Some r' /\ same_identity r r'.
Proof.
  intros Hl Hg.
  destruct (step_changes sys o k r Hl Hg)
    as [H | [[_ [now [t [_ H]]]] | [[_ [f [H [Hi _]]]] | [_ [now [t [_ H]]]]]]];
    eexists; (split; [exact H|]); try exact Hi; repeat split.
Qed.

(** X14: no call removes a row or changes its [id], [type], [payload],
    [max_attempts] or [created_at]: a job found in the table is found,
    with these columns as they were, after any further calls. *)
Theorem rows_keep_their_identity :
  forall (ops more : list (op document)) (k : Z) (r : Job),
    get_job k (db (run ops)) = Some r ->
    exists r',
      get_job k (db (run (ops ++ more))) = Some r' /\ same_identity r r'.
Proof.
  intros ops more k r Hg. unfold run. rewrite fold_left_app.
  pose proof (run_lifecycle ops) as Hl. unfold run in Hl, Hg.
  revert r Hl Hg. generalize (fold_left step ops init).
  induction more as [|o more IH]; simpl; intros sys r Hl Hg.
  - exists r. split; [exact Hg|repeat split].
  - destruct (step_keeps_identity sys o k r Hl Hg) as [r1 [Hg1 Hi1]].
    destruct (IH (step sys o) r1 (step_lifecycle _ _ Hl) Hg1) as [r2 [Hg2 Hi2]].
    exists r2. split; [exact Hg2|].
    eapply same_identity_trans; eassumption.
Qed.

End Lifecycle.

(** ** The calls above on sample runs *)

Lemma completed_row_is_final_witness :
  get_job 1 (db (queue_run completed_run)) = Some completed_sample
  /\ status completed_sample = completed
  /\ get_job 1 (db (queue_run (completed_run ++ later_calls)))
     = Some completed_sample.
Proof.
  assert (H : get_job 1 (db (queue_run completed_run)) = Some completed_sample)
    by (vm_compute; reflexivity).
  split; [exact H|]. split; [reflexivity|].
  exact (completed_row_is_final pyval json_dumps json_loads (HANDLERS print_ok)
           completed_run later_calls 1 completed_sample H eq_refl).
Defined.

Lemma attempts_move_by_failure_or_retry_witness :
  get_job 1 (db (queue_run one_shot)) = Some claimed_sample
  /\ get_job 1 (db (queue_step (queue_run one_shot) one_shot_end))
     = Some exhausted_sample
  /\ (attempts exhausted_sample = attempts claimed_sample
      \/ (attempts exhausted_sample = attempts claimed_sample + 1
          /\ queue_failure_path (queue_run one_shot) one_shot_end 1 = true)
      \/ (attempts exhausted_sample = 0 /\ status claimed_sample = dlq
          /\ exists now t, one_shot_end = Retry pyval 1 now t)).
Proof.
  assert (H1 : get_job 1 (db (queue_run one_shot)) = Some claimed_sample)
    by (vm_compute; reflexivity).
  assert (H2 : get_job 1 (db (queue_step (queue_run one_shot) one_shot_end))
               = Some exhausted_sample) by (vm_compute; reflexivity).
  split; [exact H1|]. split; [exact H2|].
  exact (attempts_move_by_failure_or_retry pyval json_dumps json_loads
           (HANDLERS print_ok) one_shot one_shot_end 1 claimed_sample
           exhausted_sample H1 H2).
Defined.


Lemma rows_keep_their_identity_witness :
  get_job 1 (db (queue_run one_shot)) = Some claimed_sample
  /\ exists r',
       get_job 1 (db (queue_run (one_shot ++ [one_shot_end; retry_sample])))
       = Some r'
       /\ same_identity claimed_sample r'.
Proof.
  assert (H : get_job 1 (db (queue_run one_shot)) = Some claimed_sample)
    by (vm_compute; reflexivity).
  split; [exact H|].
  exact (rows_keep_their_identity pyval json_dumps json_loads
           (HANDLERS print_ok) one_shot [one_shot_end; retry_sample] 1
           claimed_sample H).
Defined.

Lemma serial_claims_distinct_witness :
  NoDup (map id (rows sample_store))
  /\ Forall (fun j => In j (rows sample_store) /\ status j = pending)
       (claimed (fst (serial_claims six_readings sample_store)))
  /\ NoDup (map id (claimed (fst (serial_claims six_readings sample_store)))).
Proof.
  assert (H : NoDup (map id (rows sample_store)))
    by (apply sample_store_primary_key).
  split; [exact H|].
  exact (serial_claims_distinct six_readings sample_store H).
Defined.

Lemma worker_iteration_resolves_witness :
  exists ev s2 r',
    queue_worker_iteration 5 clock_2025 failing_store = (ev, Ok tt, s2)
    /\ get_job 1 s2 = Some r'
    /\ (status r' = completed \/ status r' = pending \/ status r' = dlq).
Proof.
  apply (worker_iteration_resolves pyval json_loads (HANDLERS print_ok) 5
           clock_2025 failing_store
           (mark_running (clock_2025 1) 1 failing_store)
           (enqueued_sample "print_message" failing_payload 3)).
  - simpl. repeat constructor. simpl. tauto.
  - vm_compute. reflexivity.
  - intros e H. vm_compute in H. discriminate.
  - unfold datetime_ok, datetime_max, clock_2025, utc_2025. lia.
  - intros _. unfold datetime_ok, datetime_max, clock_2025, utc_2025, backoff.
    simpl. lia.
Defined.

(** ** Turns of the worker, again *)






(** X16: a turn whose handler returns marks the job completed and
    changes nothing else of it but [updated_at]: the attempt count, the
    time it was available and the error text of an earlier failure stay,
    and every other row is as it was. *)
Theorem successful_turn_completes :
  forall (document : Type) (json_loads : string -> result document)
         (HANDLERS : string -> option (Handler document))
         (base_delay : Z) (clk : nat -> datetime) (s s1 : Store) (job : Job)
         (d : document) (handler : Handler document),
    NoDup (map id (rows s)) ->
    get_next_pending_job (clk 0%nat) (clk 1%nat) s = (Some job, s1) ->
    json_loads (payload job) = Ok d ->
    HANDLERS (type job) = Some handler ->
    handler d = None ->
    exists s2,
      worker_iteration document json_loads HANDLERS base_delay clk s
      = ([Picked (id job) (type job); Executing (id job);
          Invoke (type job) d; JobCompleted (id job)], Ok tt, s2)
      /\ get_job (id job) s2
         = Some (mkJob (id job) (type job) (payload job) completed
                   (attempts job) (max_attempts job) (available_at job)
                   (last_error job) (created_at job) (clk 2%nat))
      /\ (forall k, k <> id job -> get_job k s2 = get_job k s).
Proof.
  intros document loads handlers b clk s s1 job d handler Hnd Hclaim Hl Hh Hd.
  destruct (get_next_pending_job_some _ _ _ _ _ Hnd Hclaim)
    as [_ [_ [_ [Hs1 Hget]]]].
  unfold worker_iteration. rewrite Hclaim. unfold process_job.
  rewrite Hl, Hh, Hd. eexists. split; [reflexivity|].
  unfold mark_job_completed. split.
  - rewrite get_job_update by auto with store.
    rewrite Z.eqb_refl, Hget. reflexivity.
  - intros k Hk. rewrite get_job_update by auto with store.
    apply Z.eqb_neq in Hk. rewrite Hk. subst s1. unfold mark_running.
    rewrite get_job_update by auto with store. rewrite Hk. reflexivity.
Qed.

Lemma successful_turn_completes_witness :
  let job := enqueued_sample "print_message" list_payload 3 in
  exists s2,
    queue_worker_iteration 5 clock_2025 ready_list_store
    = ([Picked (id job) (type job); Executing (id job);
        Invoke (type job) list_payload; JobCompleted (id job)], Ok tt, s2)
    /\ get_job (id job) s2
       = Some (mkJob (id job) (type job) (payload job) completed
                 (attempts job) (max_attempts job) (available_at job)
                 (last_error job) (created_at job) (clock_2025 2))
    /\ (forall k, k <> id job -> get_job k s2 = get_job k ready_list_store).
Proof.
  intro job.
  apply (successful_turn_completes pyval json_loads (HANDLERS print_ok) 5
           clock_2025 ready_list_store
           (mark_running (clock_2025 1) 1 ready_list_store) job list_payload
           (print_message_handler print_ok)).
  - simpl. repeat constructor. simpl. tauto.
  - vm_compute. reflexivity.
  - vm_compute. reflexivity.
  - reflexivity.
  - reflexivity.
Defined.

(** ** A job whose handler always raises *)

Lemma select_only_pending now r s :
  only_pending r s -> available_at r <= now ->
  select_next_pending now s = Some r.
Proof.
  intros [Hin [Hst Honly]] Hav. unfold select_next_pending.
  assert (Hr : In r (filter (ready now) (rows s))).
  { apply filter_In. split; [exact Hin|]. apply ready_spec. auto. }
  destruct (order_by_id_limit_1_some _ _ Hr) as [m [Hm _]].
  rewrite Hm. f_equal.
  apply order_by_id_limit_1_least in Hm. destruct Hm as [Hm _].
  apply filter_In in Hm. destruct Hm as [Hm1 Hm2].
  apply ready_spec in Hm2. apply Honly; tauto.
Qed.

Lemma only_pending_rescheduled r s f g :
  NoDup (map id (rows s)) -> only_pending r s ->
  keeps_id f -> keeps_id g -> status (g (f r)) = pending ->
  only_pending (g (f r))
    (update_where_id (id r) g (update_where_id (id r) f s)).
Proof.
  intros Hnd [Hin [Hst Honly]] Hf Hg Hp.
  assert (Hrows : forall x,
             In x (rows (update_where_id (id r) g (update_where_id (id r) f s)))
             <-> exists y, In y (rows s)
                           /\ x = if id y =? id r then g (f y) else y).
  { intro x. unfold update_where_id; simpl. rewrite map_map, in_map_iff.
    split; intros [y [E Hy]]; exists y.
    - split; [exact Hy|]. subst x.
      destruct (id y =? id r) eqn:C; [rewrite Hf, C|rewrite C]; reflexivity.
    - split; [|exact E]. subst x.
      destruct (id y =? id r) eqn:C; [rewrite Hf, C|rewrite C]; reflexivity. }
  split; [|split; [exact Hp|]].
  - apply Hrows. exists r. split; [exact Hin|]. rewrite Z.eqb_refl. reflexivity.
  - intros x Hx Hxs. apply Hrows in Hx. destruct Hx as [y [Hy ->]].
    destruct (id y =? id r) eqn:C.
    + apply Z.eqb_eq in C.
      rewrite (same_id_same_row s y r Hnd Hy Hin C). reflexivity.
    + rewrite (Honly y Hy Hxs), Z.eqb_refl in C. discriminate.
Qed.

(** X17: a pending job whose handler raises at every attempt, and which
    is the only pending job of the table, is in [dlq] after exactly
    [max_attempts - attempts] turns of the worker that find it ready, when
    the backoff times stay in the range of [datetime]: the handler has run
    that many times, the attempt count is [max_attempts], and [last_error]
    is the text of the exception. *)
Theorem failing_job_reaches_dlq :
  forall (document : Type) (json_loads : string -> result document)
         (HANDLERS : string -> option (Handler document))
         (d : document) (handler : Handler document) (exc : exn)
         (base_delay : Z) (n : nat) (clk : nat -> datetime) (s : Store)
         (r : Job),
    NoDup (map id (rows s)) ->
    only_pending r s ->
    0 <= attempts r ->
    json_loads (payload r) = Ok d ->
    HANDLERS (type r) = Some handler ->
    handler d = Some exc ->
    (1 <= n)%nat ->
    attempts r + Z.of_nat n = max_attempts r ->
    available_at r <= clk 0%nat ->
    backoff_schedule clk base_delay (attempts r) n ->
    exists ev s' r',
      run_loop document json_loads HANDLERS n base_delay clk s = (ev, Ok tt, s')
      /\ get_job (id r) s' = Some r'
      /\ status r' = dlq
      /\ attempts r' = max_attempts r
      /\ last_error r' = Some (error_text exc)
      /\ List.length (filter is_JobFailed ev) = n.
Proof.
  intros document loads handlers d handler exc b n.
  induction n as [|n IH];
    intros clk s r Hnd Honly Hatt Hl Hh Hd Hn Hmax Hav Hsched; [lia|].
  pose proof Honly as [Hin [Hst _]].
  cbn [run_loop]. unfold worker_iteration, get_next_pending_job.
  rewrite (select_only_pending _ _ _ Honly Hav).
  unfold process_job. rewrite Hl, Hh, Hd.
  assert (Hget : get_job (id r) (mark_running (clk 1%nat) (id r) s)
                 = Some (set_running (clk 1%nat) r)).
  { unfold mark_running. rewrite get_job_update by auto with store.
    rewrite Z.eqb_refl, (In_get_job s r Hnd Hin). reflexivity. }
  unfold handle_job_failure.
  destruct n as [|n].
  - assert (C : (attempts r + 1 >=? max_attempts r) = true).
    { rewrite Z.geb_leb. apply Z.leb_le. lia. }
    rewrite C. cbn [run_loop].
    eexists. eexists. eexists. split; [reflexivity|].
    rewrite get_job_update by auto with store.
    rewrite Z.eqb_refl, Hget. simpl.
    split; [reflexivity|]. split; [reflexivity|].
    split; [simpl; lia|]. split; reflexivity.
  - assert (C : (attempts r + 1 >=? max_attempts r) = false).
    { rewrite Z.geb_leb. apply Z.leb_gt. lia. }
    rewrite C.
    destruct (Hsched 0%nat ltac:(lia)) as [Hnow [Hnext Hle]].
    cbn [Nat.mul Nat.add Z.of_nat] in Hnow, Hnext, Hle.
    rewrite Z.add_0_r in Hnext, Hle. unfold backoff in Hnext, Hle.
    rewrite (timedelta_in_range _ _ Hnow Hnext).
    rewrite (datetime_add_in_range _ _ Hnext).
    match goal with |- context [set_rescheduled ?a ?nx ?m ?t] =>
      set (g := set_rescheduled a nx m t) end.
    assert (Hg : keeps_id g) by (intro x; reflexivity).
    unfold mark_running.
    destruct (IH (fun k => clk (4 + k)%nat)
                (update_where_id (id r) g
                   (update_where_id (id r) (set_running (clk 1%nat)) s))
                (g (set_running (clk 1%nat) r)))
      as [ev' [s' [r' [Hrun [Hg' [Hs' [Ha' [He' Hlen]]]]]]]].
    + rewrite !map_id_update by auto with store. exact Hnd.
    + apply only_pending_rescheduled; auto with store.
    + simpl. lia.
    + exact Hl.
    + exact Hh.
    + exact Hd.
    + lia.
    + simpl attempts. simpl max_attempts. lia.
    + exact Hle.
    + intros j Hj. destruct (Hsched (S j) ltac:(lia)) as [H1 [H2 H3]].
      replace (4 * S j + 2)%nat with (4 + (4 * j + 2))%nat in H1, H2, H3 by lia.
      replace (4 * (S j + 1))%nat with (4 + 4 * (j + 1))%nat in H3 by lia.
      replace (attempts r + Z.of_nat (S j) + 1)
        with (attempts r + 1 + Z.of_nat j + 1) in H2, H3 by lia.
      simpl attempts. auto.
    + rewrite Hrun. eexists. eexists. exists r'.
      split; [reflexivity|]. split; [exact Hg'|]. split; [exact Hs'|].
      split; [exact Ha'|]. split; [exact He'|].
      rewrite filter_app, length_app, Hlen. reflexivity.
Qed.

Lemma failing_job_reaches_dlq_witness :
  let r := enqueued_sample "print_message" failing_payload 3 in
  exists ev s' r',
    run_loop pyval json_loads (HANDLERS print_ok) 3 1 clock_2025 failing_store
    = (ev, Ok tt, s')
    /\ get_job (id r) s' = Some r'
    /\ status r' = dlq
    /\ attempts r' = max_attempts r
    /\ last_error r'
       = Some (error_text
                 (JobExecutionError "Simulated failure in print_message_handler"))
    /\ List.length (filter is_JobFailed ev) = 3%nat.
Proof.
  intro r.
  apply (failing_job_reaches_dlq pyval json_loads (HANDLERS print_ok)
           failing_payload (print_message_handler print_ok)
           (JobExecutionError "Simulated failure in print_message_handler")
           1 3 clock_2025 failing_store r).
  - simpl. repeat constructor. simpl. tauto.
  - split; [left; reflexivity|]. split; [reflexivity|].
    intros x [<-|[]] _. reflexivity.
  - simpl. lia.
  - vm_compute. reflexivity.
  - reflexivity.
  - reflexivity.
  - lia.
  - reflexivity.
  - unfold clock_2025. simpl. lia.
  - intros j Hj. destruct j as [|[|j]]; [| |lia];
      unfold datetime_ok, datetime_max, backoff, clock_2025, utc_2025;
      simpl; lia.
Defined.

(** ** [queuectl dlq retry] *)


(** ** What [json.loads] returns comes back from its own text *)

Section JsonStable.

Local Open Scope list_scope.

Ltac Zify.zify_post_hook ::= Z.to_euclidean_division_equations.

Lemma unpaired_merge s : unpaired s -> merge_surrogates s = s.
Proof.
  induction s as [|c s IH]; [reflexivity|].
  intros [Hc [Hp Hs]]. destruct s as [|lo s']; [reflexivity|].
  change (merge_surrogates (c :: lo :: s'))
    with (if is_high_surrogate c && is_low_surrogate lo
          then join_surrogates c lo :: merge_surrogates s'
          else c :: merge_surrogates (lo :: s')).
  rewrite (IH Hs).
  destruct (is_high_surrogate c); [|reflexivity].
  rewrite (Hp eq_refl). reflexivity.
Qed.

Lemma unpaired_code_points s : unpaired s -> code_points s.
Proof.
  induction s as [|c s IH]; [constructor|].
  intros [Hc [_ Hs]]. constructor; [exact Hc|apply IH; exact Hs].
Qed.

Lemma stable_well_formed obj : stable obj -> well_formed obj.
Proof.
  induction obj as [| b | n | s | items IH | items IH | items IH]
    using pyval_nested_ind; simpl; auto.
  - apply unpaired_code_points.
  - rewrite !all_map_Forall. intro H. eapply Forall_modus; eauto.
  - intros [].
  - intros [_ H]. rewrite all_map_Forall in *.
    rewrite Forall_forall in *. intros kv Hkv.
    destruct (H kv Hkv) as [Hk Hv]. split; [|apply IH; assumption].
    destruct (fst kv); simpl in *; try contradiction.
    apply unpaired_code_points; exact Hk.
Qed.

Lemma stable_norm obj : stable obj -> norm obj = obj.
Proof.
  induction obj as [| b | n | s | items IH | items IH | items IH]
    using pyval_nested_ind; simpl; auto.
  - intro H. rewrite unpaired_merge by exact H. reflexivity.
  - rewrite all_map_Forall. intro H. f_equal.
    induction items as [|x l IHl]; [reflexivity|].
    inversion IH; inversion H; subst. simpl. f_equal; auto.
  - intros [].
  - intros [Hnd H]. rewrite all_map_Forall in H. f_equal.
    assert (Hmap : map (fun kv => (merge_surrogates (key_text (fst kv)),
                                   norm (snd kv))) items
                   = map (fun kv => (key_text (fst kv), snd kv)) items).
    { clear Hnd. induction items as [|x l IHl]; [reflexivity|].
      inversion IH as [|? ? Hx Hl]; inversion H as [|? ? [Hk Hv] Hl']; subst.
      simpl. f_equal; [|auto].
      destruct x as [k v]. simpl in *.
      destruct k; simpl in *; try contradiction.
      rewrite unpaired_merge by exact Hk.
      f_equal. auto. }
    rewrite Hmap. unfold dict_of_pairs.
    assert (Hkeys : forall l : list (pykey * pyval),
               Forall (fun kv => unpaired_key (fst kv) /\ stable (snd kv)) l ->
               map (fun kv => (KStr (fst kv), snd kv))
                 (map (fun kv => (key_text (fst kv), snd kv)) l) = l
               /\ map (fun kv => KStr (fst kv))
                    (map (fun kv => (key_text (fst kv), snd kv)) l)
                  = map fst l).
    { clear. induction 1 as [|[k v] l [Hk _] _ [IH1 IH2]]; [split; reflexivity|].
      destruct k; simpl in *; try contradiction.
      rewrite IH1, IH2. split; reflexivity. }
    destruct (Hkeys items H) as [H1 H2].
    rewrite fold_dict_set_fresh.
    + simpl. exact H1.
    + simpl. rewrite H2. exact Hnd.
Qed.

(** *** The texts the decoder leaves *)

Lemma plain_text_tail c l : plain_text (c :: l) -> plain_text l.
Proof. intro H. inversion H. assumption. Qed.

Lemma skip_ws_plain text : plain_text text -> plain_text (skip_ws text).
Proof.
  induction text as [|c l IH]; simpl; intro H; [constructor|].
  destruct (is_ws c); [apply IH; eapply plain_text_tail; exact H|exact H].
Qed.

Lemma strip_prefix_plain p : forall text r,
  plain_text text -> strip_prefix p text = Some r -> plain_text r.
Proof.
  induction p as [|a p IH]; simpl; intros text r H E.
  - inversion E; subst. exact H.
  - destruct text as [|b text]; [discriminate|].
    destruct (a =? b)%N; [|discriminate].
    eapply IH; [|exact E]. eapply plain_text_tail; exact H.
Qed.

Lemma take_digits_plain text :
  plain_text text -> plain_text (snd (take_digits text)).
Proof.
  induction text as [|c l IH]; simpl; intro H; [constructor|].
  destruct (is_digit c); [|exact H].
  specialize (IH (plain_text_tail _ _ H)).
  destruct (take_digits l) as [u r]. exact IH.
Qed.

Lemma number_tail_plain text :
  plain_text text -> plain_text (snd (number_tail text)).
Proof.
  intro H. unfold number_tail.
  assert (H1 : plain_text
                 (snd (match text with
                       | c :: r =>
                           if (c =? 46)%N then
                             let '(u, r') := take_digits r in
                             if is_Nil u then (false, text) else (true, r')
                           else (false, text)
                       | [] => (false, text)
                       end))).
  { destruct text as [|c r]; [exact H|].
    destruct (c =? 46)%N; [|exact H].
    pose proof (take_digits_plain r (plain_text_tail _ _ H)) as Ht.
    destruct (take_digits r) as [u r']. destruct (is_Nil u); [exact H|exact Ht]. }
  destruct (match text with
            | c :: r =>
                if (c =? 46)%N then
                  let '(u, r') := take_digits r in
                  if is_Nil u then (false, text) else (true, r')
                else (false, text)
            | [] => (false, text)
            end) as [frac r1].
  simpl in H1.
  destruct r1 as [|e r]; [exact H1|].
  destruct ((e =? 101) || (e =? 69))%N; [|exact H1].
  pose proof (plain_text_tail _ _ H1) as Hr.
  assert (Hr' : plain_text
                  match r with
                  | sign :: r'' => if ((sign =? 45) || (sign =? 43))%N then r'' else r
                  | [] => r
                  end).
  { destruct r as [|sign r'']; [exact Hr|].
    destruct ((sign =? 45) || (sign =? 43))%N;
      [eapply plain_text_tail; exact Hr|exact Hr]. }
  pose proof (take_digits_plain _ Hr') as Ht.
  destruct (take_digits _) as [u r'']. destruct (is_Nil u); [exact H1|exact Ht].
Qed.

Lemma match_number_plain text num r :
  plain_text text -> match_number text = Some (num, r) -> plain_text r.
Proof.
  intros H E. unfold match_number in E.
  assert (H1 : plain_text
                 (snd (match text with
                       | c :: t => if (c =? 45)%N then (true, t) else (false, text)
                       | [] => (false, text)
                       end))).
  { destruct text as [|c t]; [exact H|].
    destruct (c =? 45)%N; [eapply plain_text_tail|]; exact H. }
  destruct (match text with
            | c :: t => if (c =? 45)%N then (true, t) else (false, text)
            | [] => (false, text)
            end) as [neg t1].
  simpl in H1. destruct t1 as [|c t2]; [discriminate|].
  destruct (is_digit c); [|discriminate].
  pose proof (plain_text_tail _ _ H1) as H2.
  assert (H3 : plain_text
                 (snd (if (c =? 48)%N then (Decimal.D0 Decimal.Nil, t2)
                       else let '(u, t3) := take_digits t2 in (digit_cons c u, t3)))).
  { destruct (c =? 48)%N; [exact H2|].
    pose proof (take_digits_plain _ H2) as Ht.
    destruct (take_digits t2). exact Ht. }
  destruct (if (c =? 48)%N then (Decimal.D0 Decimal.Nil, t2)
            else let '(u, t3) := take_digits t2 in (digit_cons c u, t3))
    as [u t3].
  simpl in H3. pose proof (number_tail_plain _ H3) as H4.
  destruct (number_tail t3) as [is_float t4]. simpl in H4.
  destruct is_float; inversion E; subst; exact H4.
Qed.

Lemma hex_value_bound c v : hex_value c = Some v -> (v < 16)%N.
Proof.
  unfold hex_value. intro H.
  destruct ((48 <=? c) && (c <=? 57))%N eqn:E1.
  { apply andb_true_iff in E1. rewrite !N.leb_le in E1. inversion H. lia. }
  destruct ((97 <=? c) && (c <=? 102))%N eqn:E2.
  { apply andb_true_iff in E2. rewrite !N.leb_le in E2. inversion H. lia. }
  destruct ((65 <=? c) && (c <=? 70))%N eqn:E3; [|discriminate].
  apply andb_true_iff in E3. rewrite !N.leb_le in E3. inversion H. lia.
Qed.

Lemma parse_hex4_some t u r :
  parse_hex4 t = Some (u, r) ->
  (u < 65536)%N /\ exists a b c d, t = a :: b :: c :: d :: r.
Proof.
  unfold parse_hex4. intro H.
  destruct t as [|a [|b [|c [|d rest]]]]; try discriminate.
  destruct (hex_value a) as [va|] eqn:Ea; [|discriminate].
  destruct (hex_value b) as [vb|] eqn:Eb; [|discriminate].
  destruct (hex_value c) as [vc|] eqn:Ec; [|discriminate].
  destruct (hex_value d) as [vd|] eqn:Ed; [|discriminate].
  apply hex_value_bound in Ea, Eb, Ec, Ed.
  inversion H; subst. split; [lia|]. exists a, b, c, d. reflexivity.
Qed.

Lemma parse_hex4_plain t u r :
  plain_text t -> parse_hex4 t = Some (u, r) -> plain_text r.
Proof.
  intros H E. destruct (parse_hex4_some _ _ _ E) as [_ [a [b [c [d ->]]]]].
  repeat apply plain_text_tail in H. exact H.
Qed.

Lemma simple_escape_small e ch : simple_escape e = Some ch -> (ch < 128)%N.
Proof.
  unfold simple_escape. intro H.
  repeat match type of H with
         | (if ?b then _ else _) = _ => destruct b; [inversion H; lia|]
         end.
  discriminate.
Qed.

Lemma unpaired_cons_scalar c s :
  (c < 55296 \/ 57343 < c < 1114112)%N -> unpaired s -> unpaired (c :: s).
Proof.
  intros Hc Hs. simpl. split; [lia|]. split; [|exact Hs].
  rewrite (scalar_not_surrogate c Hc). discriminate.
Qed.

Lemma join_surrogates_scalar hi lo :
  (57343 < join_surrogates hi lo < 1114112)%N.
Proof. unfold join_surrogates. lia. Qed.

(** The string [scan_chars] returns holds no pair of surrogates, and
    starts with a low surrogate only when the text starts with the escape
    of one. *)
Lemma scan_chars_unpaired fuel :
  forall text s r,
    plain_text text -> scan_chars fuel text = Some (s, r) ->
    unpaired s /\ plain_text r
    /\ (forall lo s', s = lo :: s' -> is_low_surrogate lo = true ->
        exists t3 t4, text = 92%N :: 117%N :: t3 /\ parse_hex4 t3 = Some (lo, t4)).
Proof.
  induction fuel as [|fuel IH]; intros text s r Hp H; [discriminate|].
  cbn [scan_chars] in H.
  destruct text as [|c rest]; [discriminate|].
  assert (Hc : (c < 55296)%N) by (inversion Hp; assumption).
  pose proof (plain_text_tail _ _ Hp) as Hrest.
  destruct (c =? 34)%N eqn:E34.
  { inversion H; subst. split; [exact I|]. split; [exact Hrest|].
    intros lo s' E. discriminate. }
  destruct (c =? 92)%N eqn:E92.
  - apply N.eqb_eq in E92. subst c.
    destruct rest as [|e rest1]; [discriminate|].
    pose proof (plain_text_tail _ _ Hrest) as Hrest1.
    destruct (e =? 117)%N eqn:Eu.
    + apply N.eqb_eq in Eu. subst e.
      destruct (parse_hex4 rest1) as [[uni rest2]|] eqn:Eh; [|discriminate].
      destruct (parse_hex4_some _ _ _ Eh) as [Huni _].
      pose proof (parse_hex4_plain _ _ _ Hrest1 Eh) as Hrest2.
      assert (Hsingle :
                forall s0,
                  scan_chars fuel rest2 = Some (s0, r) ->
                  (is_high_surrogate uni = true ->
                   forall t3 lo t4, rest2 = 92%N :: 117%N :: t3 ->
                                    parse_hex4 t3 = Some (lo, t4) ->
                                    is_low_surrogate lo = false) ->
                  unpaired (uni :: s0) /\ plain_text r
                  /\ (forall lo s', uni :: s0 = lo :: s' ->
                                    is_low_surrogate lo = true ->
                                    exists t3 t4,
                                      92%N :: 117%N :: rest1 = 92%N :: 117%N :: t3
                                      /\ parse_hex4 t3 = Some (lo, t4))).
      { intros s0 Es Hno.
        destruct (IH _ _ _ Hrest2 Es) as [Hs0 [Hr Hhead]].
        split; [|split; [exact Hr|]].
        - simpl. split; [lia|]. split; [|exact Hs0].
          intro Hhi. destruct s0 as [|lo s0']; [exact I|].
          destruct (is_low_surrogate lo) eqn:El; [|reflexivity].
          destruct (Hhead lo s0' eq_refl El) as [t3 [t4 [Et Ep]]].
          rewrite <- El. apply (Hno Hhi t3 lo t4 Et Ep).
        - intros lo s' E Hlo. inversion E; subst.
          exists rest1, rest2. split; [reflexivity|exact Eh]. }
      destruct (is_high_surrogate uni) eqn:Ehi.
      * destruct rest2 as [|b [|u rest3]].
        -- destruct (scan_chars fuel []) as [[s0 r0]|] eqn:Es; [|discriminate].
           inversion H; subst. apply Hsingle; [reflexivity|].
           intros _ t3 lo t4 Et. discriminate.
        -- destruct (scan_chars fuel [b]) as [[s0 r0]|] eqn:Es; [|discriminate].
           inversion H; subst. apply Hsingle; [reflexivity|].
           intros _ t3 lo t4 Et. discriminate.
        -- destruct ((b =? 92) && (u =? 117))%N eqn:Ebu.
           ++ destruct (parse_hex4 rest3) as [[uni2 rest4]|] eqn:Eh2;
                [|discriminate].
              destruct (is_low_surrogate uni2) eqn:El2.
              ** destruct (scan_chars fuel rest4) as [[s0 r0]|] eqn:Es;
                   [|discriminate].
                 inversion H; subst.
                 assert (Hrest4 : plain_text rest4).
                 { eapply parse_hex4_plain; [|exact Eh2].
                   do 2 apply plain_text_tail in Hrest2. exact Hrest2. }
                 destruct (IH _ _ _ Hrest4 Es) as [Hs0 [Hr _]].
                 pose proof (join_surrogates_scalar uni uni2) as Hj.
                 split; [apply unpaired_cons_scalar; [lia|exact Hs0]|].
                 split; [exact Hr|].
                 intros lo s' E Hlo. inversion E; subst.
                 destruct (surrogate_false (join_surrogates uni uni2)) as [_ Hl];
                   [lia|]. congruence.
              ** destruct (scan_chars fuel (b :: u :: rest3)) as [[s0 r0]|] eqn:Es;
                   [|discriminate].
                 inversion H; subst. apply Hsingle; [reflexivity|].
                 intros _ t3 lo t4 Et Ep. inversion Et; subst.
                 rewrite Eh2 in Ep. inversion Ep; subst. exact El2.
           ++ destruct (scan_chars fuel (b :: u :: rest3)) as [[s0 r0]|] eqn:Es;
                [|discriminate].
              inversion H; subst. apply Hsingle; [reflexivity|].
              intros _ t3 lo t4 Et Ep. inversion Et; subst.
              discriminate.
      * destruct (scan_chars fuel rest2) as [[s0 r0]|] eqn:Es; [|discriminate].
        inversion H; subst. apply Hsingle; [reflexivity|].
        intro Hhi. discriminate.
    + destruct (simple_escape e) as [ch|] eqn:Ee; [|discriminate].
      destruct (scan_chars fuel rest1) as [[s0 r0]|] eqn:Es; [|discriminate].
      inversion H; subst.
      destruct (IH _ _ _ Hrest1 Es) as [Hs0 [Hr _]].
      pose proof (simple_escape_small _ _ Ee) as Hch.
      split; [apply unpaired_cons_scalar; [lia|exact Hs0]|].
      split; [exact Hr|].
      intros lo s' E Hlo. inversion E; subst.
      destruct (surrogate_false lo) as [_ Hl]; [lia|]. congruence.
  - destruct (c <? 32)%N; [discriminate|].
    destruct (scan_chars fuel rest) as [[s0 r0]|] eqn:Es; [|discriminate].
    inversion H; subst.
    destruct (IH _ _ _ Hrest Es) as [Hs0 [Hr _]].
    split; [apply unpaired_cons_scalar; [lia|exact Hs0]|].
    split; [exact Hr|].
    intros lo s' E Hlo. inversion E; subst.
    destruct (surrogate_false lo) as [_ Hl]; [lia|]. congruence.
Qed.


Lemma scanstring_unpaired text s r :
  plain_text text -> scanstring text = Some (s, r) ->
  unpaired s /\ plain_text r.
Proof.
  intros Hp H. unfold scanstring in H.
  destruct (scan_chars_unpaired _ _ _ _ Hp H) as [H1 [H2 _]]. auto.
Qed.

(** *** The dict the decoder builds *)

Lemma dict_set_keys key value d k :
  In k (map fst (dict_set key value d)) -> k = KStr key \/ In k (map fst d).
Proof.
  induction d as [|[k0 v0] d IH]; simpl.
  - intros [<-|[]]. left. reflexivity.
  - destruct k0 as [s0| | |]; simpl;
      try (intros [<-|H]; [right; left; reflexivity|];
           destruct (IH H); [left|right; right]; assumption).
    destruct (pystr_eqb s0 key); simpl.
    + intros [<-|H]; right; [left|right]; auto.
    + intros [<-|H]; [right; left; reflexivity|].
      destruct (IH H); [left|right; right]; assumption.
Qed.

Lemma dict_set_stable key value d :
  NoDup (map fst d) -> Forall stable_item d ->
  unpaired key -> stable value ->
  NoDup (map fst (dict_set key value d))
  /\ Forall stable_item (dict_set key value d).
Proof.
  intros Hnd Hd Hk Hv.
  induction d as [|[k0 v0] d IH]; simpl.
  - split; repeat constructor; simpl; auto.
  - inversion Hnd as [|? ? Hk0 Hnd']; subst.
    inversion Hd as [|? ? [Hi1 Hi2] Hd']; subst. simpl in Hi1, Hi2.
    destruct (IH Hnd' Hd') as [IH1 IH2].
    assert (Hother :
              k0 <> KStr key ->
              NoDup (map fst ((k0, v0) :: dict_set key value d))
              /\ Forall stable_item ((k0, v0) :: dict_set key value d)).
    { intro Hne. split.
      - simpl. constructor; [|exact IH1].
        intro Hin. apply dict_set_keys in Hin.
        destruct Hin as [->|Hin]; [apply Hne; reflexivity|].
        apply Hk0. exact Hin.
      - constructor; [split; assumption|exact IH2]. }
    destruct k0 as [s0| | |]; try (apply Hother; discriminate).
    destruct (pystr_eqb s0 key) eqn:E.
    + split; [exact Hnd|].
      constructor; [split; assumption|exact Hd'].
    + apply Hother. intro Heq. inversion Heq; subst.
      assert (pystr_eqb key key = true) by (apply pystr_eqb_eq; reflexivity).
      congruence.
Qed.

Lemma dict_of_pairs_stable pairs :
  Forall stable_pair pairs -> stable (PDict (dict_of_pairs pairs)).
Proof.
  intro H. unfold dict_of_pairs.
  assert (Hgen : forall d,
             NoDup (map fst d) -> Forall stable_item d ->
             NoDup (map fst (fold_left (fun d kv => dict_set (fst kv) (snd kv) d)
                               pairs d))
             /\ Forall stable_item
                  (fold_left (fun d kv => dict_set (fst kv) (snd kv) d) pairs d)).
  { induction H as [|[k v] pairs [Hk Hv] _ IH]; intros d Hnd Hd; simpl.
    - auto.
    - simpl in Hk, Hv.
      destruct (dict_set_stable k v d Hnd Hd Hk Hv) as [H1 H2].
      apply IH; assumption. }
  destruct (Hgen [] (NoDup_nil _) (Forall_nil _)) as [H1 H2].
  simpl. split; [exact H1|]. apply all_map_Forall. exact H2.
Qed.

Lemma stable_list items : Forall stable items -> stable (PList items).
Proof. intro H. simpl. apply all_map_Forall. exact H. Qed.

(** *** The decoder *)

Lemma scan_once_stable fuel :
  (forall text obj f r,
      plain_text text -> scan_once fuel text = Some (obj, f, r) ->
      stable obj /\ plain_text r)
  /\ (forall text items f r,
         plain_text text -> parse_items fuel text = Some (items, f, r) ->
         Forall stable items /\ plain_text r)
  /\ (forall text pairs f r,
         plain_text text -> parse_pairs fuel text = Some (pairs, f, r) ->
         Forall stable_pair pairs /\ plain_text r).
Proof.
  induction fuel as [|fuel [IH1 [IH2 IH3]]].
  { repeat split; intros; discriminate. }
  split; [|split].
  - intros text obj f r Hp H. cbn [scan_once] in H.
    destruct text as [|c rest]; [discriminate|].
    pose proof (plain_text_tail _ _ Hp) as Hrest.
    destruct (c =? 34)%N.
    { destruct (scanstring rest) as [[s0 r0]|] eqn:Es; [|discriminate].
      inversion H; subst.
      destruct (scanstring_unpaired _ _ _ Hrest Es). split; assumption. }
    destruct (c =? 123)%N.
    { pose proof (skip_ws_plain _ Hrest) as Hw.
      destruct (skip_ws rest) as [|c' r0]; [discriminate|].
      destruct (c' =? 125)%N.
      - inversion H; subst. split; [|eapply plain_text_tail; exact Hw].
        simpl. split; constructor.
      - destruct (parse_pairs fuel (c' :: r0)) as [[[pairs f0] r']|] eqn:Ep;
          [|discriminate].
        inversion H; subst.
        destruct (IH3 _ _ _ _ Hw Ep) as [H1 H2].
        split; [apply dict_of_pairs_stable; exact H1|exact H2]. }
    destruct (c =? 91)%N.
    { pose proof (skip_ws_plain _ Hrest) as Hw.
      destruct (skip_ws rest) as [|c' r0]; [discriminate|].
      destruct (c' =? 93)%N.
      - inversion H; subst. split; [|eapply plain_text_tail; exact Hw].
        exact I.
      - destruct (parse_items fuel (c' :: r0)) as [[[items f0] r']|] eqn:Ep;
          [|discriminate].
        inversion H; subst.
        destruct (IH2 _ _ _ _ Hw Ep) as [H1 H2].
        split; [apply stable_list; exact H1|exact H2]. }
    destruct (strip_prefix (codes "null") (c :: rest)) as [r0|] eqn:E1.
    { inversion H; subst. split; [exact I|].
      eapply strip_prefix_plain; [exact Hp|exact E1]. }
    destruct (strip_prefix (codes "true") (c :: rest)) as [r0|] eqn:E2.
    { inversion H; subst. split; [exact I|].
      eapply strip_prefix_plain; [exact Hp|exact E2]. }
    destruct (strip_prefix (codes "false") (c :: rest)) as [r0|] eqn:E3.
    { inversion H; subst. split; [exact I|].
      eapply strip_prefix_plain; [exact Hp|exact E3]. }
    destruct (match_number (c :: rest)) as [[[n|] r0]|] eqn:En.
    { inversion H; subst. split; [exact I|].
      eapply match_number_plain; [exact Hp|exact En]. }
    { inversion H; subst. split; [exact I|].
      eapply match_number_plain; [exact Hp|exact En]. }
    destruct (strip_prefix (codes "NaN") (c :: rest)) as [r0|] eqn:E4.
    { inversion H; subst. split; [exact I|].
      eapply strip_prefix_plain; [exact Hp|exact E4]. }
    destruct (strip_prefix (codes "Infinity") (c :: rest)) as [r0|] eqn:E5.
    { inversion H; subst. split; [exact I|].
      eapply strip_prefix_plain; [exact Hp|exact E5]. }
    destruct (strip_prefix (codes "-Infinity") (c :: rest)) as [r0|] eqn:E6;
      [|discriminate].
    inversion H; subst. split; [exact I|].
    eapply strip_prefix_plain; [exact Hp|exact E6].
  - intros text items f r Hp H. cbn [parse_items] in H.
    destruct (scan_once fuel text) as [[[value f0] rest]|] eqn:Es;
      [|discriminate].
    destruct (IH1 _ _ _ _ Hp Es) as [Hv Hrest].
    pose proof (skip_ws_plain _ Hrest) as Hw.
    destruct (skip_ws rest) as [|c rest']; [discriminate|].
    pose proof (plain_text_tail _ _ Hw) as Hrest'.
    destruct (c =? 93)%N.
    { inversion H; subst. split; [repeat constructor; exact Hv|exact Hrest']. }
    destruct (c =? 44)%N; [|discriminate].
    destruct (parse_items fuel (skip_ws rest')) as [[[values f'] r']|] eqn:Ep;
      [|discriminate].
    inversion H; subst.
    destruct (IH2 _ _ _ _ (skip_ws_plain _ Hrest') Ep) as [H1 H2].
    split; [constructor; assumption|exact H2].
  - intros text pairs f r Hp H. cbn [parse_pairs] in H.
    destruct text as [|q t]; [discriminate|].
    pose proof (plain_text_tail _ _ Hp) as Ht.
    destruct (negb (q =? 34)%N); [discriminate|].
    destruct (scanstring t) as [[key t1]|] eqn:Ek; [|discriminate].
    destruct (scanstring_unpaired _ _ _ Ht Ek) as [Hkey Ht1].
    pose proof (skip_ws_plain _ Ht1) as Hw1.
    destruct (skip_ws t1) as [|colon t2]; [discriminate|].
    pose proof (plain_text_tail _ _ Hw1) as Ht2.
    destruct (negb (colon =? 58)%N); [discriminate|].
    destruct (scan_once fuel (skip_ws t2)) as [[[value f0] t3]|] eqn:Es;
      [|discriminate].
    destruct (IH1 _ _ _ _ (skip_ws_plain _ Ht2) Es) as [Hv Ht3].
    pose proof (skip_ws_plain _ Ht3) as Hw3.
    destruct (skip_ws t3) as [|c t4]; [discriminate|].
    pose proof (plain_text_tail _ _ Hw3) as Ht4.
    destruct (c =? 125)%N.
    { inversion H; subst.
      split; [repeat constructor; assumption|exact Ht4]. }
    destruct (c =? 44)%N; [|discriminate].
    destruct (parse_pairs fuel (skip_ws t4)) as [[[pairs' f'] r']|] eqn:Ep;
      [|discriminate].
    inversion H; subst.
    destruct (IH3 _ _ _ _ (skip_ws_plain _ Ht4) Ep) as [H1 H2].
    split; [constructor; [split; assumption|exact H1]|exact H2].
Qed.

Lemma loads_stable text obj :
  plain_text text -> loads text = Doc obj -> stable obj.
Proof.
  intros Hp H. unfold loads in H.
  destruct (scan_once _ (skip_ws text)) as [[[o f] rest]|] eqn:E;
    [|discriminate].
  destruct (skip_ws rest); [|discriminate].
  destruct f; [discriminate|]. inversion H; subst.
  destruct (scan_once_stable (S (List.length (skip_ws text)))) as [H1 _].
  apply (H1 _ _ _ _ (skip_ws_plain _ Hp) E).
Qed.

Lemma codes_plain s : plain_text (codes s).
Proof.
  unfold codes, plain_text. apply Forall_map. apply Forall_forall.
  intros a _. pose proof (N_ascii_bounded a). lia.
Qed.

End JsonStable.

(** X19: a document that [json.loads] returns for a text of 8-bit
    characters comes back unchanged from the text [json.dumps] makes of
    it. *)
Theorem decoded_document_comes_back :
  forall (text : string) (obj : pyval),
    json_loads text = Ok obj ->
    json_loads (text_of_codes (dumps obj)) = Ok obj.
Proof.
  intros text obj H. unfold json_loads in H.
  destruct (loads (codes text)) as [o| |] eqn:E; try discriminate.
  inversion H; subst o.
  pose proof (loads_stable _ _ (codes_plain text) E) as Hs.
  rewrite (json_loads_json_dumps obj (stable_well_formed obj Hs)).
  rewrite (stable_norm obj Hs). reflexivity.
Qed.

Lemma decoded_document_comes_back_witness :
  json_loads "[1, 2]" = Ok two_items
  /\ json_loads (text_of_codes (dumps two_items)) = Ok two_items.
Proof.
  assert (H : json_loads "[1, 2]" = Ok two_items) by (vm_compute; reflexivity).
  split; [exact H|].
  exact (decoded_document_comes_back "[1, 2]" two_items H).
Defined.

(** ** [queuectl enqueue] *)




(** ** The handler of [print_message] *)



(** ** [handle_job_failure] writes from the dict it is given *)

(** X23: what [handle_job_failure] stores does not depend on the stored
    row: the attempt count becomes that of the dict given plus one, and the
    choice between [dlq] and [pending] is made from the dict alone; so a
    job that is completed in the table is made pending (or put in [dlq])
    again by a failure reported from a dict read before. *)
Theorem handle_job_failure_writes_from_its_argument :
  forall (job : Job) (error_message : string) (base_delay : Z)
         (now t : datetime) (s s' : Store) (r : Job),
    get_job (id job) s = Some r ->
    handle_job_failure job error_message base_delay now t s = (Ok tt, s') ->
    exists r',
      get_job (id job) s' = Some r'
      /\ attempts r' = attempts job + 1
      /\ last_error r' = Some error_message
      /\ status r'
         = (if attempts job + 1 >=? max_attempts job then dlq else pending)
      /\ max_attempts r' = max_attempts r.
Proof.
  intros job m b now t s s' r Hg H. unfold handle_job_failure in H.
  destruct (attempts job + 1 >=? max_attempts job).
  - inversion H; subst s'. eexists.
    rewrite get_job_update by auto with store.
    rewrite Z.eqb_refl, Hg. simpl. repeat split.
  - destruct (timedelta _) as [delta|e]; [|discriminate].
    destruct (datetime_add now delta) as [next|e]; [|discriminate].
    inversion H; subst s'. eexists.
    rewrite get_job_update by auto with store.
    rewrite Z.eqb_refl, Hg. simpl. repeat split.
Qed.

Lemma handle_job_failure_writes_from_its_argument_witness :
  let job := sample_job 1 running 0 3 0 in
  let s' := mkStore [set_rescheduled 1 (utc_2025 + 5000000) "boom" utc_2025
                       (sample_job 1 completed 0 3 0)] 1 in
  get_job (id job) completed_elsewhere = Some (sample_job 1 completed 0 3 0)
  /\ handle_job_failure job "boom" 5 utc_2025 utc_2025 completed_elsewhere
     = (Ok tt, s')
  /\ exists r',
       get_job (id job) s' = Some r'
       /\ attempts r' = attempts job + 1
       /\ last_error r' = Some "boom"
       /\ status r'
          = (if attempts job + 1 >=? max_attempts job then dlq else pending)
       /\ max_attempts r' = max_attempts (sample_job 1 completed 0 3 0).
Proof.
  intros job s'.
  assert (H1 : get_job (id job) completed_elsewhere
               = Some (sample_job 1 completed 0 3 0)) by reflexivity.
  assert (H2 : handle_job_failure job "boom" 5 utc_2025 utc_2025
                 completed_elsewhere = (Ok tt, s')) by (vm_compute; reflexivity).
  split; [exact H1|]. split; [exact H2|].
  exact (handle_job_failure_writes_from_its_argument job "boom" 5 utc_2025
           utc_2025 completed_elsewhere s' (sample_job 1 completed 0 3 0) H1 H2).
Defined.
